(** * Planner: the hierarchical task/project graph engine

    A shallow embedding of [src/hooks/useProjectStore.ts] (the store and its
    mutation operations) and of the priority filters of
    [src/components/Dashboard.tsx] and [src/components/ProjectsView.tsx].

    Conventions of the embedding
    - a TypeScript field [f?: T] or [f: T | null] is an [option T]; [None]
      stands for both [undefined] and [null] (the store never tells them
      apart: it tests such fields by truthiness or with [??]);
    - JavaScript truthiness of a string is [truthy]: present and not empty;
    - canvas coordinates are JavaScript numbers: IEEE 754 binary64 values,
      which are the primitive floats of Rocq, with the same rounding
      addition, and [===] on them is [PrimFloat.eqb];
    - a JavaScript [Set<string>] is the list of its elements in insertion
      order ([Array.from] and [forEach] enumerate in that order);
    - a React state cell read through a closure and the [prev] argument of a
      functional updater are the same value: every operation runs on the
      state of the latest render. React calls a functional updater either
      when it is queued, if the component has no update pending, or at the
      next render. The state an operation leaves is the same either way, but
      a variable assigned inside an updater is set, in the code that follows
      the [setState] call, only in the first case: the two operations that
      read such a variable take a flag [eager] that tells which case it is;
    - [Dashboard] and [TaskPriorityView] index the tasks and the projects in
      plain objects, whose lookups also see the properties the object
      inherits; the project rows use a [Map];
    - the remote writes (Firestore, Storage) are fire and forget and never
      read back by an operation; they are left out. *)

From Stdlib Require Import ZArith Lia Floats.PrimFloat.
From stdpp Require Import base list strings gmap sorting.

Local Open Scope Z_scope.

(** ** JavaScript values *)

Definition truthy (s : option string) : bool :=
  match s with
  | Some v => bool_decide (v ≠ "")
  | None => false
  end.

Definition truthyFlag (b : option bool) : bool :=
  match b with
  | Some true => true
  | _ => false
  end.

(** [a ?? b] *)
Definition nullish {A} (a : option A) (b : A) : A :=
  match a with
  | Some v => v
  | None => b
  end.

(** One key of [{ ...old, ...d }]: the value [d] has for it, if [d] has the
    key. *)
Definition overwrite {A} (d : option A) (old : A) : A :=
  match d with
  | Some v => v
  | None => old
  end.

(** ** Sets of strings, in insertion order *)

Module JSSet.
Definition has (x : string) (s : list string) : bool := bool_decide (x ∈ s).

Definition add (x : string) (s : list string) : list string :=
  if has x s then s else s ++ [x].

(** [new Set(l)] and [Array.from(new Set(l))] *)
Definition from (l : list string) : list string :=
  foldl (λ s x, add x s) [] l.
End JSSet.

(** ** Data model ([src/types.ts]) *)

Inductive ProjectStatus := InProgress | Completed.

Global Instance ProjectStatus_eq_dec : EqDecision ProjectStatus.
Proof. solve_decision. Defined.

Module Position.
Record t := mk { x : float; y : float }.
End Position.

Record Delta := { dx : float; dy : float }.

(** [{ x: p.x + delta.dx, y: p.y + delta.dy }] *)
Definition translate (d : Delta) (p : Position.t) : Position.t :=
  Position.mk (Position.x p + dx d)%float (Position.y p + dy d)%float.

Record LineStyle := { color : string; strokeWidth : Z }.

Module Task.
Record t := mk {
  id : string;
  title : string;
  content : string;
  date : option string;
  endDate : option string;
  fileURL : option string;
  fileName : option string;
  storagePath : option string;
  completed : option bool;
  completionDate : option string;
  position : Position.t;
  projectId : option string;
  parentTaskId : option string;
  lineStyle : option LineStyle
}.

Definition withPosition (pos : Position.t) (a : t) : t :=
  mk (id a) (title a) (content a) (date a) (endDate a) (fileURL a)
     (fileName a) (storagePath a) (completed a) (completionDate a)
     pos (projectId a) (parentTaskId a) (lineStyle a).

(** [{ ...a, projectId: p, parentTaskId: q }] *)
Definition withLinks (p q : option string) (a : t) : t :=
  mk (id a) (title a) (content a) (date a) (endDate a) (fileURL a)
     (fileName a) (storagePath a) (completed a) (completionDate a)
     (position a) p q (lineStyle a).

Definition withProjectId (p : option string) (a : t) : t :=
  withLinks p (parentTaskId a) a.

(** [{ ...a, completed: true, completionDate: d }] *)
Definition withCompletion (d : string) (a : t) : t :=
  mk (id a) (title a) (content a) (date a) (endDate a) (fileURL a)
     (fileName a) (storagePath a) (Some true) (Some d)
     (position a) (projectId a) (parentTaskId a) (lineStyle a).

(** [Partial<Task>]: an absent key is [None]; a key of an optional field
    present with the value [undefined] is [Some None]. *)
Record patch := mkPatch {
  p_id : option string;
  p_title : option string;
  p_content : option string;
  p_date : option (option string);
  p_endDate : option (option string);
  p_fileURL : option (option string);
  p_fileName : option (option string);
  p_storagePath : option (option string);
  p_completed : option (option bool);
  p_completionDate : option (option string);
  p_position : option Position.t;
  p_projectId : option (option string);
  p_parentTaskId : option (option string);
  p_lineStyle : option (option LineStyle)
}.

Definition emptyPatch : patch :=
  mkPatch None None None None None None None None None None None None None None.

(** [{ ...a, ...d }] *)
Definition merge (a : t) (d : patch) : t :=
  mk (overwrite (p_id d) (id a)) (overwrite (p_title d) (title a))
     (overwrite (p_content d) (content a)) (overwrite (p_date d) (date a))
     (overwrite (p_endDate d) (endDate a)) (overwrite (p_fileURL d) (fileURL a))
     (overwrite (p_fileName d) (fileName a))
     (overwrite (p_storagePath d) (storagePath a))
     (overwrite (p_completed d) (completed a))
     (overwrite (p_completionDate d) (completionDate a))
     (overwrite (p_position d) (position a))
     (overwrite (p_projectId d) (projectId a))
     (overwrite (p_parentTaskId d) (parentTaskId a))
     (overwrite (p_lineStyle d) (lineStyle a)).
End Task.

Abbreviation Task := Task.t.

Module Project.
Record t := mk {
  id : string;
  title : string;
  content : option string;
  status : ProjectStatus;
  tasks : list Task;
  date : option string;
  endDate : option string;
  fileURL : option string;
  fileName : option string;
  storagePath : option string;
  position : Position.t;
  isCollapsed : option bool
}.

Definition withTasks (ts : list Task) (a : t) : t :=
  mk (id a) (title a) (content a) (status a) ts (date a) (endDate a)
     (fileURL a) (fileName a) (storagePath a) (position a) (isCollapsed a).

Definition withPosition (pos : Position.t) (a : t) : t :=
  mk (id a) (title a) (content a) (status a) (tasks a) (date a) (endDate a)
     (fileURL a) (fileName a) (storagePath a) pos (isCollapsed a).

(** [{ ...a, status: s, isCollapsed: c }] *)
Definition withStatus (s : ProjectStatus) (c : bool) (a : t) : t :=
  mk (id a) (title a) (content a) s (tasks a) (date a) (endDate a)
     (fileURL a) (fileName a) (storagePath a) (position a) (Some c).

Definition withCollapsed (c : bool) (a : t) : t :=
  withStatus (status a) c a.

(** [Partial<Omit<Project, 'position'>>] *)
Record patch := mkPatch {
  p_id : option string;
  p_title : option string;
  p_content : option (option string);
  p_status : option ProjectStatus;
  p_tasks : option (list Task);
  p_date : option (option string);
  p_endDate : option (option string);
  p_fileURL : option (option string);
  p_fileName : option (option string);
  p_storagePath : option (option string);
  p_isCollapsed : option (option bool)
}.

Definition merge (a : t) (d : patch) : t :=
  mk (overwrite (p_id d) (id a)) (overwrite (p_title d) (title a))
     (overwrite (p_content d) (content a)) (overwrite (p_status d) (status a))
     (overwrite (p_tasks d) (tasks a)) (overwrite (p_date d) (date a))
     (overwrite (p_endDate d) (endDate a)) (overwrite (p_fileURL d) (fileURL a))
     (overwrite (p_fileName d) (fileName a))
     (overwrite (p_storagePath d) (storagePath a))
     (position a)
     (overwrite (p_isCollapsed d) (isCollapsed a)).
End Project.

Abbreviation Project := Project.t.

(** The React state of [useProjectStore] that the graph engine reads and
    writes. Memos, AI reports and the user id take no part in it. *)
Module Store.
Record t := mk {
  projects : list Project;
  tasks : list Task;
  prioritizedTaskIds : list string
}.
End Store.

Abbreviation Store := Store.t.

(** [arr.find(t => t.id === i)] *)
Definition findTask (i : string) (ts : list Task) : option Task :=
  list_find (λ a, Task.id a = i) ts ≫= λ r, Some (snd r).

Definition findProject (i : string) (ps : list Project) : option Project :=
  list_find (λ a, Project.id a = i) ps ≫= λ r, Some (snd r).

(** ** Traversal engine: [getAllDescendantTaskIds]

    The helper is declared, with the same body, inside [moveProjectGroup],
    [moveTaskSubtree], [finishProject], [reactivateProject] and
    [deleteProject]. Its two sets [allDescendants] and [visited] receive the
    same [add]s, so one insertion-ordered list stands for both. The [while]
    loop is [bfs_loop], one iteration per unit of fuel; [None] is a loop
    that is still running when the fuel is spent. The loop always ends
    within [bfs_fuel] iterations, which is what [getAllDescendantTaskIds]
    gives it. *)

(** [allTasks.filter(t => t.parentTaskId === currentTaskId)] *)
Definition childrenOf (allTasks : list Task) (currentTaskId : string) : list Task :=
  filter (λ a, Task.parentTaskId a = Some currentTaskId) allTasks.

Fixpoint bfs_loop (fuel : nat) (allTasks : list Task)
    (queue visited : list string) : option (list string) :=
  match fuel with
  | O => None
  | S fuel' =>
      match queue with
      | [] => Some visited
      | currentTaskId :: rest =>
          if JSSet.has currentTaskId visited
          then bfs_loop fuel' allTasks rest visited
          else
            let visited' := visited ++ [currentTaskId] in
            let children := childrenOf allTasks currentTaskId in
            let pushed :=
              Task.id <$> filter (λ c, JSSet.has (Task.id c) visited' = false) children in
            bfs_loop fuel' allTasks (rest ++ pushed) visited'
      end
  end.

(** Identifiers that may still be visited: every identifier the queue can
    ever hold is a start identifier or the identifier of a task. *)
Definition bfs_pending (startTaskIds : list string) (allTasks : list Task)
    (visited : list string) : nat :=
  length (filter (λ i, i ∉ visited) (startTaskIds ++ (Task.id <$> allTasks))).

Definition bfs_fuel (startTaskIds : list string) (allTasks : list Task) : nat :=
  S (length startTaskIds
     + S (length allTasks) * length (startTaskIds ++ (Task.id <$> allTasks))).

Definition getAllDescendantTaskIds (startTaskIds : list string)
    (allTasks : list Task) : list string :=
  default [] (bfs_loop (bfs_fuel startTaskIds allTasks) allTasks startTaskIds []).

(** The descendant closure, as the specification words it: the seeds, and
    every task whose parent is in the closure. *)
Inductive Descendant (allTasks : list Task) (seeds : list string) : string → Prop :=
  | Descendant_seed i :
      i ∈ seeds → Descendant allTasks seeds i
  | Descendant_child a p :
      a ∈ allTasks → Task.parentTaskId a = Some p →
      Descendant allTasks seeds p → Descendant allTasks seeds (Task.id a).

(** ** Mutation operations ([useProjectStore]) *)

(** [tasks.filter(t => t.projectId === projectId).map(t => t.id)] *)
Definition tasksOfProject (projectId : string) (ts : list Task) : list Task :=
  filter (λ a, Task.projectId a = Some projectId) ts.

(** [addProject]; [newId] is [`proj-${Date.now()}`]. The keys that
    [projectData] may not carry are overwritten. *)
Definition addProject (newId : string) (projectData : Project)
    (position : option Position.t) (s : Store) : Store :=
  let newProject :=
    Project.mk newId (Project.title projectData) (Project.content projectData)
      InProgress [] (Project.date projectData) (Project.endDate projectData)
      (Project.fileURL projectData) (Project.fileName projectData)
      (Project.storagePath projectData)
      (nullish position (Position.mk 200 200)%float) (Some false) in
  Store.mk (newProject :: Store.projects s) (Store.tasks s)
    (Store.prioritizedTaskIds s).

Definition updateProject (projectId : string) (projectData : Project.patch)
    (s : Store) : Store :=
  Store.mk
    ((λ p, if decide (Project.id p = projectId)
           then Project.merge p projectData else p) <$> Store.projects s)
    (Store.tasks s) (Store.prioritizedTaskIds s).

(** The seeds of [moveProjectGroup]: the cached tasks of the project, then
    the tasks of the flat list that name it. *)
Definition directTaskIdsOfGroup (projectToMove : Project) (projectId : string)
    (ts : list Task) : list string :=
  JSSet.from ((Task.id <$> Project.tasks projectToMove)
              ++ (Task.id <$> tasksOfProject projectId ts)).

Definition moveProjectGroup (projectId : string) (delta : Delta) (s : Store) : Store :=
  match findProject projectId (Store.projects s) with
  | None => s
  | Some projectToMove =>
      let directTaskIds :=
        directTaskIdsOfGroup projectToMove projectId (Store.tasks s) in
      let allTaskIdsToMove := getAllDescendantTaskIds directTaskIds (Store.tasks s) in
      let updatedTasks :=
        (λ a, if JSSet.has (Task.id a) allTaskIdsToMove
              then Task.withPosition (translate delta (Task.position a)) a
              else a) <$> Store.tasks s in
      let updatedProjects :=
        (λ p, if decide (Project.id p = projectId)
              then Project.withTasks (tasksOfProject projectId updatedTasks)
                     (Project.withPosition (translate delta (Project.position p)) p)
              else p) <$> Store.projects s in
      Store.mk updatedProjects updatedTasks (Store.prioritizedTaskIds s)
  end.

(** [newPositions] of [moveTaskSubtree]: filled while the flat list is
    mapped, a later task with the same identifier overwrites. *)
Definition newPositionsOfMove (idsToMove : list string) (delta : Delta)
    (ts : list Task) : gmap string Position.t :=
  foldl (λ m a, if JSSet.has (Task.id a) idsToMove
                then <[Task.id a := translate delta (Task.position a)]> m
                else m) ∅ ts.

Definition moveTaskSubtree (rootTaskId : string) (delta : Delta) (s : Store) : Store :=
  if (dx delta =? 0)%float && (dy delta =? 0)%float then s else
  match findTask rootTaskId (Store.tasks s) with
  | None => s
  | Some _ =>
      let idsToMove := getAllDescendantTaskIds [rootTaskId] (Store.tasks s) in
      if bool_decide (length idsToMove = 0%nat) then s else
      let newPositions := newPositionsOfMove idsToMove delta (Store.tasks s) in
      let updatedTasks :=
        (λ a, if JSSet.has (Task.id a) idsToMove
              then Task.withPosition (translate delta (Task.position a)) a
              else a) <$> Store.tasks s in
      (* every moved identifier is one of the flat list, so [newPositions]
         has it; the cached copy keeps its position otherwise *)
      let moveCached a :=
        if JSSet.has (Task.id a) idsToMove
        then Task.withPosition
               (default (Task.position a) (newPositions !! Task.id a)) a
        else a in
      Store.mk
        ((λ p, Project.withTasks (moveCached <$> Project.tasks p) p)
           <$> Store.projects s)
        updatedTasks (Store.prioritizedTaskIds s)
  end.

Definition finishProject (projectId : string) (s : Store) : Store :=
  match findProject projectId (Store.projects s) with
  | None => s
  | Some projectToFinish =>
      let directTaskIds := Task.id <$> Project.tasks projectToFinish in
      let allTaskIdsInProjectTree :=
        getAllDescendantTaskIds directTaskIds (Store.tasks s) in
      Store.mk
        ((λ p, if decide (Project.id p = projectId)
               then Project.withStatus Completed true p else p)
           <$> Store.projects s)
        (Store.tasks s)
        (filter (λ i, JSSet.has i allTaskIdsInProjectTree = false)
           (Store.prioritizedTaskIds s))
  end.

(** [setPrioritizedTasks]: the stored sequence is the argument, deduplicated
    in first-occurrence order. *)
Definition setPrioritizedTasks (ids : list string) (s : Store) : Store :=
  Store.mk (Store.projects s) (Store.tasks s) (JSSet.from ids).

(** [id => { const t = tasks.find(x => x.id === id); return t ? !t.completed : true; }] *)
Definition isActiveId (ts : list Task) (i : string) : bool :=
  match findTask i ts with
  | Some a => negb (truthyFlag (Task.completed a))
  | None => true
  end.

(** [activeIds] of [reactivateProject] *)
Definition activeIdsOfProject (projectId : string) (ts : list Task) : list string :=
  let directTaskIds := Task.id <$> tasksOfProject projectId ts in
  let allTaskIds := getAllDescendantTaskIds directTaskIds ts in
  filter (λ i, isActiveId ts i = true) allTaskIds.

Definition reactivateProject (projectId : string) (s : Store) : Store :=
  let s1 :=
    Store.mk
      ((λ p, if decide (Project.id p = projectId)
             then Project.withStatus InProgress false p else p)
         <$> Store.projects s)
      (Store.tasks s) (Store.prioritizedTaskIds s) in
  let activeIds := activeIdsOfProject projectId (Store.tasks s) in
  if bool_decide (0 < length activeIds)%nat
  then setPrioritizedTasks (Store.prioritizedTaskIds s ++ activeIds) s1
  else s1.

Definition toggleProjectCollapse (projectId : string) (s : Store) : Store :=
  Store.mk
    ((λ p, if decide (Project.id p = projectId)
           then Project.withCollapsed (negb (truthyFlag (Project.isCollapsed p))) p
           else p) <$> Store.projects s)
    (Store.tasks s) (Store.prioritizedTaskIds s).

Definition deleteProject (projectId : string) (s : Store) : Store :=
  let directTaskIds := Task.id <$> tasksOfProject projectId (Store.tasks s) in
  let allTaskIdsToDelete := getAllDescendantTaskIds directTaskIds (Store.tasks s) in
  Store.mk
    (filter (λ p, Project.id p ≠ projectId) (Store.projects s))
    (filter (λ a, JSSet.has (Task.id a) allTaskIdsToDelete = false) (Store.tasks s))
    (filter (λ i, JSSet.has i allTaskIdsToDelete = false) (Store.prioritizedTaskIds s)).

(** [addTask]; [newId] is [`task-${Date.now()}`]. *)
Definition addTask (newId : string) (taskData : Task) (s : Store) : Store :=
  let newTask :=
    Task.mk newId (Task.title taskData) (Task.content taskData)
      (Task.date taskData) (Task.endDate taskData) (Task.fileURL taskData)
      (Task.fileName taskData) (Task.storagePath taskData) (Some false)
      (Task.completionDate taskData) (Task.position taskData)
      (Task.projectId taskData) None (Task.lineStyle taskData) in
  let projects' :=
    if truthy (Task.projectId newTask)
    then (λ p, if decide (Some (Project.id p) = Task.projectId newTask)
               then Project.withTasks (Project.tasks p ++ [newTask]) p
               else p) <$> Store.projects s
    else Store.projects s in
  let prioritized' :=
    if JSSet.has newId (Store.prioritizedTaskIds s)
    then Store.prioritizedTaskIds s
    else Store.prioritizedTaskIds s ++ [newId] in
  Store.mk projects' (Store.tasks s ++ [newTask]) prioritized'.

Definition updateTask (taskId : string) (taskData : Task.patch) (s : Store) : Store :=
  let upd a := if decide (Task.id a = taskId) then Task.merge a taskData else a in
  Store.mk
    ((λ p, Project.withTasks (upd <$> Project.tasks p) p) <$> Store.projects s)
    (upd <$> Store.tasks s)
    (if truthyFlag (default None (Task.p_completed taskData))
     then filter (λ i, i ≠ taskId) (Store.prioritizedTaskIds s)
     else Store.prioritizedTaskIds s).

Definition updateTaskPosition (taskId : string) (position : Position.t)
    (s : Store) : Store :=
  let upd a := if decide (Task.id a = taskId) then Task.withPosition position a else a in
  Store.mk
    ((λ p, Project.withTasks (upd <$> Project.tasks p) p) <$> Store.projects s)
    (upd <$> Store.tasks s) (Store.prioritizedTaskIds s).

Definition deleteTask (taskId : string) (s : Store) : Store :=
  let taskToDelete := findTask taskId (Store.tasks s) in
  let owner := taskToDelete ≫= Task.projectId in
  let projects' :=
    if truthy owner
    then (λ p, if decide (Some (Project.id p) = owner)
               then Project.withTasks
                      (filter (λ a, Task.id a ≠ taskId) (Project.tasks p)) p
               else p) <$> Store.projects s
    else Store.projects s in
  Store.mk projects'
    (filter (λ a, Task.id a ≠ taskId) (Store.tasks s))
    (filter (λ i, i ≠ taskId) (Store.prioritizedTaskIds s)).

(** [taskToLink] is assigned inside the [map] callback of the updater given
    to [setTasks]: once the updater has run it is the rewritten copy of the
    last task with that identifier. The test [if (taskToLink)] comes right
    after the [setTasks] call: it sees that copy when React ran the updater
    at once ([eager]), and [undefined] when the updater waits for the next
    render; the cached list is appended to in the first case only. *)
Definition linkTaskToProject (eager : bool) (taskId projectId : string)
    (s : Store) : Store :=
  let relink a := Task.withLinks (Some projectId) None a in
  let taskToLink :=
    if eager
    then relink <$> last (filter (λ a, Task.id a = taskId) (Store.tasks s))
    else None in
  let tasks' :=
    (λ a, if decide (Task.id a = taskId) then relink a else a) <$> Store.tasks s in
  let projects' :=
    match taskToLink with
    | Some finalTask =>
        (λ p, if decide (Project.id p = projectId)
              then Project.withTasks (Project.tasks p ++ [finalTask]) p
              else p) <$> Store.projects s
    | None => Store.projects s
    end in
  Store.mk projects' tasks' (Store.prioritizedTaskIds s).

(** [linkTaskToTask]; [completionTimestamp] is [new Date().toISOString()]. *)
Definition linkTaskToTask (completionTimestamp : string)
    (childTaskId parentTaskId : string) (s : Store) : Store :=
  let parentBefore := findTask parentTaskId (Store.tasks s) in
  let effectiveCompletionDate :=
    nullish (parentBefore ≫= Task.completionDate) completionTimestamp in
  let prioritized' :=
    filter (λ i, i ≠ parentTaskId) (Store.prioritizedTaskIds s) ++ [childTaskId] in
  let tasks' :=
    (λ a, if decide (Task.id a = childTaskId)
          then Task.withLinks None (Some parentTaskId) a
          else if decide (Task.id a = parentTaskId)
          then Task.withCompletion effectiveCompletionDate a
          else a) <$> Store.tasks s in
  let childTaskProject :=
    snd <$> list_find
      (λ p, Exists (λ a, Task.id a = childTaskId) (Project.tasks p))
      (Store.projects s) in
  let projects' :=
    (λ p,
       let newTasks :=
         (λ a, if decide (Task.id a = parentTaskId)
               then Task.withCompletion effectiveCompletionDate a
               else a) <$> Project.tasks p in
       match childTaskProject with
       | Some cp =>
           if decide (Project.id p = Project.id cp)
           then Project.withTasks (filter (λ a, Task.id a ≠ childTaskId) newTasks) p
           else Project.withTasks newTasks p
       | None => Project.withTasks newTasks p
       end) <$> Store.projects s in
  Store.mk projects' tasks' prioritized'.

(** [taskToUnlink] is assigned inside the [map] callback of the updater
    given to [setProjects], once for every project with that identifier:
    once the updater has run it is what the last of them gave. *)
Definition taskToUnlink (projectId taskId : string) (ps : list Project)
    : option Task :=
  last (filter (λ p, Project.id p = projectId) ps)
    ≫= λ p, findTask taskId (Project.tasks p).

(** The test [if (taskToUnlink)] comes right after the [setProjects] call: it
    sees the assignment when React ran the updater at once ([eager]), and
    [undefined] when the updater waits for the next render; the flat list is
    rewritten in the first case only, and then only if the cached list had
    the task. *)
Definition unlinkTask (eager : bool) (projectId taskId : string)
    (s : Store) : Store :=
  let projects' :=
    (λ p, if decide (Project.id p = projectId)
          then Project.withTasks
                 (filter (λ a, Task.id a ≠ taskId) (Project.tasks p)) p
          else p) <$> Store.projects s in
  let tasks' :=
    match (if eager then taskToUnlink projectId taskId (Store.projects s)
           else None) with
    | Some _ =>
        (λ a, if decide (Task.id a = taskId)
              then Task.withProjectId None a else a) <$> Store.tasks s
    | None => Store.tasks s
    end in
  Store.mk projects' tasks' (Store.prioritizedTaskIds s).

(** The [while (parentId)] loop of [unlinkTaskFromParent], one iteration per
    unit of fuel. [Some r] is the value of [ancestorProjectId] when the loop
    is left; [None] is a loop still running when the fuel is spent. The loop
    keeps no record of the tasks it has been through. *)
Fixpoint ancestorWalk (fuel : nat) (ts : list Task) (parentId : option string)
    : option (option string) :=
  match fuel with
  | O => None
  | S fuel' =>
      if truthy parentId then
        match parentId ≫= λ i, findTask i ts with
        | None => Some None
        | Some parentTask =>
            if truthy (Task.projectId parentTask)
            then Some (Task.projectId parentTask)
            else ancestorWalk fuel' ts (Task.parentTaskId parentTask)
        end
      else Some None
  end.

Definition unlinkTaskFromParent (fuel : nat) (childTaskId : string) (s : Store)
    : option Store :=
  match findTask childTaskId (Store.tasks s) with
  | None => Some s
  | Some childTask =>
      if truthy (Task.parentTaskId childTask) then
        ancestorProjectId ← ancestorWalk fuel (Store.tasks s) (Task.parentTaskId childTask);
        let updatedChild := Task.withLinks ancestorProjectId None childTask in
        Some (Store.mk
          ((λ p,
             let filtered := filter (λ a, Task.id a ≠ childTaskId) (Project.tasks p) in
             if truthy ancestorProjectId
                && bool_decide (Some (Project.id p) = ancestorProjectId)
             then Project.withTasks (filtered ++ [updatedChild]) p
             else Project.withTasks filtered p) <$> Store.projects s)
          ((λ a, if decide (Task.id a = childTaskId) then updatedChild else a)
             <$> Store.tasks s)
          (Store.prioritizedTaskIds s))
      else Some s
  end.

Definition updateLineStyle (taskId : string) (lineStyle : option LineStyle)
    (s : Store) : Store :=
  updateTask taskId
    (Task.mkPatch None None None None None None None None None None None None
       None (Some lineStyle)) s.

(** ** Priority list: the read-side filters

    [Dashboard], the project rows of [ProjectsView] and [TaskPriorityView]
    each build an index of the tasks and of the projects by identifier and
    declare the same root-resolution loop over it. The index is filled in
    list order, so a later entry with the same identifier overwrites. The
    project rows index in a [Map]; [Dashboard] and [TaskPriorityView] index
    in a plain object. *)

(** [new Map(store.tasks.map(t => [t.id, t]))] *)
Definition tasksById (ts : list Task) : gmap string Task :=
  foldl (λ acc a, <[Task.id a := a]> acc) ∅ ts.

Definition projectsById (ps : list Project) : gmap string Project :=
  foldl (λ acc p, <[Project.id p := p]> acc) ∅ ps.

(** A plain object used as an index: [{}] filled by [acc[v.id] = v].

    The assignment [acc[k] = v] stores an own property, except for the key
    ["__proto__"]: that one is an accessor of [Object.prototype], and
    assigning an object to it makes the object the prototype of [acc]. The
    lookup [acc[k]] gives the own property if there is one; else, for
    ["__proto__"], the prototype; else the property [k] of the value that
    was made the prototype, if it has one; else the property [k] of
    [Object.prototype]. *)
Module PlainObject.
Record t (V : Type) := mk { own : gmap string V; proto : option V }.

Arguments mk {V} _ _.
Arguments own {V} _.
Arguments proto {V} _.

Definition empty {V} : t V := mk ∅ None.

Definition set {V} (k : string) (v : V) (o : t V) : t V :=
  if decide (k = "__proto__") then mk (own o) (Some v)
  else mk (<[k := v]> (own o)) (proto o).

(** [acc[k]] when it is one of the values stored *)
Definition entry {V} (o : t V) (k : string) : option V :=
  if decide (k = "__proto__") then proto o else own o !! k.

(** The properties of [Object.prototype]: functions, and the accessor
    ["__proto__"]. *)
Definition prototypeKeys : list string :=
  [ "constructor"; "__defineGetter__"; "__defineSetter__"; "hasOwnProperty";
    "__lookupGetter__"; "__lookupSetter__"; "isPrototypeOf";
    "propertyIsEnumerable"; "toString"; "valueOf"; "__proto__";
    "toLocaleString" ].

(** Whether [acc[k]] is truthy when it is none of the values stored.
    [propertyOf v k] is the truthiness of the property [k] of a stored
    value, if stored values have such a property. For ["__proto__"] the
    lookup gives [Object.prototype] itself, an object. *)
Definition inheritsTruthy {V} (propertyOf : V → string → option bool)
    (o : t V) (k : string) : bool :=
  if decide (k = "__proto__") then true
  else match proto o ≫= λ v, propertyOf v k with
       | Some b => b
       | None => bool_decide (k ∈ prototypeKeys)
       end.
End PlainObject.

(** [tasks.reduce((acc, t) => { acc[t.id] = t; return acc; }, {})] *)
Definition plainTasksById (ts : list Task) : PlainObject.t Task :=
  foldl (λ acc a, PlainObject.set (Task.id a) a acc) PlainObject.empty ts.

Definition plainProjectsById (ps : list Project) : PlainObject.t Project :=
  foldl (λ acc p, PlainObject.set (Project.id p) p acc) PlainObject.empty ps.

(** The truthiness of the property [k] of a project object, for the
    properties of the record. The status is a non-empty string, the task
    list and the position are objects. *)
Definition projectProperty (p : Project) (k : string) : option bool :=
  if decide (k = "id") then Some (bool_decide (Project.id p ≠ ""))
  else if decide (k = "title") then Some (bool_decide (Project.title p ≠ ""))
  else if decide (k = "content") then Some (truthy (Project.content p))
  else if decide (k = "status") then Some true
  else if decide (k = "tasks") then Some true
  else if decide (k = "date") then Some (truthy (Project.date p))
  else if decide (k = "endDate") then Some (truthy (Project.endDate p))
  else if decide (k = "fileURL") then Some (truthy (Project.fileURL p))
  else if decide (k = "fileName") then Some (truthy (Project.fileName p))
  else if decide (k = "storagePath") then Some (truthy (Project.storagePath p))
  else if decide (k = "position") then Some true
  else if decide (k = "isCollapsed") then Some (truthyFlag (Project.isCollapsed p))
  else None.

(** What the root-resolution loop over plain objects returns as
    [Project | null]: a project of the index, or a truthy value that the
    index inherits and that is no project; such a value has no [status]. *)
Inductive RootValue :=
  | RootProject (p : Project)
  | RootOther.

(** [projectsById[k] || null] on the plain object *)
Definition projectOrNull (o : PlainObject.t Project) (k : string)
    : option RootValue :=
  match PlainObject.entry o k with
  | Some p => Some (RootProject p)
  | None =>
      if PlainObject.inheritsTruthy projectProperty o k
      then Some RootOther else None
  end.

(** The loop [while (currentId && !visited.has(currentId))], one iteration
    per unit of fuel; [Some r] is the value returned, [None] a loop still
    running when the fuel is spent. [taskAt] and [projectAt] are the two
    lookups, by [Map.get] or by property access.

    [taskAt cur] is the task the index has for [cur]. On a plain object
    [tasksById[cur]] can also be an inherited value that is no task: it has
    neither a [projectId] nor a [parentTaskId], so the loop returns [null]
    at once if the value is falsy and leaves with [currentId] undefined,
    then returns [null], if it is truthy: [null] as for a key without
    value. *)
Fixpoint findRoot_loop {R} (fuel : nat) (taskAt : string → option Task)
    (projectAt : string → option R) (visited : list string)
    (currentId : option string) : option (option R) :=
  match fuel with
  | O => None
  | S fuel' =>
      match currentId with
      | Some cur =>
          if truthy currentId && negb (JSSet.has cur visited) then
            let visited' := JSSet.add cur visited in
            match taskAt cur with
            | None => Some None
            | Some task =>
                if truthy (Task.projectId task)
                then Some (Task.projectId task ≫= projectAt)
                else
                  let next :=
                    if truthy (Task.parentTaskId task)
                    then Task.parentTaskId task else None in
                  findRoot_loop fuel' taskAt projectAt visited' next
            end
          else Some None
      | None => Some None
      end
  end.

(** The loop ends within one iteration per task, and one. [findRoot] is the
    loop over the two [Map]s of a project row. *)
Definition findRoot (s : Store) (taskId : string) : option Project :=
  default None
    (findRoot_loop (S (length (Store.tasks s)))
       (λ i, tasksById (Store.tasks s) !! i)
       (λ i, projectsById (Store.projects s) !! i) [] (Some taskId)).

(** The loop over the two plain objects of [Dashboard] and of
    [TaskPriorityView]. *)
Definition findRootPlain (s : Store) (taskId : string) : option RootValue :=
  default None
    (findRoot_loop (S (length (Store.tasks s)))
       (PlainObject.entry (plainTasksById (Store.tasks s)))
       (projectOrNull (plainProjectsById (Store.projects s))) [] (Some taskId)).

Definition isInProgress (p : Project) : bool :=
  bool_decide (Project.status p = InProgress).

Module Dashboard.
Definition findRootProject := findRootPlain.

(** [root?.status === ProjectStatus.InProgress] *)
Definition rootInProgress (root : option RootValue) : bool :=
  match root with
  | Some (RootProject p) => isInProgress p
  | _ => false
  end.

(** [tasksById[id]] that is an inherited value and no task is left out as
    well: if truthy it has no [completed], and the loop finds it no root. *)
Definition keep (s : Store) (i : string) : bool :=
  match PlainObject.entry (plainTasksById (Store.tasks s)) i with
  | None => false
  | Some a =>
      if truthyFlag (Task.completed a) then false
      else rootInProgress (findRootProject s i)
  end.

Definition filteredPrioritized (s : Store) : list string :=
  filter (λ i, keep s i = true) (Store.prioritizedTaskIds s).
End Dashboard.

Module ProjectsView.
(** [!root || root?.status === ProjectStatus.InProgress] *)
Definition rootAllows (root : option Project) : bool :=
  match root with
  | Some p => isInProgress p
  | None => true
  end.

Definition keep (s : Store) (i : string) : bool :=
  match tasksById (Store.tasks s) !! i with
  | None => false
  | Some a =>
      if truthyFlag (Task.completed a) then false
      else rootAllows (findRoot s i)
  end.

(** [prioritizedDisplayOrder] of a project row *)
Definition prioritizedDisplayOrder (s : Store) : list string :=
  filter (λ i, keep s i = true) (JSSet.from (Store.prioritizedTaskIds s)).

(** [TaskPriorityView] *)
Definition findRootProjectForTask := findRootPlain.

(** [!rootProject || rootProject?.status === ProjectStatus.InProgress] *)
Definition rootProjectAllows (rootProject : option RootValue) : bool :=
  match rootProject with
  | None => true
  | Some (RootProject p) => isInProgress p
  | Some RootOther => false
  end.

Definition tasksForPrioritization (s : Store) : list Task :=
  filter (λ a, (if truthyFlag (Task.completed a) then false
                else rootProjectAllows
                       (findRootProjectForTask s (Task.id a))) = true)
    (Store.tasks s).

Definition sortedTasks (s : Store) : list Task :=
  let uniqueIds := JSSet.from (Store.prioritizedTaskIds s) in
  let prioritized :=
    omap (λ i, findTask i (tasksForPrioritization s)) uniqueIds in
  let unprioritized :=
    filter (λ a, Task.id a ∉ uniqueIds) (tasksForPrioritization s) in
  prioritized ++ unprioritized.
End ProjectsView.

(** The resolved root in the words of the specification: walk up through
    [parentTaskId] to the nearest task carrying a [projectId], then that
    project. A link is carried when it is present and not empty. *)
Inductive NearestCarrier (tById : gmap string Task) : string → Task → Prop :=
  | NearestCarrier_here cur a :
      tById !! cur = Some a → truthy (Task.projectId a) = true →
      NearestCarrier tById cur a
  | NearestCarrier_up cur a parent b :
      tById !! cur = Some a → truthy (Task.projectId a) = false →
      Task.parentTaskId a = Some parent → parent ≠ "" →
      NearestCarrier tById parent b →
      NearestCarrier tById cur b.

Definition ResolvedRoot (s : Store) (taskId : string) (root : option Project) : Prop :=
  (∃ a i, NearestCarrier (tasksById (Store.tasks s)) taskId a
          ∧ Task.projectId a = Some i
          ∧ root = projectsById (Store.projects s) !! i)
  ∨ ((∀ a, ¬ NearestCarrier (tasksById (Store.tasks s)) taskId a) ∧ root = None).

(** Eligibility for display in the words of the specification. *)
Definition Eligible (s : Store) (taskId : string) : Prop :=
  ∃ a root,
    tasksById (Store.tasks s) !! taskId = Some a
    ∧ truthyFlag (Task.completed a) = false
    ∧ ResolvedRoot s taskId root
    ∧ (root = None ∨ ∃ p, root = Some p ∧ Project.status p = InProgress).

(** ** Subtree layout engine: [autoArrangeProjectTasks]

    [String.prototype.localeCompare] is a parameter: a negative, zero or
    positive number. [Array.prototype.sort] is stable; for a comparator that
    orders its arguments consistently it returns the stable sorted
    permutation, which is what [jsSort] computes by insertion. *)

Record RowDepth := { row : Z; depth : Z }.

Record LayoutState := {
  subtreeSizeCache : gmap string Z;
  rowDepthById : gmap string RowDepth
}.

Fixpoint insertBy {A} (cmp : A → A → Z) (x : A) (l : list A) : list A :=
  match l with
  | [] => [x]
  | y :: l' => if cmp x y <=? 0 then x :: l else y :: insertBy cmp x l'
  end.

Fixpoint jsSort {A} (cmp : A → A → Z) (l : list A) : list A :=
  match l with
  | [] => []
  | x :: l' => insertBy cmp x (jsSort cmp l')
  end.

(** [childrenByParent] as the [forEach] over the flat list fills it *)
Definition childrenByParent (ts : list Task) : gmap string (list Task) :=
  foldl (λ m a,
           match Task.parentTaskId a with
           | Some p =>
               if truthy (Some p) then <[p := default [] (m !! p) ++ [a]]> m else m
           | None => m
           end) ∅ ts.

(** [tasks.filter(t => t.projectId === projectId && !t.parentTaskId)] *)
Definition rootsOf (projectId : string) (ts : list Task) : list Task :=
  filter (λ a, Task.projectId a = Some projectId
               ∧ truthy (Task.parentTaskId a) = false) ts.

(** [collectDescendants]: a recursive function; the fuel bounds the depth of
    the recursion and [None] is a call chain deeper than the fuel. *)
Fixpoint collectDescendants (fuel : nat) (cbp : gmap string (list Task))
    (task : Task) (inProjectSet : list string) : option (list string) :=
  match fuel with
  | O => None
  | S fuel' =>
      if JSSet.has (Task.id task) inProjectSet then Some inProjectSet
      else
        foldl (λ acc k, acc ≫= collectDescendants fuel' cbp k)
          (Some (JSSet.add (Task.id task) inProjectSet))
          (default [] (cbp !! Task.id task))
  end.

Section layout.
Variable localeCompare : string → string → Z.

(** [(a.title || '').localeCompare(b.title || '') || a.id.localeCompare(b.id)] *)
Definition taskSorter (a b : Task) : Z :=
  let c := localeCompare (Task.title a) (Task.title b) in
  if c =? 0 then localeCompare (Task.id a) (Task.id b) else c.

(** The state the closures of one call share: the adjacency lists after
    they were sorted, and the set of the project's tasks. *)
Variable sortedChildren : gmap string (list Task).
Variable inProjectSet : list string.

(** [(childrenByParent.get(taskId) || []).filter(k => inProjectSet.has(k.id))] *)
Definition kidsOf (taskId : string) : list Task :=
  filter (λ k, JSSet.has (Task.id k) inProjectSet = true)
    (default [] (sortedChildren !! taskId)).

Fixpoint getSubtreeRows (fuel : nat) (taskId : string) (cache : gmap string Z)
    : option (Z * gmap string Z) :=
  match fuel with
  | O => None
  | S fuel' =>
      match cache !! taskId with
      | Some v => Some (v, cache)
      | None =>
          let kids := kidsOf taskId in
          if bool_decide (length kids = 0%nat)
          then Some (1, <[taskId := 1]> cache)
          else
            r ← foldl (λ acc k,
                         a ← acc;
                         v ← getSubtreeRows fuel' (Task.id k) (snd a);
                         Some (fst a + fst v, snd v))
                   (Some (0, cache)) kids;
            let sum := Z.max (fst r) 1 in
            Some (sum, <[taskId := sum]> (snd r))
      end
  end.

(** [assign]; [rowsFuel] is the recursion budget of the calls of
    [getSubtreeRows] it makes. *)
Fixpoint assign (fuel rowsFuel : nat) (a : Task) (depth startRow : Z)
    (st : LayoutState) : option LayoutState :=
  match fuel with
  | O => None
  | S fuel' =>
      r ← getSubtreeRows rowsFuel (Task.id a) (subtreeSizeCache st);
      let myRow := startRow + (fst r - 1) `div` 2 in
      let st1 :=
        Build_LayoutState (snd r)
          (<[Task.id a := Build_RowDepth myRow depth]> (rowDepthById st)) in
      fst <$>
        foldl (λ acc k,
                 c ← acc;
                 need ← getSubtreeRows rowsFuel (Task.id k) (subtreeSizeCache (fst c));
                 st' ← assign fuel' rowsFuel k (depth + 1) (snd c)
                         (Build_LayoutState (snd need) (rowDepthById (fst c)));
                 Some (st', snd c + fst need))
          (Some (st1, startRow)) (kidsOf (Task.id a))
  end.

(** [for (const r of roots) { ... currentRow += need + 1; }] *)
Definition assignRoots (fuel : nat) (roots : list Task)
    : option (LayoutState * Z) :=
  foldl (λ acc r,
           c ← acc;
           need ← getSubtreeRows fuel (Task.id r) (subtreeSizeCache (fst c));
           st' ← assign fuel fuel r 1 (snd c)
                   (Build_LayoutState (snd need) (rowDepthById (fst c)));
           Some (st', snd c + (fst need + 1)))
    (Some (Build_LayoutState ∅ ∅, 0)) roots.
End layout.

(** The depth of a call chain over a forest of [n] tasks is at most [n]. *)
Definition layoutFuel (ts : list Task) : nat := S (length ts).

Definition inProjectSetOf (projectId : string) (ts : list Task)
    : option (list string) :=
  foldl (λ acc r, acc ≫= collectDescendants (layoutFuel ts) (childrenByParent ts) r)
    (Some []) (rootsOf projectId ts).

Definition sortedChildrenOf (localeCompare : string → string → Z)
    (ts : list Task) : gmap string (list Task) :=
  jsSort (taskSorter localeCompare) <$> childrenByParent ts.

Definition sortedRootsOf (localeCompare : string → string → Z)
    (projectId : string) (ts : list Task) : list Task :=
  jsSort (taskSorter localeCompare) (rootsOf projectId ts).

(** The row and depth assignment of [autoArrangeProjectTasks] together with
    the final value of [currentRow]. *)
Definition autoArrangeRows (localeCompare : string → string → Z)
    (projectId : string) (ts : list Task) : option (LayoutState * Z) :=
  inProjectSet ← inProjectSetOf projectId ts;
  assignRoots (sortedChildrenOf localeCompare ts) inProjectSet (layoutFuel ts)
    (sortedRootsOf localeCompare projectId ts).

(** Rows and depths are counts, at most twice the number of tasks: such
    JavaScript numbers are integers that binary64 holds exactly. They are
    integers in the layout above; [floatOfZ] is the number a count is in the
    arithmetic on coordinates. *)
Fixpoint floatOfPositive (p : positive) : float :=
  match p with
  | xH => 1%float
  | xO q => (2 * floatOfPositive q)%float
  | xI q => (2 * floatOfPositive q + 1)%float
  end.

Definition floatOfZ (z : Z) : float :=
  match z with
  | Z0 => 0%float
  | Zpos p => floatOfPositive p
  | Zneg p => (- floatOfPositive p)%float
  end.

(** [x = project.position.x + rd.depth * colSpacing], [y = rowToY(rd.row)]
    with [rowToY(row) = centerY + (row - (totalRows - 1) / 2) * rowSpacing],
    [rowSpacing = 140], [colSpacing = 280] and [centerY] the [y] of the
    project. *)
Definition pixelOf (project : Project) (totalRows : Z) (rd : RowDepth)
    : Position.t :=
  Position.mk
    (Position.x (Project.position project) + floatOfZ (depth rd) * 280)%float
    (Position.y (Project.position project)
     + (floatOfZ (row rd) - (floatOfZ totalRows - 1) / 2) * 140)%float.

(** [currentRow > 0 ? currentRow - 1 : 0] *)
Definition totalRowsOf (currentRow : Z) : Z :=
  if 0 <? currentRow then currentRow - 1 else 0.

Definition autoArrangeProjectTasks (localeCompare : string → string → Z)
    (projectId : string) (s : Store) : option Store :=
  match findProject projectId (Store.projects s) with
  | None => Some s
  | Some project =>
      r ← autoArrangeRows localeCompare projectId (Store.tasks s);
      let rowDepth := rowDepthById (fst r) in
      let currentRow := snd r in
      if bool_decide (size rowDepth = 0%nat) then Some s else
      let totalRows := totalRowsOf currentRow in
      let newPositions := pixelOf project totalRows <$> rowDepth in
      let place a :=
        match newPositions !! Task.id a with
        | Some pos => Task.withPosition pos a
        | None => a
        end in
      Some (Store.mk
        ((λ p, if decide (Project.id p = projectId)
               then Project.withTasks (place <$> Project.tasks p) p
               else p) <$> Store.projects s)
        (place <$> Store.tasks s)
        (Store.prioritizedTaskIds s))
  end.

(** ** Sequences of operations

    One constructor per operation the store returns; the two operations that
    depend on when React runs an updater carry the flag. [run] needs the two
    things an operation can take from outside the state: the collation used
    by the layout, and a bound on the iterations of the one loop that has no
    bound of its own. *)

Inductive Op :=
  | OpAddProject (newId : string) (projectData : Project) (position : option Position.t)
  | OpUpdateProject (projectId : string) (projectData : Project.patch)
  | OpMoveProjectGroup (projectId : string) (delta : Delta)
  | OpMoveTaskSubtree (rootTaskId : string) (delta : Delta)
  | OpFinishProject (projectId : string)
  | OpReactivateProject (projectId : string)
  | OpToggleProjectCollapse (projectId : string)
  | OpDeleteProject (projectId : string)
  | OpAddTask (newId : string) (taskData : Task)
  | OpUpdateTask (taskId : string) (taskData : Task.patch)
  | OpUpdateTaskPosition (taskId : string) (position : Position.t)
  | OpDeleteTask (taskId : string)
  | OpLinkTaskToProject (eager : bool) (taskId projectId : string)
  | OpLinkTaskToTask (completionTimestamp childTaskId parentTaskId : string)
  | OpUnlinkTask (eager : bool) (projectId taskId : string)
  | OpUnlinkTaskFromParent (childTaskId : string)
  | OpUpdateLineStyle (taskId : string) (lineStyle : option LineStyle)
  | OpSetPrioritizedTasks (ids : list string)
  | OpAutoArrangeProjectTasks (projectId : string).

Definition run (localeCompare : string → string → Z) (fuel : nat)
    (o : Op) (s : Store) : option Store :=
  match o with
  | OpAddProject newId projectData position =>
      Some (addProject newId projectData position s)
  | OpUpdateProject projectId projectData =>
      Some (updateProject projectId projectData s)
  | OpMoveProjectGroup projectId delta => Some (moveProjectGroup projectId delta s)
  | OpMoveTaskSubtree rootTaskId delta => Some (moveTaskSubtree rootTaskId delta s)
  | OpFinishProject projectId => Some (finishProject projectId s)
  | OpReactivateProject projectId => Some (reactivateProject projectId s)
  | OpToggleProjectCollapse projectId => Some (toggleProjectCollapse projectId s)
  | OpDeleteProject projectId => Some (deleteProject projectId s)
  | OpAddTask newId taskData => Some (addTask newId taskData s)
  | OpUpdateTask taskId taskData => Some (updateTask taskId taskData s)
  | OpUpdateTaskPosition taskId position =>
      Some (updateTaskPosition taskId position s)
  | OpDeleteTask taskId => Some (deleteTask taskId s)
  | OpLinkTaskToProject eager taskId projectId =>
      Some (linkTaskToProject eager taskId projectId s)
  | OpLinkTaskToTask completionTimestamp childTaskId parentTaskId =>
      Some (linkTaskToTask completionTimestamp childTaskId parentTaskId s)
  | OpUnlinkTask eager projectId taskId =>
      Some (unlinkTask eager projectId taskId s)
  | OpUnlinkTaskFromParent childTaskId => unlinkTaskFromParent fuel childTaskId s
  | OpUpdateLineStyle taskId lineStyle => Some (updateLineStyle taskId lineStyle s)
  | OpSetPrioritizedTasks ids => Some (setPrioritizedTasks ids s)
  | OpAutoArrangeProjectTasks projectId =>
      autoArrangeProjectTasks localeCompare projectId s
  end.

(** [Steps os s s']: the operations [os], called one after the other, each on
    the state the one before it left, take [s] to [s']. *)
Inductive Steps (localeCompare : string → string → Z)
    : list Op → Store → Store → Prop :=
  | Steps_nil s : Steps localeCompare [] s s
  | Steps_cons o os s s1 s2 fuel :
      run localeCompare fuel o s = Some s1 →
      Steps localeCompare os s1 s2 →
      Steps localeCompare (o :: os) s s2.

(** An update of a task that leaves its two links alone. *)
Definition keepsLinks (o : Op) : Prop :=
  match o with
  | OpUpdateTask _ taskData =>
      Task.p_projectId taskData = None ∧ Task.p_parentTaskId taskData = None
  | _ => True
  end.

(** Invariant 1: at most one of the two links is set. *)
Definition exclusive (a : Task) : Prop :=
  Task.projectId a = None ∨ Task.parentTaskId a = None.

(** ** Statements about the operations, and the states of the examples *)

(** Plain code-unit order stands for [localeCompare] in the examples: the
    two agree on the titles and identifiers used here. *)
Definition codeUnitCompare (a b : string) : Z :=
  match String.compare a b with
  | Lt => -1
  | Eq => 0
  | Gt => 1
  end.

Definition origin : Position.t := (Position.mk 0 0)%float.

Definition mkTask (i ttl : string) (done : bool) (proj parent : option string) : Task :=
  Task.mk i ttl "" None None None None None (Some done) None origin proj parent None.

Definition mkProject (i : string) (st : ProjectStatus) (cached : list Task) : Project :=
  Project.mk i i None st cached None None None None None origin (Some false).

(** What [unlinkTask] is to establish: the task has no project in the flat
    list, and is in the cached list of no project with that identifier. *)
Definition UnlinkTaskPost (projectId taskId : string) (s' : Store) : Prop :=
  (∀ a, a ∈ Store.tasks s' → Task.id a = taskId → Task.projectId a = None)
  ∧ (∀ p a, p ∈ Store.projects s' → Project.id p = projectId →
            a ∈ Project.tasks p → Task.id a ≠ taskId).

(** The task is in the cached list of the project. *)
Definition cachedIn (s : Store) (projectId taskId : string) : Prop :=
  (∃ p, p ∈ Store.projects s ∧ Project.id p = projectId)
  ∧ ∀ p, p ∈ Store.projects s → Project.id p = projectId →
         ∃ a, a ∈ Project.tasks p ∧ Task.id a = taskId.

Definition notCachedIn (s : Store) (projectId taskId : string) : Prop :=
  ∀ p a, p ∈ Store.projects s → Project.id p = projectId →
         a ∈ Project.tasks p → Task.id a ≠ taskId.

(** A project whose cached list is stale: the flat list has a task of the
    project that the cache does not. *)
Definition staleCacheStore : Store :=
  Store.mk [mkProject "p" InProgress []]
    [mkTask "t" "T" false (Some "p") None] [].

(** A project and a task of it: the task is in the flat list and in the
    cached list of the project. *)
Definition linkedStore : Store :=
  Store.mk [mkProject "p" InProgress [mkTask "t" "T" false (Some "p") None]]
    [mkTask "t" "T" false (Some "p") None] ["t"].

(** What [linkTaskToTask] is to establish, from the state [s] before. *)
Definition LinkTaskToTaskPost (s : Store) (childTaskId parentTaskId : string)
    (s' : Store) : Prop :=
  (∃ b, findTask parentTaskId (Store.tasks s') = Some b
        ∧ Task.completed b = Some true
        ∧ is_Some (Task.completionDate b)
        ∧ ∀ a d, findTask parentTaskId (Store.tasks s) = Some a →
                 Task.completionDate a = Some d → Task.completionDate b = Some d)
  ∧ (∃ c, findTask childTaskId (Store.tasks s') = Some c
          ∧ Task.projectId c = None
          ∧ Task.parentTaskId c = Some parentTaskId)
  ∧ (parentTaskId ∉ Store.prioritizedTaskIds s')
  ∧ last (Store.prioritizedTaskIds s') = Some childTaskId.

Definition emptyStore : Store := Store.mk [] [] [].

(** Two unlinked tasks, both in the priority list, as [addTask] leaves them. *)
Definition twoTaskStore : Store :=
  Store.mk [] [mkTask "c" "C" false None None; mkTask "p" "P" false None None]
    ["c"; "p"].

(** A run through the operations, from [twoTaskStore]. *)
Definition sampleOps : list Op :=
  [ OpAddProject "proj-1" (mkProject "" InProgress []) None;
    OpAddTask "task-1" (mkTask "" "T1" false (Some "proj-1") None);
    OpLinkTaskToTask "now" "c" "task-1";
    OpUnlinkTaskFromParent "c";
    OpLinkTaskToTask "now" "p" "c";
    OpUpdateTask "p"
      (Task.mkPatch None (Some "P2") None None None None None None
         (Some (Some true)) None None None None None);
    OpMoveProjectGroup "proj-1" (Build_Delta 10 5)%float;
    OpAutoArrangeProjectTasks "proj-1";
    OpFinishProject "proj-1";
    OpReactivateProject "proj-1";
    OpUnlinkTask false "proj-1" "c";
    OpLinkTaskToProject false "p" "proj-1";
    OpDeleteTask "task-1";
    OpDeleteProject "proj-1" ].

(** Two tasks that are each other's parent, in no project: the state after
    the first was linked under the second and the second under the first. *)
Definition cycleStore : Store :=
  linkTaskToTask "now" "p" "c" (linkTaskToTask "now" "c" "p" twoTaskStore).

Definition cycleTasks : list Task := Store.tasks cycleStore.

(** The seeds of [moveProjectGroup] in the words of the specification: the
    direct child tasks of the project, from its cached list and from the flat
    list. *)
Definition groupSeeds (project : Project) (ts : list Task) : list string :=
  (Task.id <$> Project.tasks project)
  ++ (Task.id <$> tasksOfProject (Project.id project) ts).

(** The project of the layout example: roots R1 (two leaf children) and R2
    (one leaf child), given here out of order, and a task outside it. *)
Definition layoutTasks : list Task :=
  [ mkTask "r2" "R2" false (Some "p") None;
    mkTask "c3" "C" false None (Some "r2");
    mkTask "r1" "R1" false (Some "p") None;
    mkTask "c2" "B" false None (Some "r1");
    mkTask "c1" "A" false None (Some "r1");
    mkTask "u" "U" false None None ].

Definition layoutStore : Store :=
  Store.mk [mkProject "p" InProgress []; mkProject "q" InProgress []]
    layoutTasks ["c1"; "u"].

(** The layout example with one task away from the origin. *)
Definition shiftedLayoutStore : Store :=
  updateTaskPosition "c1" (Position.mk 1.5 2)%float layoutStore.

(** The task [a'] is the task [a] but for its position. *)
Definition sameButPosition (a a' : Task) : Prop :=
  Task.id a' = Task.id a ∧ Task.title a' = Task.title a
  ∧ Task.content a' = Task.content a ∧ Task.date a' = Task.date a
  ∧ Task.endDate a' = Task.endDate a ∧ Task.fileURL a' = Task.fileURL a
  ∧ Task.fileName a' = Task.fileName a
  ∧ Task.storagePath a' = Task.storagePath a
  ∧ Task.completed a' = Task.completed a
  ∧ Task.completionDate a' = Task.completionDate a
  ∧ Task.projectId a' = Task.projectId a
  ∧ Task.parentTaskId a' = Task.parentTaskId a
  ∧ Task.lineStyle a' = Task.lineStyle a.

(** The project [p'] is the project [p] but for its cached task list. *)
Definition sameButTasks (p p' : Project) : Prop :=
  Project.id p' = Project.id p ∧ Project.title p' = Project.title p
  ∧ Project.content p' = Project.content p
  ∧ Project.status p' = Project.status p ∧ Project.date p' = Project.date p
  ∧ Project.endDate p' = Project.endDate p
  ∧ Project.fileURL p' = Project.fileURL p
  ∧ Project.fileName p' = Project.fileName p
  ∧ Project.storagePath p' = Project.storagePath p
  ∧ Project.position p' = Project.position p
  ∧ Project.isCollapsed p' = Project.isCollapsed p.

(** The direct child tasks of a project in the flat list. *)
Definition projectSeeds (projectId : string) (ts : list Task) : list string :=
  Task.id <$> tasksOfProject projectId ts.

(** The prioritized identifiers that are to come back after
    [finishProject] then [reactivateProject]: the descendants of the project
    that are not completed, in the order the priority list had them. *)
Definition reappearing (projectId : string) (s : Store) : list string :=
  filter (λ i, i ∈ getAllDescendantTaskIds
                     (projectSeeds projectId (Store.tasks s)) (Store.tasks s)
               ∧ isActiveId (Store.tasks s) i = true)
    (Store.prioritizedTaskIds s).

(** The round trip keeps them in the order they had among each other. *)
Definition RoundTripKeepsOrder (projectId : string) (s : Store) : Prop :=
  filter (λ i, i ∈ reappearing projectId s)
    (Store.prioritizedTaskIds
       (reactivateProject projectId (finishProject projectId s)))
  = reappearing projectId s.

(** Two tasks of a project, prioritized in the order opposite to that of the
    flat list. *)
Definition reorderStore : Store :=
  let t1 := mkTask "t1" "T1" false (Some "p") None in
  let t2 := mkTask "t2" "T2" false (Some "p") None in
  Store.mk [mkProject "p" InProgress [t1; t2]] [t1; t2] ["t2"; "t1"].

(** Eligibility on the dashboard: the resolved root is a project in
    progress. *)
Definition EligibleLinked (s : Store) (taskId : string) : Prop :=
  ∃ a p,
    tasksById (Store.tasks s) !! taskId = Some a
    ∧ truthyFlag (Task.completed a) = false
    ∧ ResolvedRoot s taskId (Some p)
    ∧ Project.status p = InProgress.

(** The project a root value is, if it is one. *)
Definition asProject (r : RootValue) : option Project :=
  match r with
  | RootProject p => Some p
  | RootOther => None
  end.

(** The nearest task carrying a [projectId] names, as its project, a key
    for which the plain object of the projects has no project but a truthy
    value it inherits. *)
Definition NamesInherited (s : Store) (taskId : string) : Prop :=
  ∃ a k, NearestCarrier (tasksById (Store.tasks s)) taskId a
         ∧ Task.projectId a = Some k
         ∧ projectOrNull (plainProjectsById (Store.projects s)) k
           = Some RootOther.

(** A task that names, as its project, a property of [Object.prototype];
    there is no project. *)
Definition inheritedKeyStore : Store :=
  Store.mk [] [mkTask "k" "K" false (Some "constructor") None] ["k"].

(** A project with the identifier ["__proto__"]: the plain object of the
    projects has it as prototype. The tasks name, as their project, that
    identifier, two properties of the project (its task list, and its
    content, which it has not), a property of [Object.prototype], and a
    name without value. *)
Definition protoStore : Store :=
  Store.mk [mkProject "__proto__" InProgress []]
    [ mkTask "a" "A" false (Some "__proto__") None;
      mkTask "b" "B" false (Some "tasks") None;
      mkTask "c" "C" false (Some "content") None;
      mkTask "d" "D" false (Some "toString") None;
      mkTask "e" "E" false (Some "nothing") None ]
    ["a"; "b"; "c"; "d"; "e"].

(** A task with the empty identifier, in a completed project. *)
Definition emptyIdStore : Store :=
  Store.mk [mkProject "p" Completed [mkTask "" "E" false (Some "p") None]]
    [mkTask "" "E" false (Some "p") None] [""].

(** The walk of [NearestCarrier], with the number of links it follows. *)
Inductive WalkUp (tById : gmap string Task) : nat → string → Task → Prop :=
  | WalkUp_here cur a :
      tById !! cur = Some a → truthy (Task.projectId a) = true →
      WalkUp tById 0 cur a
  | WalkUp_up n cur a parent b :
      tById !! cur = Some a → truthy (Task.projectId a) = false →
      Task.parentTaskId a = Some parent → parent ≠ "" →
      WalkUp tById n parent b →
      WalkUp tById (S n) cur b.

(** ** The layout in the words of the specification *)

Section placement.
Variable localeCompare : string → string → Z.
Variable projectId : string.
Variable ts : list Task.

(** The children of a task within the subtree of the project, in title
    then identifier order. *)
Definition projectKids (taskId : string) : list Task :=
  kidsOf (sortedChildrenOf localeCompare ts)
    (default [] (inProjectSetOf projectId ts)) taskId.

(** [rows(task)] is 1 for a leaf, else the sum of [rows(child)] over the
    children within the subtree. The fuel bounds the height of the
    subtree. *)
Fixpoint subtreeRows (fuel : nat) (taskId : string) : option Z :=
  match fuel with
  | O => None
  | S fuel' =>
      match projectKids taskId with
      | [] => Some 1
      | kids =>
          foldl (λ acc k, s ← acc; v ← subtreeRows fuel' (Task.id k); Some (s + v))
            (Some 0) kids
      end
  end.

Definition rows (taskId : string) : Z :=
  default 1 (subtreeRows (layoutFuel ts) taskId).

(** Rows taken by the bands stacked before a task, with [gap] empty rows
    after each of them. *)
Definition bandAfter (gap : Z) (before : list Task) : Z :=
  foldr (λ k acc, rows (Task.id k) + gap + acc) 0 before.

(** The bands of the children of a task follow each other. *)
Definition sumRows : list Task → Z := bandAfter 0.

(** The bands of the roots are one row apart. *)
Definition rootBand : list Task → Z := bandAfter 1.

(** A task with its band starting at row [b] is put in the middle of the
    band, rounded down. *)
Definition entryOf (a : Task) (d b : Z) : RowDepth :=
  Build_RowDepth (b + (rows (Task.id a) - 1) `div` 2) d.

(** Every value in the cache of [getSubtreeRows] is [rows] of its key. *)
Definition CacheOK (cache : gmap string Z) : Prop :=
  ∀ i v, cache !! i = Some v → v = rows i.

(** [Placed a d b]: the task [a] is laid out at depth [d] with its band
    starting at row [b]. Roots are at depth 1, their bands one after the
    other; a child is one deeper than its parent, its band inside the
    parent's, after those of the children before it. *)
Inductive Placed : Task → Z → Z → Prop :=
  | Placed_root before r after :
      sortedRootsOf localeCompare projectId ts = before ++ r :: after →
      Placed r 1 (rootBand before)
  | Placed_child a d b before k after :
      Placed a d b →
      projectKids (Task.id a) = before ++ k :: after →
      Placed k (d + 1) (b + sumRows before).

(** The tasks laid out by one call [assign(a, d, b)]. *)
Inductive PlacedFrom : Task → Z → Z → Task → Z → Z → Prop :=
  | PlacedFrom_self a d b : PlacedFrom a d b a d b
  | PlacedFrom_down a d b before k after a' d' b' :
      projectKids (Task.id a) = before ++ k :: after →
      PlacedFrom k (d + 1) (b + sumRows before) a' d' b' →
      PlacedFrom a d b a' d' b'.

(** The chain of identifiers from a task up to a task without parent. *)
Inductive UpPath : string → list string → Prop :=
  | UpPath_root r :
      r ∈ ts → truthy (Task.parentTaskId r) = false →
      UpPath (Task.id r) [Task.id r]
  | UpPath_child k p l :
      k ∈ ts → Task.parentTaskId k = Some p → p ≠ "" →
      UpPath p l →
      UpPath (Task.id k) (Task.id k :: l).
End placement.

(** Every task the root-resolution loop has been through leads, in fewer
    links, where the current one leads. *)
Definition seen_behind (tById : gmap string Task) (visited : list string)
    (currentId : option string) : Prop :=
  ∀ x n a, x ∈ visited → WalkUp tById n x a →
    ∃ m c, (m < n)%nat ∧ currentId = Some c ∧ c ≠ "" ∧ WalkUp tById m c a.

(** ** The ancestor search of [unlinkTaskFromParent], step by step *)

(** [WalkEnds ts n parentId r]: the [while (parentId)] loop, entered with
    [parentId], is left at its [n]-th test with [ancestorProjectId = r]. *)
Inductive WalkEnds (ts : list Task) : nat → option string → option string → Prop :=
  | WalkEnds_falsy parentId :
      truthy parentId = false → WalkEnds ts 1 parentId None
  | WalkEnds_missing i :
      i ≠ "" → findTask i ts = None → WalkEnds ts 1 (Some i) None
  | WalkEnds_found i parentTask :
      i ≠ "" → findTask i ts = Some parentTask →
      truthy (Task.projectId parentTask) = true →
      WalkEnds ts 1 (Some i) (Task.projectId parentTask)
  | WalkEnds_up n i parentTask r :
      i ≠ "" → findTask i ts = Some parentTask →
      truthy (Task.projectId parentTask) = false →
      WalkEnds ts n (Task.parentTaskId parentTask) r →
      WalkEnds ts (S n) (Some i) r.

(** ** The drag of the priority view ([TaskPriorityView], [ProjectsView.tsx]) *)

(** [l.splice(i, 0, x)] for [0 <= i <= l.length] *)
Definition spliceInsert {A} (i : nat) (x : A) (l : list A) : list A :=
  take i l ++ x :: drop i l.

(** [reorderWithInsert]; [insertIndex] is a JavaScript number, an integer
    here. *)
Definition reorderWithInsert (order : list string) (dragId : string)
    (insertIndex : Z) : list string :=
  let filtered := filter (λ i, i ≠ dragId) order in
  let clamped := Z.max 0 (Z.min insertIndex (Z.of_nat (length filtered))) in
  spliceInsert (Z.to_nat clamped) dragId filtered.

(** The [for] loop of [handlePointerMove] from index [i] on: the index of
    the first sibling that has an element on screen with its middle below
    the pointer, [None] when the loop ends without [break].
    [midpointOf id] is [rect.top + rect.height / 2] of the element of the
    item, if it has one; only its comparison with [pointerY] is used. *)
Fixpoint insertIndexFrom (pointerY : Z) (midpointOf : string → option Z)
    (i : nat) (siblings : list string) : option nat :=
  match siblings with
  | [] => None
  | id :: rest =>
      match midpointOf id with
      | None => insertIndexFrom pointerY midpointOf (S i) rest
      | Some threshold =>
          if bool_decide (pointerY < threshold) then Some i
          else insertIndexFrom pointerY midpointOf (S i) rest
      end
  end.

(** [insertIndex] after the loop; it starts as [siblings.length]. *)
Definition insertIndexAt (pointerY : Z) (midpointOf : string → option Z)
    (siblings : list string) : nat :=
  default (length siblings) (insertIndexFrom pointerY midpointOf 0 siblings).

(** The [order] that [handlePointerMove] leaves in the drag state. *)
Definition handlePointerMove (dragId : string) (pointerY : Z)
    (midpointOf : string → option Z) (order : list string) : list string :=
  let siblings := filter (λ i, i ≠ dragId) order in
  reorderWithInsert order dragId
    (Z.of_nat (insertIndexAt pointerY midpointOf siblings)).

(** One drag, from [startDrag] to [finishDrag(true)]: the order starts as
    the identifiers of [sortedTasks], every pointer move reorders it, and the
    drop stores it. Nothing happens for an empty [dragState.id]. *)
Definition dragAndDrop (dragId : string)
    (moves : list (Z * (string → option Z))) (s : Store) : Store :=
  if truthy (Some dragId) then
    let order0 := Task.id <$> ProjectsView.sortedTasks s in
    let order :=
      foldl (λ o m, handlePointerMove dragId (fst m) (snd m) o) order0 moves in
    setPrioritizedTasks order s
  else s.

(** ** Payloads of the remote writes: [sanitizeForFirestore]

    The values the operations hand to Firestore: primitives, arrays and plain
    objects. An object is the list of its own enumerable entries, in the
    order [Object.entries] gives them. A number is not looked into; it is an
    integer here. *)

#[warnings="-register-all"] Inductive JSValue :=
  | JSUndefined
  | JSNull
  | JSBool (b : bool)
  | JSNumber (n : Z)
  | JSString (s : string)
  | JSArray (items : list JSValue)
  | JSObject (entries : list (string * JSValue)).

(** [v === undefined] *)
Definition isUndefined (v : JSValue) : bool :=
  match v with
  | JSUndefined => true
  | _ => false
  end.

(** The [for (const [k, v] of Object.entries(input))] loop, with the
    recursive call as a parameter. *)
Definition sanitizeEntries (recur : JSValue → JSValue)
    : list (string * JSValue) → list (string * JSValue) :=
  fix go es :=
    match es with
    | [] => []
    | (k, v) :: rest =>
        if isUndefined v then go rest else (k, recur v) :: go rest
    end.

Fixpoint sanitizeForFirestore (input : JSValue) : JSValue :=
  match input with
  | JSArray items => JSArray (map sanitizeForFirestore items)
  | JSObject entries => JSObject (sanitizeEntries sanitizeForFirestore entries)
  | _ => input
  end.

(** No entry of an object, at any depth, has the value [undefined]. *)
Fixpoint noUndefinedField (v : JSValue) : bool :=
  match v with
  | JSArray items => forallb noUndefinedField items
  | JSObject entries =>
      forallb (λ e, negb (isUndefined (snd e)) && noUndefinedField (snd e)) entries
  | _ => true
  end.

(** ** The task tree of a project in the weekly report
       ([buildTaskTreeForProject], the report view)

    The [while] loop is [buildTree_loop], one iteration per unit of fuel;
    [None] is a loop still running when the fuel is spent. [childrenMap] is
    filled as [childrenByParent] is. Unlike the traversal of the store, the
    loop queues every child and tells the visited ones apart when it takes
    them from the queue. *)

Fixpoint buildTree_loop (fuel : nat) (childrenMap : gmap string (list Task))
    (queue : list Task) (visited : list string) (collected : list Task)
    : option (list Task) :=
  match fuel with
  | O => None
  | S fuel' =>
      match queue with
      | [] => Some collected
      | current :: rest =>
          if JSSet.has (Task.id current) visited
          then buildTree_loop fuel' childrenMap rest visited collected
          else
            let children := default [] (childrenMap !! Task.id current) in
            buildTree_loop fuel' childrenMap (rest ++ children)
              (JSSet.add (Task.id current) visited) (collected ++ [current])
      end
  end.

(** Every iteration either drops a visited task from the queue or visits a
    new identifier and queues at most all the tasks. *)
Definition buildTree_fuel (allTasks : list Task) : nat :=
  S (length allTasks + S (length allTasks) * length allTasks).

Definition buildTaskTreeForProject (projectId : string) (allTasks : list Task)
    : list Task :=
  default []
    (buildTree_loop (buildTree_fuel allTasks) (childrenByParent allTasks)
       (tasksOfProject projectId allTasks) [] []).

(** ** Statements of the further properties, and the states of their examples *)

(** An operation other than [linkTaskToTask]. *)
Definition notLinkTaskToTask (o : Op) : Prop :=
  match o with
  | OpLinkTaskToTask _ _ _ => False
  | _ => True
  end.

(** A run through the operations that write the priority list, from
    [layoutStore]. *)
Definition priorityOps : list Op :=
  [ OpAddTask "n" (mkTask "" "N" false (Some "p") None);
    OpSetPrioritizedTasks ["n"; "c1"; "n"; "u"];
    OpFinishProject "p";
    OpReactivateProject "p";
    OpUpdateTask "u"
      (Task.mkPatch None None None None None None None None
         (Some (Some true)) None None None None None);
    OpDeleteTask "c1";
    OpDeleteProject "p" ].

(** The root value is a value the plain object inherits and no project. *)
Definition isOther (r : option RootValue) : bool :=
  match r with
  | Some RootOther => true
  | _ => false
  end.

(** The test of [tasksForPrioritization] on the task an identifier has. *)
Definition listsId (s : Store) (i : string) : bool :=
  match tasksById (Store.tasks s) !! i with
  | None => false
  | Some a =>
      if truthyFlag (Task.completed a) then false
      else ProjectsView.rootProjectAllows
             (ProjectsView.findRootProjectForTask s i)
  end.

(** No task names, as its project, a key that the plain object of the
    projects inherits. *)
Definition noInheritedProject (s : Store) : Prop :=
  ∀ a k, a ∈ Store.tasks s → Task.projectId a = Some k →
         projectOrNull (plainProjectsById (Store.projects s)) k ≠ Some RootOther.

(** The delta that takes back a move. *)
Definition opposite (d : Delta) : Delta :=
  Build_Delta (- dx d)%float (- dy d)%float.

(** Adding the delta and then its opposite gives back the two
    coordinates. *)
Definition comesBack (delta : Delta) (pos : Position.t) : Prop :=
  (Position.x pos + dx delta + - dx delta)%float = Position.x pos
  ∧ (Position.y pos + dy delta + - dy delta)%float = Position.y pos.

(** The layout example as the listener of the tasks leaves it, and the same
    with the project and its tasks far to the right, where the numbers are
    two apart. *)
Definition syncedLayoutStore : Store :=
  Store.mk
    [mkProject "p" InProgress (tasksOfProject "p" layoutTasks);
     mkProject "q" InProgress []]
    layoutTasks ["c1"; "u"].

Definition farLayoutStore : Store :=
  moveProjectGroup "p" (Build_Delta 9007199254740992 0)%float syncedLayoutStore.

(** The cached list of every project is the tasks of the flat list that name
    the project, as the listeners of the store fill it. *)
Definition CacheSynced (s : Store) : Prop :=
  ∀ p, p ∈ Store.projects s →
       Project.tasks p = tasksOfProject (Project.id p) (Store.tasks s).

(** The listener of the tasks collection, from the tasks it has decoded:
    [setTasks(loaded)] and
    [setProjects(prev => prev.map(p => ({ ...p, tasks: loaded.filter(t => t.projectId === p.id) })))]. *)
Definition onTasksSnapshot (loaded : list Task) (s : Store) : Store :=
  Store.mk
    ((λ p, Project.withTasks (tasksOfProject (Project.id p) loaded) p)
       <$> Store.projects s)
    loaded (Store.prioritizedTaskIds s).

(** The operations that edit the tasks and the projects where they are:
    they add, remove and relink nothing. *)
Definition editsInPlace (o : Op) : Prop :=
  match o with
  | OpUpdateTask _ taskData => Task.p_projectId taskData = None
  | OpUpdateProject _ projectData =>
      Project.p_id projectData = None ∧ Project.p_tasks projectData = None
  | OpUpdateTaskPosition _ _ | OpUpdateLineStyle _ _ | OpSetPrioritizedTasks _
  | OpFinishProject _ | OpReactivateProject _ | OpToggleProjectCollapse _
  | OpMoveTaskSubtree _ _ => True
  | _ => False
  end.
(** * Properties *)

(** ** JavaScript values and sets *)

Lemma truthy_Some s : truthy s = true → ∃ v, s = Some v ∧ v ≠ "".
Proof.
  destruct s as [v|]; simpl; [|done].
  intros H%bool_decide_eq_true. eauto.
Qed.

Lemma truthy_true v : v ≠ "" → truthy (Some v) = true.
Proof. intros H. simpl. by apply bool_decide_eq_true. Qed.

Lemma JSSet_has_true x s : JSSet.has x s = true ↔ x ∈ s.
Proof. unfold JSSet.has. by rewrite bool_decide_eq_true. Qed.

Lemma JSSet_has_false x s : JSSet.has x s = false ↔ x ∉ s.
Proof. unfold JSSet.has. by rewrite bool_decide_eq_false. Qed.

Lemma JSSet_elem_of_add x y s : x ∈ JSSet.add y s ↔ x = y ∨ x ∈ s.
Proof.
  unfold JSSet.add. destruct (JSSet.has y s) eqn:E.
  - apply JSSet_has_true in E. split; [auto|]. intros [->|]; done.
  - rewrite elem_of_app, list_elem_of_singleton. tauto.
Qed.

Lemma JSSet_NoDup_add y s : NoDup s → NoDup (JSSet.add y s).
Proof.
  intros Hs. unfold JSSet.add. destruct (JSSet.has y s) eqn:E; [done|].
  apply JSSet_has_false in E.
  apply NoDup_app. split_and!; [done| |apply NoDup_singleton].
  intros x Hx ->%list_elem_of_singleton. done.
Qed.

Lemma JSSet_fold_spec l : ∀ s,
  NoDup s →
  NoDup (foldl (λ s x, JSSet.add x s) s l)
  ∧ ∀ x, x ∈ foldl (λ s x, JSSet.add x s) s l ↔ x ∈ s ∨ x ∈ l.
Proof.
  induction l as [|a l IH]; intros s Hs; simpl.
  - split; [done|]. intros x. rewrite elem_of_nil. tauto.
  - destruct (IH (JSSet.add a s) (JSSet_NoDup_add a s Hs)) as [Hn He].
    split; [done|]. intros x. rewrite He, JSSet_elem_of_add, elem_of_cons. tauto.
Qed.

Lemma JSSet_NoDup_from l : NoDup (JSSet.from l).
Proof. apply (JSSet_fold_spec l []), NoDup_nil_2. Qed.

Lemma JSSet_elem_of_from x l : x ∈ JSSet.from l ↔ x ∈ l.
Proof.
  unfold JSSet.from.
  destruct (JSSet_fold_spec l [] (NoDup_nil_2)) as [_ He].
  rewrite He, elem_of_nil. tauto.
Qed.

(** A list without duplicates is its own set. *)
Lemma JSSet_fold_NoDup l : ∀ s,
  NoDup (s ++ l) → foldl (λ s x, JSSet.add x s) s l = s ++ l.
Proof.
  induction l as [|a l IH]; intros s Hn; simpl.
  - by rewrite app_nil_r.
  - assert (a ∉ s) as Ha.
    { apply NoDup_app in Hn as (_ & Hd & _). intros Hin.
      apply (Hd a Hin). left. }
    unfold JSSet.add at 2. apply JSSet_has_false in Ha. rewrite Ha.
    rewrite IH; rewrite <- app_assoc; done.
Qed.

Lemma JSSet_from_NoDup l : NoDup l → JSSet.from l = l.
Proof. intros H. unfold JSSet.from. by rewrite JSSet_fold_NoDup. Qed.


(** ** Lookup by identifier *)

Lemma findTask_Some i ts a :
  findTask i ts = Some a → a ∈ ts ∧ Task.id a = i.
Proof.
  unfold findTask. destruct (list_find _ ts) as [[k b]|] eqn:E; simpl; [|done].
  intros [= <-]. apply list_find_Some in E as (Hk & Hid & _).
  split; [by eapply list_elem_of_lookup_2|done].
Qed.

Lemma findTask_None i ts :
  findTask i ts = None ↔ ∀ a, a ∈ ts → Task.id a ≠ i.
Proof.
  unfold findTask. destruct (list_find _ ts) as [[k b]|] eqn:E; simpl.
  - apply list_find_Some in E as (Hk & Hid & _). split; [done|].
    intros H. destruct (H b); [by eapply list_elem_of_lookup_2|done].
  - split; [|done]. intros _ a Ha.
    apply list_find_None in E. by eapply Forall_forall in E.
Qed.

Lemma findTask_is_Some i ts a :
  a ∈ ts → Task.id a = i → is_Some (findTask i ts).
Proof.
  intros Ha Hi. destruct (findTask i ts) eqn:E; [eauto|].
  exfalso. by eapply findTask_None.
Qed.

Lemma findTask_cons i a ts :
  findTask i (a :: ts) = if decide (Task.id a = i) then Some a else findTask i ts.
Proof.
  unfold findTask. simpl. case_decide; [done|].
  destruct (list_find _ ts) as [[k b]|]; done.
Qed.

Lemma findProject_Some i ps p :
  findProject i ps = Some p → p ∈ ps ∧ Project.id p = i.
Proof.
  unfold findProject. destruct (list_find _ ps) as [[k b]|] eqn:E; simpl; [|done].
  intros [= <-]. apply list_find_Some in E as (Hk & Hid & _).
  split; [by eapply list_elem_of_lookup_2|done].
Qed.

(** ** The traversal engine terminates and computes the closure *)

Section bfs.
Variable allTasks : list Task.

Lemma pending_le (l v : list string) x :
  (length (filter (λ i, i ∉ v ++ [x]) l) ≤ length (filter (λ i, i ∉ v) l))%nat.
Proof.
  induction l as [|a l IH]; simpl; [done|].
  rewrite !filter_cons.
  destruct (decide (a ∉ v ++ [x])) as [H1|H1], (decide (a ∉ v)) as [H2|H2];
    simpl; try lia.
  exfalso. apply H2. intros Hin. apply H1. apply elem_of_app. by left.
Qed.

Lemma pending_lt (l v : list string) x :
  x ∈ l → x ∉ v →
  (length (filter (λ i, i ∉ v ++ [x]) l) < length (filter (λ i, i ∉ v) l))%nat.
Proof.
  induction l as [|a l IH]; intros Hx Hv; [by apply elem_of_nil in Hx|].
  rewrite !filter_cons.
  pose proof (pending_le l v x) as Hle.
  destruct (decide (a = x)) as [->|Hne].
  - destruct (decide (x ∉ v ++ [x])) as [H1|H1].
    + exfalso. apply H1, elem_of_app. right. apply list_elem_of_singleton. done.
    + destruct (decide (x ∉ v)); [simpl; lia|done].
  - apply elem_of_cons in Hx as [->|Hx]; [done|].
    specialize (IH Hx Hv).
    destruct (decide (a ∉ v ++ [x])) as [H1|H1], (decide (a ∉ v)) as [H2|H2];
      simpl; try lia.
    exfalso. apply H2. intros Hin. apply H1. apply elem_of_app. by left.
Qed.

Lemma childrenOf_spec cur a :
  a ∈ childrenOf allTasks cur ↔ a ∈ allTasks ∧ Task.parentTaskId a = Some cur.
Proof. unfold childrenOf. rewrite list_elem_of_filter. tauto. Qed.

Lemma pushed_spec cur v i :
  i ∈ (Task.id <$> filter (λ c, JSSet.has (Task.id c) v = false)
                     (childrenOf allTasks cur))
  ↔ ∃ a, a ∈ allTasks ∧ Task.parentTaskId a = Some cur ∧ Task.id a = i ∧ i ∉ v.
Proof.
  rewrite list_elem_of_fmap. split.
  - intros (a & -> & Ha). apply list_elem_of_filter in Ha as [Hv Ha].
    apply childrenOf_spec in Ha as [? ?]. apply JSSet_has_false in Hv. eauto 6.
  - intros (a & Ha & Hp & <- & Hv). exists a. split; [done|].
    apply list_elem_of_filter. split; [by apply JSSet_has_false|].
    by apply childrenOf_spec.
Qed.

Lemma pushed_length cur v :
  (length (Task.id <$> filter (λ c, JSSet.has (Task.id c) v = false)
                        (childrenOf allTasks cur)) ≤ length allTasks)%nat.
Proof.
  rewrite length_fmap. unfold childrenOf.
  etrans; [apply length_filter|]. apply length_filter.
Qed.

(** Every iteration either drops a visited identifier from the queue or
    visits a new one: the loop ends within the fuel below. *)
Lemma bfs_loop_terminates (startTaskIds : list string) :
  ∀ fuel queue visited,
    (∀ i, i ∈ queue → i ∈ startTaskIds ++ (Task.id <$> allTasks)) →
    (length queue
     + S (length allTasks) * bfs_pending startTaskIds allTasks visited < fuel)%nat →
    is_Some (bfs_loop fuel allTasks queue visited).
Proof.
  induction fuel as [|fuel IH]; intros queue visited Hq Hf; [lia|].
  destruct queue as [|cur rest]; simpl; [eauto|].
  destruct (JSSet.has cur visited) eqn:Hv.
  - apply IH.
    + intros i Hi. apply Hq. by right.
    + simpl in Hf. lia.
  - apply JSSet_has_false in Hv.
    assert (cur ∈ startTaskIds ++ (Task.id <$> allTasks)) as Hcur
      by (apply Hq; left).
    pose proof (pending_lt _ _ _ Hcur Hv) as Hlt.
    pose proof (pushed_length cur (visited ++ [cur])) as Hpl.
    apply IH.
    + intros i [Hi|Hi]%elem_of_app.
      * apply Hq. by right.
      * apply pushed_spec in Hi as (a & Ha & _ & <- & _).
        apply elem_of_app. right. by apply list_elem_of_fmap_2.
    + rewrite length_app. unfold bfs_pending in *. simpl in Hf. nia.
Qed.

Lemma bfs_loop_total (startTaskIds : list string) :
  is_Some (bfs_loop (bfs_fuel startTaskIds allTasks) allTasks startTaskIds []).
Proof.
  apply (bfs_loop_terminates startTaskIds).
  - intros i Hi. apply elem_of_app. by left.
  - unfold bfs_fuel, bfs_pending.
    pose proof (length_filter (λ i : string, i ∉ @nil string)
                  (startTaskIds ++ (Task.id <$> allTasks))).
    nia.
Qed.

Lemma getAllDescendantTaskIds_loop (startTaskIds : list string) :
  bfs_loop (bfs_fuel startTaskIds allTasks) allTasks startTaskIds []
  = Some (getAllDescendantTaskIds startTaskIds allTasks).
Proof.
  unfold getAllDescendantTaskIds.
  by destruct (bfs_loop_total startTaskIds) as [r ->].
Qed.

(** What the loop returns does not depend on how much fuel was left. *)
Lemma bfs_loop_fuel_mono :
  ∀ fuel fuel' queue visited r,
    bfs_loop fuel allTasks queue visited = Some r → (fuel ≤ fuel')%nat →
    bfs_loop fuel' allTasks queue visited = Some r.
Proof.
  induction fuel as [|fuel IH]; intros fuel' queue visited r H Hle; [done|].
  destruct fuel' as [|fuel']; [lia|].
  simpl in *. destruct queue as [|cur rest]; [done|].
  destruct (JSSet.has cur visited); apply IH; (done || lia).
Qed.

Section closure.
Variable seeds : list string.

Lemma bfs_loop_sound :
  ∀ fuel queue visited r,
    bfs_loop fuel allTasks queue visited = Some r →
    (∀ i, i ∈ queue ∨ i ∈ visited → Descendant allTasks seeds i) →
    ∀ i, i ∈ r → Descendant allTasks seeds i.
Proof.
  induction fuel as [|fuel IH]; intros queue visited r H Hinv; [done|].
  simpl in H. destruct queue as [|cur rest].
  { injection H as <-. auto. }
  destruct (JSSet.has cur visited) eqn:Hv.
  - eapply IH; [done|]. intros i [Hi|Hi]; apply Hinv; [left; by right|by right].
  - eapply IH; [done|]. intros i [Hi|Hi].
    + apply elem_of_app in Hi as [Hi|Hi].
      * apply Hinv. left. by right.
      * apply pushed_spec in Hi as (a & Ha & Hp & <- & _).
        eapply Descendant_child; [done..|]. apply Hinv. left. left.
    + apply elem_of_app in Hi as [Hi|Hi].
      * apply Hinv. by right.
      * apply list_elem_of_singleton in Hi as ->. apply Hinv. left. left.
Qed.

(** Invariant of the loop: the children of a visited task are visited or
    queued. When the queue is empty the visited set is closed. *)
Lemma bfs_loop_closed :
  ∀ fuel queue visited r,
    bfs_loop fuel allTasks queue visited = Some r →
    (∀ p a, p ∈ visited → a ∈ allTasks → Task.parentTaskId a = Some p →
            Task.id a ∈ visited ∨ Task.id a ∈ queue) →
    (∀ i, i ∈ queue ∨ i ∈ visited → i ∈ r)
    ∧ (∀ p a, p ∈ r → a ∈ allTasks → Task.parentTaskId a = Some p →
              Task.id a ∈ r).
Proof.
  induction fuel as [|fuel IH]; intros queue visited r H Hinv; [done|].
  simpl in H. destruct queue as [|cur rest].
  { injection H as <-. split.
    - intros i [Hi|Hi]; [by apply elem_of_nil in Hi|done].
    - intros p a Hp Ha Hpa. destruct (Hinv p a Hp Ha Hpa) as [|Hn]; [done|].
      by apply elem_of_nil in Hn. }
  destruct (JSSet.has cur visited) eqn:Hv.
  - apply JSSet_has_true in Hv.
    destruct (IH _ _ _ H) as [H1 H2].
    + intros p a Hp Ha Hpa. destruct (Hinv p a Hp Ha Hpa) as [|Hn]; [by left|].
      apply elem_of_cons in Hn as [->|Hn]; [by left|by right].
    + split; [|done]. intros i [Hi|Hi]; [|apply H1; by right].
      apply elem_of_cons in Hi as [->|Hi]; apply H1; [by right|by left].
  - apply JSSet_has_false in Hv.
    destruct (IH _ _ _ H) as [H1 H2].
    + intros p a Hp Ha Hpa.
      destruct (decide (Task.id a ∈ visited ++ [cur])) as [Hd|Hd]; [by left|].
      right. apply elem_of_app.
      apply elem_of_app in Hp as [Hp|Hp].
      * destruct (Hinv p a Hp Ha Hpa) as [Hn|Hn].
        { exfalso. apply Hd, elem_of_app. by left. }
        apply elem_of_cons in Hn as [Hn|Hn]; [|by left].
        exfalso. apply Hd, elem_of_app. right.
        apply list_elem_of_singleton. done.
      * apply list_elem_of_singleton in Hp as ->. right.
        apply pushed_spec. eauto.
    + split; [|done]. intros i [Hi|Hi].
      * apply elem_of_cons in Hi as [->|Hi]; apply H1.
        -- right. apply elem_of_app. right. by apply list_elem_of_singleton.
        -- left. apply elem_of_app. by left.
      * apply H1. right. apply elem_of_app. by left.
Qed.

Lemma bfs_loop_NoDup :
  ∀ fuel queue visited r,
    bfs_loop fuel allTasks queue visited = Some r → NoDup visited → NoDup r.
Proof.
  induction fuel as [|fuel IH]; intros queue visited r H Hn; [done|].
  simpl in H. destruct queue as [|cur rest]; [by injection H as <-|].
  destruct (JSSet.has cur visited) eqn:Hv; [by eapply IH|].
  eapply IH; [done|]. apply JSSet_has_false in Hv.
  apply NoDup_app. split_and!; [done| |apply NoDup_singleton].
  intros x Hx ->%list_elem_of_singleton. done.
Qed.
End closure.

(** [getAllDescendantTaskIds] is the descendant closure of its seeds. *)
Lemma getAllDescendantTaskIds_spec (startTaskIds : list string) i :
  i ∈ getAllDescendantTaskIds startTaskIds allTasks
  ↔ Descendant allTasks startTaskIds i.
Proof.
  pose proof (getAllDescendantTaskIds_loop startTaskIds) as Hl.
  split.
  - eapply bfs_loop_sound; [done|].
    intros j [Hj|Hj]; [by constructor|by apply elem_of_nil in Hj].
  - destruct (bfs_loop_closed _ _ _ _ Hl) as [H1 H2].
    { intros p a Hp. by apply elem_of_nil in Hp. }
    induction 1 as [j Hj|a p Ha Hp _ IH]; [apply H1; by left|].
    by eapply H2.
Qed.

Lemma getAllDescendantTaskIds_NoDup (startTaskIds : list string) :
  NoDup (getAllDescendantTaskIds startTaskIds allTasks).
Proof.
  eapply bfs_loop_NoDup; [apply getAllDescendantTaskIds_loop|apply NoDup_nil_2].
Qed.
End bfs.

Lemma findTask_fmap (f : Task → Task) i ts :
  (∀ a, Task.id (f a) = Task.id a) →
  findTask i (f <$> ts) = f <$> findTask i ts.
Proof.
  intros Hf. induction ts as [|a ts IH]; [done|].
  rewrite fmap_cons, !findTask_cons, Hf. by case_decide.
Qed.

(** ** [updateTask] and the priority list *)

(** C10. [updateTask] leaves the prioritized sequence exactly as it was for
    every update whose [completed] key is absent or not truthy, an explicit
    [completed = false] included; an update with a truthy [completed] removes
    the identifier and nothing else; no update ever inserts an identifier. *)
Theorem updateTask_prioritized_frame taskId taskData s :
  (Task.p_completed taskData ≠ Some (Some true) →
   Store.prioritizedTaskIds (updateTask taskId taskData s)
   = Store.prioritizedTaskIds s)
  ∧ (Task.p_completed taskData = Some (Some true) →
     Store.prioritizedTaskIds (updateTask taskId taskData s)
     = filter (λ i, i ≠ taskId) (Store.prioritizedTaskIds s))
  ∧ (∀ i, i ∈ Store.prioritizedTaskIds (updateTask taskId taskData s) →
          i ∈ Store.prioritizedTaskIds s).
Proof.
  unfold updateTask; simpl.
  destruct (Task.p_completed taskData) as [[[|]|]|] eqn:E; simpl;
    split_and!; try done.
  intros i Hi. by apply list_elem_of_filter in Hi as [_ ?].
Qed.

Lemma updateTask_prioritized_frame_witness :
  Store.prioritizedTaskIds
    (updateTask "c"
       (Task.mkPatch None None None None None None None None (Some (Some false))
          None None None None None) twoTaskStore)
  = ["c"; "p"].
Proof.
  rewrite (proj1 (updateTask_prioritized_frame _ _ _)); [reflexivity|discriminate].
Defined.

(** ** [unlinkTask] *)

Lemma last_filter_Some {A} (P : A → Prop) `{∀ x, Decision (P x)} (l : list A) x :
  x ∈ l → P x → ∃ y, last (filter P l) = Some y ∧ y ∈ l ∧ P y.
Proof.
  intros Hx HP.
  assert (x ∈ filter P l) as Hf by (by apply list_elem_of_filter).
  destruct (last (filter P l)) as [y|] eqn:E.
  - exists y. split; [done|].
    apply last_Some in E as [l' E].
    assert (y ∈ filter P l) as Hy.
    { rewrite E. apply elem_of_app. right. by apply list_elem_of_singleton. }
    apply list_elem_of_filter in Hy as [? ?]. done.
  - apply last_None in E. rewrite E in Hf. by apply elem_of_nil in Hf.
Qed.

Lemma last_filter_elem {A} (P : A → Prop) `{∀ x, Decision (P x)} (l : list A) y :
  last (filter P l) = Some y → y ∈ l ∧ P y.
Proof.
  intros E. apply last_Some in E as [l' E].
  assert (y ∈ filter P l) as Hy.
  { rewrite E. apply elem_of_app. right. by apply list_elem_of_singleton. }
  by apply list_elem_of_filter in Hy as [? ?].
Qed.

Lemma unlinkTask_cache eager projectId taskId s p a :
  p ∈ Store.projects (unlinkTask eager projectId taskId s) →
  Project.id p = projectId →
  a ∈ Project.tasks p → Task.id a ≠ taskId.
Proof.
  unfold unlinkTask; simpl. intros Hp Hid Ha.
  apply list_elem_of_fmap in Hp as (q & -> & Hq).
  case_decide as Hd; simpl in *.
  - by apply list_elem_of_filter in Ha as [? _].
  - done.
Qed.

(** When React runs the updater at once and the cached list of the project
    has the task, the flat list is rewritten. *)
Lemma unlinkTask_eager_cached projectId taskId s :
  cachedIn s projectId taskId →
  UnlinkTaskPost projectId taskId (unlinkTask true projectId taskId s).
Proof.
  intros [(p & Hp & Hid) Hall]. split; [|apply unlinkTask_cache].
  unfold unlinkTask; simpl.
  destruct (last_filter_Some (λ q, Project.id q = projectId) _ p Hp Hid)
    as (q & Hlast & Hq & Hqid).
  destruct (Hall q Hq Hqid) as (b & Hb & Hbid).
  destruct (findTask_is_Some taskId _ b Hb Hbid) as [c Hc].
  unfold taskToUnlink. rewrite Hlast. simpl. rewrite Hc.
  intros a Ha Haid. apply list_elem_of_fmap in Ha as (a0 & -> & _).
  case_decide; [done|]. simpl in Haid. done.
Qed.

Lemma unlinkTask_eager_not_cached projectId taskId s :
  notCachedIn s projectId taskId →
  Store.tasks (unlinkTask true projectId taskId s) = Store.tasks s.
Proof.
  intros Hnot. unfold unlinkTask; simpl. unfold taskToUnlink.
  destruct (last (filter _ (Store.projects s))) as [q|] eqn:E; simpl; [|done].
  apply last_filter_elem in E as [Hq Hqid].
  destruct (findTask taskId (Project.tasks q)) as [c|] eqn:Hc; [|done].
  apply findTask_Some in Hc as [Hc Hcid].
  by destruct (Hnot q c Hq Hqid Hc).
Qed.

(** C9 at [unlinkTask]. In the state [addProject] then [addTask] leave, the
    task "t" of the project "p" is in the flat list and in the cached list
    of "p". When React leaves the updater of [setProjects] for the next
    render, [unlinkTask] takes the task out of the cached list and leaves
    the flat list as it was, in every state: the task still names "p"
    there. When React runs the updater at once, the flat list is rewritten
    if the cached list had the task, and left as it was if it had not, as
    for the task of [staleCacheStore]. The cached list never has the task
    afterwards. *)
Theorem unlinkTask_keeps_flat_projectId :
  (linkedStore
   = addTask "t" (mkTask "" "T" false (Some "p") None)
       (addProject "p" (mkProject "p" InProgress []) (Some origin) emptyStore)
   ∧ Task.projectId <$> findTask "t" (Store.tasks linkedStore) = Some (Some "p")
   ∧ cachedIn linkedStore "p" "t")
  ∧ (Task.projectId
       <$> findTask "t" (Store.tasks (unlinkTask false "p" "t" linkedStore))
     = Some (Some "p")
     ∧ Project.tasks
         <$> findProject "p" (Store.projects (unlinkTask false "p" "t" linkedStore))
       = Some []
     ∧ ¬ UnlinkTaskPost "p" "t" (unlinkTask false "p" "t" linkedStore))
  ∧ (∀ projectId taskId s,
       Store.tasks (unlinkTask false projectId taskId s) = Store.tasks s)
  ∧ (Task.projectId
       <$> findTask "t" (Store.tasks (unlinkTask true "p" "t" staleCacheStore))
     = Some (Some "p")
     ∧ ¬ UnlinkTaskPost "p" "t" (unlinkTask true "p" "t" staleCacheStore))
  ∧ (∀ projectId taskId s,
       (cachedIn s projectId taskId →
        UnlinkTaskPost projectId taskId (unlinkTask true projectId taskId s))
       ∧ (notCachedIn s projectId taskId →
          Store.tasks (unlinkTask true projectId taskId s) = Store.tasks s))
  ∧ (∀ eager projectId taskId s p a,
       p ∈ Store.projects (unlinkTask eager projectId taskId s) →
       Project.id p = projectId → a ∈ Project.tasks p → Task.id a ≠ taskId).
Proof.
  split_and!.
  - reflexivity.
  - reflexivity.
  - split.
    + eexists. split; [apply list_elem_of_here|reflexivity].
    + intros p Hp _. apply list_elem_of_singleton in Hp as ->.
      eexists. split; [apply list_elem_of_here|reflexivity].
  - reflexivity.
  - reflexivity.
  - intros [H _].
    specialize (H (mkTask "t" "T" false (Some "p") None)).
    discriminate H; [apply list_elem_of_here|reflexivity].
  - reflexivity.
  - reflexivity.
  - intros [H _].
    specialize (H (mkTask "t" "T" false (Some "p") None)).
    discriminate H; [apply list_elem_of_here|reflexivity].
  - intros projectId taskId s. split.
    + apply unlinkTask_eager_cached.
    + apply unlinkTask_eager_not_cached.
  - apply unlinkTask_cache.
Qed.

(** ** [linkTaskToTask] *)

(** C8. For a child and a parent that are two different tasks of the state
    (the caller links a task under another one only). The parent is
    completed and carries a completion timestamp, the one it had if it had
    one; the child has a null [projectId] and the parent as [parentTaskId];
    the priority list does not hold the parent and ends with the child. *)
Theorem linkTaskToTask_post completionTimestamp childTaskId parentTaskId s :
  childTaskId ≠ parentTaskId →
  is_Some (findTask childTaskId (Store.tasks s)) →
  is_Some (findTask parentTaskId (Store.tasks s)) →
  LinkTaskToTaskPost s childTaskId parentTaskId
    (linkTaskToTask completionTimestamp childTaskId parentTaskId s).
Proof.
  intros Hne [c Hc] [b Hb]. unfold LinkTaskToTaskPost, linkTaskToTask; simpl.
  rewrite !findTask_fmap by (intros a; repeat case_decide; done).
  rewrite Hc, Hb; simpl.
  apply findTask_Some in Hc as [_ Hcid]. apply findTask_Some in Hb as [_ Hbid].
  split_and!.
  - eexists. split; [done|].
    rewrite decide_False by congruence. rewrite decide_True by done.
    simpl. split_and!; [done|eauto|].
    intros a d [= <-] Hd. by rewrite Hd.
  - eexists. split; [done|]. rewrite decide_True by done. done.
  - intros [Hin|Hin]%elem_of_app.
    + by apply list_elem_of_filter in Hin as [? _].
    + apply list_elem_of_singleton in Hin. done.
  - apply last_snoc.
Qed.

Lemma linkTaskToTask_post_witness :
  LinkTaskToTaskPost twoTaskStore "c" "p" (linkTaskToTask "now" "c" "p" twoTaskStore).
Proof.
  apply linkTaskToTask_post; [discriminate|by eexists..].
Defined.

(** ** The priority list holds no identifier twice *)

(** C2 at [linkTaskToTask]: the child is already in the priority list, as
    every task is once [addTask] made it; the operation appends it again
    without looking. *)
Theorem linkTaskToTask_duplicates_child :
  twoTaskStore
  = addTask "p" (mkTask "" "P" false None None)
      (addTask "c" (mkTask "" "C" false None None) emptyStore)
  ∧ NoDup (Store.prioritizedTaskIds twoTaskStore)
  ∧ Store.prioritizedTaskIds (linkTaskToTask "now" "c" "p" twoTaskStore)
    = ["c"; "c"]
  ∧ ¬ NoDup (Store.prioritizedTaskIds (linkTaskToTask "now" "c" "p" twoTaskStore)).
Proof.
  split_and!.
  - reflexivity.
  - vm_compute. apply NoDup_cons. split; [|apply NoDup_singleton].
    intros H%list_elem_of_singleton. discriminate.
  - reflexivity.
  - change (Store.prioritizedTaskIds (linkTaskToTask "now" "c" "p" twoTaskStore))
      with ["c"; "c"].
    intros H%NoDup_cons. destruct H as [H _]. apply H, list_elem_of_here.
Qed.

(** Every other operation keeps the priority list free of duplicates. *)
Lemma autoArrangeProjectTasks_prioritized cmp projectId s s' :
  autoArrangeProjectTasks cmp projectId s = Some s' →
  Store.prioritizedTaskIds s' = Store.prioritizedTaskIds s.
Proof.
  unfold autoArrangeProjectTasks.
  destruct (findProject _ _); [|by intros [= <-]].
  destruct (autoArrangeRows _ _ _) as [r|]; simpl; [|done].
  case_bool_decide; by intros [= <-].
Qed.

Lemma unlinkTaskFromParent_prioritized fuel childTaskId s s' :
  unlinkTaskFromParent fuel childTaskId s = Some s' →
  Store.prioritizedTaskIds s' = Store.prioritizedTaskIds s.
Proof.
  unfold unlinkTaskFromParent.
  destruct (findTask _ _); [|by intros [= <-]].
  destruct (truthy _); [|by intros [= <-]].
  destruct (ancestorWalk _ _ _); simpl; [|done]. by intros [= <-].
Qed.

Lemma run_prioritized_NoDup cmp fuel o s s' :
  (∀ ts c p, o ≠ OpLinkTaskToTask ts c p) →
  NoDup (Store.prioritizedTaskIds s) →
  run cmp fuel o s = Some s' →
  NoDup (Store.prioritizedTaskIds s').
Proof.
  intros Hop Hn Hrun.
  destruct o; simpl in Hrun;
    try (injection Hrun as <-); simpl; try done.
  - unfold moveProjectGroup. by destruct (findProject _ _).
  - unfold moveTaskSubtree. repeat (case_match; simpl; try done).
  - unfold finishProject. destruct (findProject _ _); simpl; [|done].
    by apply NoDup_filter.
  - unfold reactivateProject. case_bool_decide; simpl; [|done].
    apply JSSet_NoDup_from.
  - by apply NoDup_filter.
  - destruct (JSSet.has _ _) eqn:E; [done|].
    apply JSSet_has_false in E.
    apply NoDup_app. split_and!; [done| |apply NoDup_singleton].
    intros x Hx ->%list_elem_of_singleton. done.
  - destruct (truthyFlag _); [|done]. by apply NoDup_filter.
  - by apply NoDup_filter.
  - by destruct (Hop completionTimestamp childTaskId parentTaskId).
  - by rewrite (unlinkTaskFromParent_prioritized _ _ _ _ Hrun).
  - apply JSSet_NoDup_from.
  - by rewrite (autoArrangeProjectTasks_prioritized _ _ _ _ Hrun).
Qed.

(** ** Invariant 1: exclusivity of the two links *)

Lemma Forall_exclusive_fmap (f : Task → Task) ts :
  (∀ a, exclusive a → exclusive (f a)) →
  Forall exclusive ts → Forall exclusive (f <$> ts).
Proof.
  intros Hf H. apply Forall_fmap. eapply Forall_impl; [done|]. apply Hf.
Qed.

Lemma Forall_exclusive_filter (P : Task → Prop) `{∀ a, Decision (P a)} ts :
  Forall exclusive ts → Forall exclusive (filter P ts).
Proof.
  rewrite !Forall_forall. intros H0 a Ha.
  apply list_elem_of_filter in Ha as [_ Ha]. auto.
Qed.

Lemma run_exclusive cmp fuel o s s' :
  keepsLinks o →
  Forall exclusive (Store.tasks s) →
  run cmp fuel o s = Some s' →
  Forall exclusive (Store.tasks s').
Proof.
  intros Hk Hinv Hrun.
  destruct o; simpl in Hrun; try (injection Hrun as <-); simpl; try done.
  - unfold moveProjectGroup. destruct (findProject _ _); simpl; [|done].
    apply Forall_exclusive_fmap; [|done]. intros a Ha. by destruct (JSSet.has _ _).
  - unfold moveTaskSubtree.
    destruct (_ && _); [done|]. destruct (findTask _ _); [|done].
    case_bool_decide; simpl; [done|].
    apply Forall_exclusive_fmap; [|done]. intros a Ha. by destruct (JSSet.has _ _).
  - unfold finishProject. by destruct (findProject _ _).
  - unfold reactivateProject. by case_bool_decide.
  - by apply Forall_exclusive_filter.
  - apply Forall_app. split; [done|]. apply Forall_singleton. by right.
  - destruct Hk as [Hp Hq].
    apply Forall_exclusive_fmap; [|done]. intros a Ha. case_decide; [|done].
    unfold exclusive, Task.merge; simpl. by rewrite Hp, Hq.
  - apply Forall_exclusive_fmap; [|done]. intros a Ha. by case_decide.
  - by apply Forall_exclusive_filter.
  - apply Forall_exclusive_fmap; [|done]. intros a Ha. case_decide; [by right|done].
  - apply Forall_exclusive_fmap; [|done]. intros a Ha.
    repeat case_decide; [by left|done|done].
  - unfold unlinkTask; simpl.
    destruct (if eager then taskToUnlink _ _ _ else None); [|done].
    apply Forall_exclusive_fmap; [|done]. intros a Ha. case_decide; [by left|done].
  - unfold unlinkTaskFromParent in Hrun.
    destruct (findTask _ _); [|by injection Hrun as <-].
    destruct (truthy _); [|by injection Hrun as <-].
    destruct (ancestorWalk _ _ _); simpl in Hrun; [|done].
    injection Hrun as <-. simpl.
    apply Forall_exclusive_fmap; [|done]. intros a Ha. case_decide; [by right|done].
  - apply Forall_exclusive_fmap; [|done]. intros a Ha. by case_decide.
  - unfold autoArrangeProjectTasks in Hrun.
    destruct (findProject _ _); [|by injection Hrun as <-].
    destruct (autoArrangeRows _ _ _) as [r|]; simpl in Hrun; [|done].
    case_bool_decide; injection Hrun as <-; [done|]. simpl.
    apply Forall_exclusive_fmap; [|done]. intros a Ha. by destruct (_ !! _).
Qed.

(** C1. From a state in which every task has at most one of its two links
    set, every sequence of store operations (updates of a task leaving the
    two link fields alone) ends in such a state. *)
Theorem exclusivity_invariant cmp os s s' :
  Forall keepsLinks os →
  Forall exclusive (Store.tasks s) →
  Steps cmp os s s' →
  Forall exclusive (Store.tasks s').
Proof.
  intros Hk Hinv Hsteps. induction Hsteps as [|o os s s1 s2 fuel Hrun _ IH]; [done|].
  apply Forall_cons in Hk as [Ho Hos].
  apply IH; [done|]. by eapply run_exclusive.
Qed.

Lemma exclusivity_invariant_witness :
  ∃ s', Steps codeUnitCompare sampleOps twoTaskStore s'
        ∧ Forall exclusive (Store.tasks s').
Proof.
  assert (∃ s', Steps codeUnitCompare sampleOps twoTaskStore s') as [s' Hs'].
  { eexists. unfold sampleOps.
    repeat (eapply (Steps_cons _ _ _ _ _ _ 4%nat); [vm_compute; reflexivity|]).
    apply Steps_nil. }
  exists s'. split; [exact Hs'|].
  apply (exclusivity_invariant codeUnitCompare sampleOps twoTaskStore s').
  - unfold sampleOps. repeat (apply Forall_cons; split; [by simpl|]).
    apply Forall_nil_2.
  - unfold twoTaskStore. simpl.
    repeat (apply Forall_cons; split; [by left|]). apply Forall_nil_2.
  - exact Hs'.
Defined.

(** ** Walks along the parent links *)

(** What the ancestor search returns does not depend on the fuel left. *)
Lemma ancestorWalk_fuel_mono ts :
  ∀ fuel fuel' parentId r,
    ancestorWalk fuel ts parentId = Some r → (fuel ≤ fuel')%nat →
    ancestorWalk fuel' ts parentId = Some r.
Proof.
  induction fuel as [|fuel IH]; intros fuel' parentId r H Hle; [done|].
  destruct fuel' as [|fuel']; [lia|]. simpl in *.
  destruct (truthy parentId); [|done].
  destruct (parentId ≫= _) as [parentTask|]; [|done].
  destruct (truthy (Task.projectId parentTask)); [done|].
  apply IH; [done|lia].
Qed.

Lemma ancestorWalk_cycle_step_c fuel :
  ancestorWalk (S fuel) cycleTasks (Some "c") = ancestorWalk fuel cycleTasks (Some "p").
Proof. reflexivity. Qed.

Lemma ancestorWalk_cycle_step_p fuel :
  ancestorWalk (S fuel) cycleTasks (Some "p") = ancestorWalk fuel cycleTasks (Some "c").
Proof. reflexivity. Qed.

Lemma ancestorWalk_cycle fuel :
  ancestorWalk fuel cycleTasks (Some "c") = None
  ∧ ancestorWalk fuel cycleTasks (Some "p") = None.
Proof.
  induction fuel as [|fuel [IHc IHp]]; [done|].
  by rewrite ancestorWalk_cycle_step_c, ancestorWalk_cycle_step_p.
Qed.

Lemma unlinkTaskFromParent_running fuel childTaskId s a :
  findTask childTaskId (Store.tasks s) = Some a →
  truthy (Task.parentTaskId a) = true →
  ancestorWalk fuel (Store.tasks s) (Task.parentTaskId a) = None →
  unlinkTaskFromParent fuel childTaskId s = None.
Proof.
  intros H1 H2 H3. unfold unlinkTaskFromParent. by rewrite H1, H2, H3.
Qed.

(** C3 at [unlinkTaskFromParent]: two tasks linked under each other are each
    other's parent; on them the ancestor search is still running after any
    number of iterations and the operation never yields a state, while the
    descendant collection and the root resolution on the same tasks end. *)
Theorem unlinkTaskFromParent_diverges_on_cycle :
  (Task.parentTaskId <$> findTask "c" cycleTasks = Some (Some "p")
   ∧ Task.parentTaskId <$> findTask "p" cycleTasks = Some (Some "c"))
  ∧ (∀ fuel, ancestorWalk fuel cycleTasks (Some "p") = None)
  ∧ (∀ fuel, unlinkTaskFromParent fuel "c" cycleStore = None)
  ∧ getAllDescendantTaskIds ["c"] cycleTasks = ["c"; "p"]
  ∧ findRoot cycleStore "c" = None.
Proof.
  split_and!.
  - reflexivity.
  - reflexivity.
  - intros fuel. apply ancestorWalk_cycle.
  - intros fuel.
    eapply unlinkTaskFromParent_running; [reflexivity|reflexivity|].
    apply ancestorWalk_cycle.
  - reflexivity.
  - reflexivity.
Qed.

(** ** [moveProjectGroup] *)

Lemma Descendant_seeds_ext ts seeds seeds' i :
  (∀ j, j ∈ seeds → j ∈ seeds') →
  Descendant ts seeds i → Descendant ts seeds' i.
Proof.
  intros Hs. induction 1 as [j Hj|a p Ha Hp _ IH].
  - apply Descendant_seed. auto.
  - by eapply Descendant_child.
Qed.

Lemma directTaskIdsOfGroup_closure project ts i :
  i ∈ getAllDescendantTaskIds
        (directTaskIdsOfGroup project (Project.id project) ts) ts
  ↔ Descendant ts (groupSeeds project ts) i.
Proof.
  rewrite getAllDescendantTaskIds_spec. unfold directTaskIdsOfGroup, groupSeeds.
  split; apply Descendant_seeds_ext; intros j; by rewrite JSSet_elem_of_from.
Qed.

Lemma sameButPosition_withPosition pos a :
  sameButPosition a (Task.withPosition pos a).
Proof. by repeat split. Qed.

(** C6. For a project of the state, [moveProjectGroup] adds the delta to the
    position of the project and of every task in the descendant closure of
    its direct child tasks (those of its cached list and those of the flat
    list): the new coordinates are the old ones plus [dx] and plus [dy], and
    nothing else of such a task changes. Every other project and every
    other task is left as it was. *)
Theorem moveProjectGroup_translates projectId delta s project :
  findProject projectId (Store.projects s) = Some project →
  (∀ k p, Store.projects s !! k = Some p →
     ∃ p', Store.projects (moveProjectGroup projectId delta s) !! k = Some p'
           ∧ (Project.id p = projectId →
              Position.x (Project.position p')
              = (Position.x (Project.position p) + dx delta)%float
              ∧ Position.y (Project.position p')
                = (Position.y (Project.position p) + dy delta)%float)
           ∧ (Project.id p ≠ projectId → p' = p))
  ∧ (∀ k a, Store.tasks s !! k = Some a →
       ∃ a', Store.tasks (moveProjectGroup projectId delta s) !! k = Some a'
             ∧ (Descendant (Store.tasks s) (groupSeeds project (Store.tasks s))
                  (Task.id a) →
                Position.x (Task.position a')
                = (Position.x (Task.position a) + dx delta)%float
                ∧ Position.y (Task.position a')
                  = (Position.y (Task.position a) + dy delta)%float
                ∧ sameButPosition a a')
             ∧ (¬ Descendant (Store.tasks s) (groupSeeds project (Store.tasks s))
                    (Task.id a) →
                a' = a))
  ∧ length (Store.projects (moveProjectGroup projectId delta s))
    = length (Store.projects s)
  ∧ length (Store.tasks (moveProjectGroup projectId delta s))
    = length (Store.tasks s).
Proof.
  intros Hfind. unfold moveProjectGroup. rewrite Hfind. simpl.
  apply findProject_Some in Hfind as [_ <-].
  split_and!.
  - intros k p Hk. rewrite list_lookup_fmap, Hk. simpl.
    eexists. split; [done|]. case_decide; simpl; split; done.
  - intros k a Hk. rewrite list_lookup_fmap, Hk. simpl.
    eexists. split; [done|].
    split; intros Hd; rewrite <- directTaskIdsOfGroup_closure in Hd.
    + apply JSSet_has_true in Hd. rewrite Hd. simpl.
      split_and!; [done|done|apply sameButPosition_withPosition].
    + apply JSSet_has_false in Hd. by rewrite Hd.
  - by rewrite length_fmap.
  - by rewrite length_fmap.
Qed.

(** The task "c1", at (1.5, 2), is a child of a task of the project "p": a
    move of the project by (10, 5.5) takes it to (11.5, 7.5). *)
Lemma moveProjectGroup_translates_witness :
  ∃ a', Store.tasks
          (moveProjectGroup "p" (Build_Delta 10 5.5)%float shiftedLayoutStore)
        !! 4%nat = Some a'
        ∧ Task.position a' = (Position.mk 11.5 7.5)%float
        ∧ Task.id a' = "c1" ∧ Task.parentTaskId a' = Some "r1".
Proof.
  pose proof (moveProjectGroup_translates "p" (Build_Delta 10 5.5)%float
                shiftedLayoutStore (mkProject "p" InProgress []) eq_refl)
    as (_ & Ht & _).
  destruct (Ht 4%nat
              (Task.withPosition (Position.mk 1.5 2)%float
                 (mkTask "c1" "A" false None (Some "r1"))) eq_refl)
    as (a' & Ha' & Hmoved & _).
  exists a'. split; [exact Ha'|].
  destruct Hmoved as (Hx & Hy & Hsame).
  { apply (Descendant_child _ _
             (Task.withPosition (Position.mk 1.5 2)%float
                (mkTask "c1" "A" false None (Some "r1"))) "r1");
      [repeat constructor|reflexivity|].
    apply Descendant_seed. repeat constructor. }
  split_and!.
  - destruct (Task.position a') as [x' y']. simpl in Hx, Hy. by rewrite Hx, Hy.
  - apply Hsame.
  - apply Hsame.
Defined.

(** ** [finishProject] then [reactivateProject] *)

Lemma filter_ext_elem {A} (P Q : A → Prop) `{∀ x, Decision (P x)}
    `{∀ x, Decision (Q x)} (l : list A) :
  (∀ x, x ∈ l → P x ↔ Q x) → filter P l = filter Q l.
Proof.
  induction l as [|a l IH]; intros Hx; [done|].
  rewrite !filter_cons.
  assert (P a ↔ Q a) as Ha by (apply Hx; left).
  rewrite IH by (intros x Hin; apply Hx; by right).
  destruct (decide (P a)), (decide (Q a)); tauto.
Qed.

Lemma JSSet_add_old x s : x ∈ s → JSSet.add x s = s.
Proof. intros H%JSSet_has_true. unfold JSSet.add. by rewrite H. Qed.

Lemma JSSet_add_new x s : x ∉ s → JSSet.add x s = s ++ [x].
Proof. intros H%JSSet_has_false. unfold JSSet.add. by rewrite H. Qed.

(** Adding a duplicate-free list to a set appends its new elements. *)
Lemma JSSet_fold_append l : ∀ acc,
  NoDup l →
  foldl (λ s x, JSSet.add x s) acc l = acc ++ filter (λ i, i ∉ acc) l.
Proof.
  induction l as [|a l IH]; intros acc Hn; simpl.
  - by rewrite app_nil_r.
  - apply NoDup_cons in Hn as [Ha Hn]. rewrite filter_cons.
    destruct (decide (a ∈ acc)) as [E|E].
    + rewrite JSSet_add_old by done. rewrite IH by done.
      by rewrite decide_False by tauto.
    + rewrite JSSet_add_new by done. rewrite IH by done.
      rewrite decide_True by done.
      rewrite <- app_assoc. simpl. do 2 f_equal.
      apply filter_ext_elem. intros x Hx.
      rewrite elem_of_app, list_elem_of_singleton.
      split; [tauto|]. intros Hacc [?| ->]; done.
Qed.

Lemma JSSet_from_app l1 l2 :
  NoDup l2 →
  JSSet.from (l1 ++ l2) = JSSet.from l1 ++ filter (λ i, i ∉ l1) l2.
Proof.
  intros Hn. unfold JSSet.from. rewrite foldl_app.
  fold (JSSet.from l1). rewrite JSSet_fold_append by done.
  f_equal. apply filter_ext_elem. intros x _. by rewrite JSSet_elem_of_from.
Qed.

Lemma activeIdsOfProject_NoDup projectId ts :
  NoDup (activeIdsOfProject projectId ts).
Proof. apply NoDup_filter, getAllDescendantTaskIds_NoDup. Qed.

Lemma activeIdsOfProject_spec projectId ts i :
  i ∈ activeIdsOfProject projectId ts
  ↔ Descendant ts (projectSeeds projectId ts) i ∧ isActiveId ts i = true.
Proof.
  unfold activeIdsOfProject. rewrite list_elem_of_filter.
  rewrite getAllDescendantTaskIds_spec. unfold projectSeeds. tauto.
Qed.

Lemma finishProject_tasks projectId s :
  Store.tasks (finishProject projectId s) = Store.tasks s.
Proof. unfold finishProject. by destruct (findProject _ _). Qed.

(** The shape of the priority list after [reactivateProject]. *)
Lemma reactivateProject_prioritized projectId s :
  ∃ remained,
    Store.prioritizedTaskIds (reactivateProject projectId s)
    = remained
      ++ filter (λ i, i ∉ Store.prioritizedTaskIds s)
           (activeIdsOfProject projectId (Store.tasks s))
    ∧ (∀ i, i ∈ remained ↔ i ∈ Store.prioritizedTaskIds s)
    ∧ (NoDup (Store.prioritizedTaskIds s) → remained = Store.prioritizedTaskIds s).
Proof.
  unfold reactivateProject. case_bool_decide as Hlen; simpl.
  - exists (JSSet.from (Store.prioritizedTaskIds s)). split_and!.
    + apply JSSet_from_app, activeIdsOfProject_NoDup.
    + intros i. apply JSSet_elem_of_from.
    + apply JSSet_from_NoDup.
  - exists (Store.prioritizedTaskIds s). split_and!; [|done..].
    destruct (activeIdsOfProject _ _); [by rewrite app_nil_r|simpl in Hlen; lia].
Qed.

(** C4, as the code has it. After [finishProject] then [reactivateProject]
    every descendant of the project that is not completed is in the priority
    list; the list is the entries that remained followed by the
    not-completed descendants that did not remain, in the order of the
    traversal (not in the order the list had them before); an identifier of
    a completed task is in the list only if it remained; and what remained
    are the entries outside the closure of the cached tasks. *)
Theorem finish_reactivate_roundtrip projectId s :
  (∀ i, Descendant (Store.tasks s) (projectSeeds projectId (Store.tasks s)) i →
        isActiveId (Store.tasks s) i = true →
        i ∈ Store.prioritizedTaskIds
              (reactivateProject projectId (finishProject projectId s)))
  ∧ (∃ remained,
       Store.prioritizedTaskIds
         (reactivateProject projectId (finishProject projectId s))
       = remained
         ++ filter (λ i, i ∉ Store.prioritizedTaskIds (finishProject projectId s))
              (activeIdsOfProject projectId (Store.tasks s))
       ∧ (∀ i, i ∈ remained
               ↔ i ∈ Store.prioritizedTaskIds (finishProject projectId s))
       ∧ (NoDup (Store.prioritizedTaskIds s) →
          remained = Store.prioritizedTaskIds (finishProject projectId s)))
  ∧ (∀ i, isActiveId (Store.tasks s) i = false →
          i ∈ Store.prioritizedTaskIds
                (reactivateProject projectId (finishProject projectId s)) →
          i ∈ Store.prioritizedTaskIds (finishProject projectId s))
  ∧ (∀ project, findProject projectId (Store.projects s) = Some project →
       ∀ i, i ∈ Store.prioritizedTaskIds (finishProject projectId s)
            ↔ i ∈ Store.prioritizedTaskIds s
              ∧ ¬ Descendant (Store.tasks s)
                    (Task.id <$> Project.tasks project) i).
Proof.
  destruct (reactivateProject_prioritized projectId (finishProject projectId s))
    as (remained & Heq & Hmem & Hnd).
  rewrite finishProject_tasks in Heq.
  split_and!.
  - intros i Hd Ha. rewrite Heq, elem_of_app, Hmem.
    destruct (decide (i ∈ Store.prioritizedTaskIds (finishProject projectId s)));
      [by left|right].
    apply list_elem_of_filter. split; [done|]. by apply activeIdsOfProject_spec.
  - exists remained. split_and!; [done..|].
    intros Hn. apply Hnd. unfold finishProject.
    destruct (findProject _ _); simpl; [by apply NoDup_filter|done].
  - intros i Hc. rewrite Heq, elem_of_app, Hmem. intros [?|Hin]; [done|].
    apply list_elem_of_filter in Hin as [_ Hin].
    apply activeIdsOfProject_spec in Hin as [_ Hin]. congruence.
  - intros project Hp i. unfold finishProject. rewrite Hp. simpl.
    rewrite list_elem_of_filter, JSSet_has_false, getAllDescendantTaskIds_spec.
    tauto.
Qed.

Lemma finish_reactivate_roundtrip_witness :
  "t2" ∈ Store.prioritizedTaskIds
           (reactivateProject "p" (finishProject "p" reorderStore)).
Proof.
  apply (proj1 (finish_reactivate_roundtrip "p" reorderStore));
    [apply Descendant_seed; repeat constructor|reflexivity].
Defined.

(** The two tasks come back in the order of the flat list, which is not the
    order the priority list had them in. *)
Lemma finish_reactivate_order_counterexample :
  ¬ RoundTripKeepsOrder "p" reorderStore.
Proof. unfold RoundTripKeepsOrder. vm_compute. discriminate. Qed.

(** ** The read-side filters of the priority list *)

Lemma tasksById_fold ts : ∀ (m : gmap string Task) i,
  foldl (λ acc a, <[Task.id a := a]> acc) m ts !! i
  = match last (filter (λ a, Task.id a = i) ts) with
    | Some a => Some a
    | None => m !! i
    end.
Proof.
  induction ts as [|b ts IH]; intros m i; simpl; [done|].
  rewrite IH, filter_cons. case_decide as Hb.
  - rewrite last_cons. destruct (last _); [done|].
    subst i. by rewrite lookup_insert_eq.
  - destruct (last _); [done|]. by rewrite lookup_insert_ne.
Qed.

(** The index holds, for an identifier, the last task of the flat list that
    has it. *)
Lemma tasksById_lookup ts i :
  tasksById ts !! i = last (filter (λ a, Task.id a = i) ts).
Proof.
  unfold tasksById. rewrite tasksById_fold, lookup_empty. by destruct (last _).
Qed.

Lemma tasksById_Some ts i a :
  tasksById ts !! i = Some a → a ∈ ts ∧ Task.id a = i.
Proof.
  rewrite tasksById_lookup. intros H.
  by apply (last_filter_elem (λ b, Task.id b = i)) in H.
Qed.

Lemma tasksById_is_Some ts i :
  is_Some (tasksById ts !! i) ↔ ∃ a, a ∈ ts ∧ Task.id a = i.
Proof.
  split.
  - intros [a Ha]. exists a. by apply tasksById_Some.
  - intros (a & Ha & Hi). rewrite tasksById_lookup.
    destruct (last_filter_Some (λ b, Task.id b = i) ts a Ha Hi) as (y & -> & _).
    eauto.
Qed.

Section findRoot.
Context {R : Type}.
Variable ts : list Task.
Variable taskAt : string → option Task.
Variable projectAt : string → option R.
Let tById := tasksById ts.
Hypothesis taskAt_index : ∀ i, taskAt i = tById !! i.

Lemma WalkUp_NearestCarrier n cur a :
  WalkUp tById n cur a → NearestCarrier tById cur a.
Proof.
  induction 1; [by apply NearestCarrier_here|by eapply NearestCarrier_up].
Qed.

Lemma NearestCarrier_WalkUp cur a :
  NearestCarrier tById cur a → ∃ n, WalkUp tById n cur a.
Proof.
  induction 1 as [|cur a parent b ? ? ? ? _ [n IH]].
  - exists 0%nat. by apply WalkUp_here.
  - exists (S n). by eapply WalkUp_up.
Qed.

Lemma WalkUp_det n cur a :
  WalkUp tById n cur a → ∀ m b, WalkUp tById m cur b → n = m ∧ a = b.
Proof.
  induction 1 as [cur a Hl Ht|n cur a parent b Hl Ht Hp Hne Hw IH];
    intros m b' Hw';
    inversion Hw' as [? ? Hl' Ht'|? ? ? ? ? Hl' Ht' Hp' Hne' Hw''];
    subst; rewrite Hl in Hl'; injection Hl' as <-.
  - done.
  - congruence.
  - congruence.
  - rewrite Hp in Hp'. injection Hp' as <-.
    by destruct (IH _ _ Hw'') as [-> ->].
Qed.

Lemma NearestCarrier_det cur a b :
  NearestCarrier tById cur a → NearestCarrier tById cur b → a = b.
Proof.
  intros [n Ha]%NearestCarrier_WalkUp [m Hb]%NearestCarrier_WalkUp.
  by destruct (WalkUp_det _ _ _ Ha _ _ Hb).
Qed.

Lemma findRoot_loop_spec :
  ∀ fuel visited currentId r,
    findRoot_loop fuel taskAt projectAt visited currentId = Some r →
    seen_behind tById visited currentId →
    (∃ c a i, currentId = Some c ∧ c ≠ "" ∧ NearestCarrier tById c a
              ∧ Task.projectId a = Some i ∧ r = projectAt i)
    ∨ ((∀ c a, currentId = Some c → c ≠ "" → ¬ NearestCarrier tById c a)
       ∧ r = None).
Proof.
  induction fuel as [|fuel IH]; intros visited currentId r Hr Hinv; [done|].
  simpl in Hr. destruct currentId as [c|]; [|injection Hr as <-; right; done].
  destruct (truthy (Some c) && negb (JSSet.has c visited)) eqn:Hgo.
  - apply andb_true_iff in Hgo as [Hc Hv].
    apply truthy_Some in Hc as (c' & [= <-] & Hc).
    apply negb_true_iff, JSSet_has_false in Hv.
    rewrite taskAt_index in Hr.
    destruct (tById !! c) as [task|] eqn:Hl.
    + destruct (truthy (Task.projectId task)) eqn:Hp.
      * injection Hr as <-. left.
        destruct (truthy_Some _ Hp) as (i & Hi & _).
        exists c, task, i. split_and!; try done.
        -- by apply NearestCarrier_here.
        -- by rewrite Hi.
      * specialize (IH _ _ _ Hr).
        assert (∀ n a, WalkUp tById n c a →
                  ∃ m parent, n = S m ∧ Task.parentTaskId task = Some parent
                              ∧ parent ≠ "" ∧ WalkUp tById m parent a) as Hstep.
        { intros n a Hw.
          inversion Hw as [? ? Hl' Ht'|m ? ? parent ? Hl' Ht' Hp' Hne' Hw'];
            subst; rewrite Hl in Hl'; injection Hl' as <-; [congruence|].
          exists m, parent. done. }
        destruct IH as [(d & a & i & Hd & Hdne & Hn & Hi & ->)|[Hno ->]].
        -- intros x n a Hx Hw. apply JSSet_elem_of_add in Hx as [->|Hx].
           ++ destruct (Hstep _ _ Hw) as (m & parent & -> & Hpar & Hne & Hw').
              exists m, parent. rewrite Hpar, truthy_true by done.
              split_and!; try done. lia.
           ++ destruct (Hinv _ _ _ Hx Hw) as (m & c0 & Hlt & [= <-] & _ & Hw0).
              destruct (Hstep _ _ Hw0) as (m' & parent & -> & Hpar & Hne & Hw').
              exists m', parent. rewrite Hpar, truthy_true by done.
              split_and!; try done. lia.
        -- left. exists c, a, i. split_and!; try done.
           destruct (truthy (Task.parentTaskId task)) eqn:Hpt; [|done].
           eapply NearestCarrier_up; [done..| |done|done]. done.
        -- right. split; [|done]. intros c0 a [= <-] _ Hn.
           apply NearestCarrier_WalkUp in Hn as [n Hw].
           destruct (Hstep _ _ Hw) as (m & parent & -> & Hpar & Hne & Hw').
           eapply (Hno parent); [by rewrite Hpar, truthy_true|done|].
           by eapply WalkUp_NearestCarrier.
    + injection Hr as <-. right. split; [|done].
      intros c0 a [= <-] _ Hn. inversion Hn; simplify_eq.
  - injection Hr as <-. right. split; [|done].
    intros c0 a [= <-] Hne Hn.
    apply andb_false_iff in Hgo as [Hc|Hv].
    + by rewrite truthy_true in Hc.
    + apply negb_false_iff, JSSet_has_true in Hv.
      apply NearestCarrier_WalkUp in Hn as [n Hw].
      destruct (Hinv _ _ _ Hv Hw) as (m & c' & Hlt & [= <-] & _ & Hw').
      destruct (WalkUp_det _ _ _ Hw _ _ Hw'). lia.
Qed.

(** Each iteration that goes on adds a task identifier the set did not
    hold: the loop ends within one iteration per task, and one. *)
Lemma findRoot_loop_terminates :
  ∀ fuel visited currentId,
    (length (filter (λ i, i ∉ visited) (Task.id <$> ts)) < fuel)%nat →
    is_Some (findRoot_loop fuel taskAt projectAt visited currentId).
Proof.
  induction fuel as [|fuel IH]; intros visited currentId Hf; [lia|].
  simpl. destruct currentId as [c|]; [|eauto].
  destruct (truthy (Some c) && negb (JSSet.has c visited)) eqn:Hgo; [|eauto].
  apply andb_true_iff in Hgo as [_ Hv].
  apply negb_true_iff, JSSet_has_false in Hv.
  rewrite taskAt_index.
  destruct (tById !! c) as [task|] eqn:Hl; [|eauto].
  destruct (truthy (Task.projectId task)); [eauto|].
  apply IH. rewrite JSSet_add_new by done.
  apply tasksById_Some in Hl as [Hin Hid].
  assert (c ∈ Task.id <$> ts) as Hc by (subst c; by apply list_elem_of_fmap_2).
  pose proof (pending_lt _ _ _ Hc Hv). lia.
Qed.

Lemma findRoot_loop_total taskId :
  is_Some (findRoot_loop (S (length ts)) taskAt projectAt [] (Some taskId)).
Proof.
  apply findRoot_loop_terminates.
  pose proof (length_filter (λ i : string, i ∉ @nil string) (Task.id <$> ts)) as H.
  rewrite length_fmap in H. lia.
Qed.
End findRoot.

(** The loop takes from the two lookups their values only. *)
Lemma findRoot_loop_ext {R} (taskAt taskAt' : string → option Task)
    (projectAt projectAt' : string → option R) :
  (∀ i, taskAt i = taskAt' i) → (∀ k, projectAt k = projectAt' k) →
  ∀ fuel visited currentId,
    findRoot_loop fuel taskAt projectAt visited currentId
    = findRoot_loop fuel taskAt' projectAt' visited currentId.
Proof.
  intros Ht Hp. induction fuel as [|fuel IH]; intros visited currentId; [done|].
  simpl. destruct currentId as [c|]; [|done].
  destruct (_ && _); [|done]. rewrite Ht.
  destruct (taskAt' c) as [task|]; [|done].
  destruct (truthy (Task.projectId task)) eqn:E; [|apply IH].
  destruct (Task.projectId task); simpl; [|done]. by rewrite Hp.
Qed.

(** What is done to the project found can be done to the result. *)
Lemma findRoot_loop_bind {R R'} (g : R → option R')
    (taskAt : string → option Task) (projectAt : string → option R) :
  ∀ fuel visited currentId,
    findRoot_loop fuel taskAt (λ k, projectAt k ≫= g) visited currentId
    = (λ r, r ≫= g) <$> findRoot_loop fuel taskAt projectAt visited currentId.
Proof.
  induction fuel as [|fuel IH]; intros visited currentId; [done|].
  simpl. destruct currentId as [c|]; [|done].
  destruct (_ && _); [|done].
  destruct (taskAt c) as [task|]; [|done].
  destruct (truthy (Task.projectId task)) eqn:E; [|apply IH].
  by destruct (Task.projectId task).
Qed.

Lemma findRoot_loop_eq s taskId :
  findRoot_loop (S (length (Store.tasks s)))
    (λ i, tasksById (Store.tasks s) !! i)
    (λ i, projectsById (Store.projects s) !! i) [] (Some taskId)
  = Some (findRoot s taskId).
Proof.
  unfold findRoot.
  by destruct (findRoot_loop_total (Store.tasks s)
                 (λ i, tasksById (Store.tasks s) !! i)
                 (λ i, projectsById (Store.projects s) !! i)
                 (λ i, eq_refl) taskId) as [r ->].
Qed.

(** *** Plain objects as indexes *)

Lemma PlainObject_entry_set {V} k (v : V) o (m : gmap string V) i :
  PlainObject.entry o i = m !! i →
  PlainObject.entry (PlainObject.set k v o) i = <[k := v]> m !! i.
Proof.
  unfold PlainObject.entry, PlainObject.set. intros H.
  destruct (decide (k = "__proto__")) as [->|Hk]; simpl;
    destruct (decide (i = "__proto__")) as [->|Hi]; simpl.
  - by rewrite lookup_insert_eq.
  - rewrite lookup_insert_ne by done. done.
  - rewrite lookup_insert_ne by done. done.
  - destruct (decide (k = i)) as [->|Hne].
    + by rewrite !lookup_insert_eq.
    + by rewrite !lookup_insert_ne.
Qed.

Lemma PlainObject_entry_fold {V} (key : V → string) (l : list V) :
  ∀ o (m : gmap string V) i,
    PlainObject.entry o i = m !! i →
    PlainObject.entry (foldl (λ acc v, PlainObject.set (key v) v acc) o l) i
    = foldl (λ acc v, <[key v := v]> acc) m l !! i.
Proof.
  induction l as [|v l IH]; intros o m i H; simpl; [done|].
  apply IH. by apply PlainObject_entry_set.
Qed.

(** The tasks a plain object holds are those of the [Map]. *)
Lemma plainTasksById_entry ts i :
  PlainObject.entry (plainTasksById ts) i = tasksById ts !! i.
Proof.
  apply (PlainObject_entry_fold Task.id).
  unfold PlainObject.entry; simpl. rewrite lookup_empty. by case_decide.
Qed.

Lemma plainProjectsById_entry ps i :
  PlainObject.entry (plainProjectsById ps) i = projectsById ps !! i.
Proof.
  apply (PlainObject_entry_fold Project.id).
  unfold PlainObject.entry; simpl. rewrite lookup_empty. by case_decide.
Qed.

(** The projects the plain object gives are those of the [Map]; it also
    gives values that are no project. *)
Lemma projectOrNull_asProject ps k :
  projectOrNull (plainProjectsById ps) k ≫= asProject = projectsById ps !! k.
Proof.
  unfold projectOrNull. rewrite plainProjectsById_entry.
  destruct (projectsById ps !! k); [done|].
  by destruct (PlainObject.inheritsTruthy _ _ _).
Qed.

Lemma projectOrNull_project ps k p :
  projectOrNull (plainProjectsById ps) k = Some (RootProject p)
  ↔ projectsById ps !! k = Some p.
Proof.
  rewrite <- projectOrNull_asProject.
  destruct (projectOrNull _ _) as [[q|]|]; simpl; split; congruence.
Qed.

Lemma projectOrNull_None ps k :
  projectOrNull (plainProjectsById ps) k = None → projectsById ps !! k = None.
Proof. intros H. by rewrite <- projectOrNull_asProject, H. Qed.

Lemma projectOrNull_other ps k :
  projectOrNull (plainProjectsById ps) k = Some RootOther →
  projectsById ps !! k = None.
Proof. intros H. by rewrite <- projectOrNull_asProject, H. Qed.

(** When no project has the identifier ["__proto__"], the values that are
    no project are the properties of [Object.prototype] under the names no
    project has. *)
Lemma projectOrNull_other_iff ps k :
  projectsById ps !! "__proto__" = None →
  projectOrNull (plainProjectsById ps) k = Some RootOther
  ↔ k ∈ PlainObject.prototypeKeys ∧ projectsById ps !! k = None.
Proof.
  intros Hproto. unfold projectOrNull. rewrite plainProjectsById_entry.
  destruct (projectsById ps !! k) as [p|] eqn:Hk; [split; [done|by intros [_ ?]]|].
  unfold PlainObject.inheritsTruthy.
  assert (PlainObject.proto (plainProjectsById ps) = None) as ->.
  { rewrite <- Hproto, <- plainProjectsById_entry. done. }
  destruct (decide (k = "__proto__")) as [->|Hne]; simpl.
  - split; [|done]. intros _. split; [|done].
    unfold PlainObject.prototypeKeys.
    apply (list_elem_of_lookup_2 _ 10%nat). reflexivity.
  - case_bool_decide; split; try done; tauto.
Qed.

Lemma findRootPlain_loop_eq s taskId :
  findRoot_loop (S (length (Store.tasks s)))
    (PlainObject.entry (plainTasksById (Store.tasks s)))
    (projectOrNull (plainProjectsById (Store.projects s))) [] (Some taskId)
  = Some (findRootPlain s taskId).
Proof.
  unfold findRootPlain.
  by destruct (findRoot_loop_total (Store.tasks s)
                 (PlainObject.entry (plainTasksById (Store.tasks s)))
                 (projectOrNull (plainProjectsById (Store.projects s)))
                 (plainTasksById_entry (Store.tasks s)) taskId) as [r ->].
Qed.

(** The loop over the plain objects and the loop over the [Map]s find the
    same project, when the first finds a project. *)
Lemma findRootPlain_findRoot s taskId :
  findRootPlain s taskId ≫= asProject = findRoot s taskId.
Proof.
  pose proof (findRootPlain_loop_eq s taskId) as Hp.
  pose proof (findRoot_loop_eq s taskId) as Hm.
  rewrite (findRoot_loop_ext _
             (PlainObject.entry (plainTasksById (Store.tasks s))) _
             (λ k, projectOrNull (plainProjectsById (Store.projects s)) k
                   ≫= asProject)) in Hm.
  - rewrite findRoot_loop_bind, Hp in Hm. simpl in Hm. by injection Hm.
  - intros i. by rewrite plainTasksById_entry.
  - intros k. by rewrite projectOrNull_asProject.
Qed.

Lemma findRootPlain_project s taskId p :
  findRootPlain s taskId = Some (RootProject p) ↔ findRoot s taskId = Some p.
Proof.
  rewrite <- findRootPlain_findRoot.
  destruct (findRootPlain s taskId) as [[q|]|]; simpl; split; congruence.
Qed.

Lemma ResolvedRoot_det s taskId r r' :
  ResolvedRoot s taskId r → ResolvedRoot s taskId r' → r = r'.
Proof.
  intros [(a & i & Ha & Hi & ->)|[Hno ->]] [(b & j & Hb & Hj & ->)|[Hno' ->]].
  - rewrite (NearestCarrier_det _ _ _ _ Ha Hb) in Hi. congruence.
  - by destruct (Hno' a).
  - by destruct (Hno b).
  - done.
Qed.

(** The loop computes the resolved root of the specification. *)
Lemma findRoot_ResolvedRoot s taskId :
  taskId ≠ "" → ResolvedRoot s taskId (findRoot s taskId).
Proof.
  intros Hne.
  destruct (findRoot_loop_spec (Store.tasks s) _ _ (λ i, eq_refl) _ _ _ _
              (findRoot_loop_eq s taskId))
    as [(c & a & i & [= <-] & _ & Hn & Hi & Hr)|[Hno Hr]].
  - intros x n a Hx. by apply elem_of_nil in Hx.
  - left. eauto.
  - right. split; [|done]. intros a. by apply Hno.
Qed.

Lemma findRoot_spec s taskId r :
  taskId ≠ "" → findRoot s taskId = r ↔ ResolvedRoot s taskId r.
Proof.
  intros Hne. split.
  - intros <-. by apply findRoot_ResolvedRoot.
  - intros Hr. eapply ResolvedRoot_det; [|done]. by apply findRoot_ResolvedRoot.
Qed.

(** The loop over the plain objects gives what the plain object of the
    projects has under the [projectId] of the nearest carrier. *)
Lemma findRootPlain_spec s taskId :
  taskId ≠ "" →
  (∃ a k, NearestCarrier (tasksById (Store.tasks s)) taskId a
          ∧ Task.projectId a = Some k
          ∧ findRootPlain s taskId
            = projectOrNull (plainProjectsById (Store.projects s)) k)
  ∨ ((∀ a, ¬ NearestCarrier (tasksById (Store.tasks s)) taskId a)
     ∧ findRootPlain s taskId = None).
Proof.
  intros Hne.
  destruct (findRoot_loop_spec (Store.tasks s) _ _
              (plainTasksById_entry (Store.tasks s)) _ _ _ _
              (findRootPlain_loop_eq s taskId))
    as [(c & a & i & [= <-] & _ & Hn & Hi & Hr)|[Hno Hr]].
  - intros x n a Hx. by apply elem_of_nil in Hx.
  - left. eauto.
  - right. split; [|done]. intros a. by apply Hno.
Qed.

(** The value is no project exactly when the carrier names an inherited
    key. *)
Lemma findRootPlain_other s taskId :
  taskId ≠ "" →
  findRootPlain s taskId = Some RootOther ↔ NamesInherited s taskId.
Proof.
  intros Hne. unfold NamesInherited.
  destruct (findRootPlain_spec s taskId Hne) as [(a & k & Ha & Hk & ->)|[Hno ->]].
  - split; [eauto|].
    intros (b & j & Hb & Hj & H).
    rewrite (NearestCarrier_det _ _ _ _ Ha Hb) in Hk. congruence.
  - split; [done|]. intros (b & j & Hb & _). by destruct (Hno b).
Qed.

Lemma rootAllows_spec root :
  ProjectsView.rootAllows root = true
  ↔ root = None ∨ ∃ p, root = Some p ∧ Project.status p = InProgress.
Proof.
  destruct root as [p|]; simpl.
  - unfold isInProgress. rewrite bool_decide_eq_true. split.
    + intros H. right. eauto.
    + intros [?|(q & [= <-] & H)]; done.
  - split; [by left|done].
Qed.

(** [TaskPriorityView] allows what the rows allow, but for a value that is
    no project. *)
Lemma rootProjectAllows_spec root :
  ProjectsView.rootProjectAllows root = true
  ↔ ProjectsView.rootAllows (root ≫= asProject) = true ∧ root ≠ Some RootOther.
Proof.
  destruct root as [[p|]|]; simpl; split; try done.
  - by intros [? _].
  - by intros [_ ?].
Qed.

(** The dashboard filter in terms of the loop over the [Map]s. *)
Lemma Dashboard_keep_eq s i :
  Dashboard.keep s i
  = match tasksById (Store.tasks s) !! i with
    | None => false
    | Some a =>
        if truthyFlag (Task.completed a) then false
        else match findRoot s i with
             | Some root => isInProgress root
             | None => false
             end
    end.
Proof.
  unfold Dashboard.keep, Dashboard.findRootProject.
  rewrite plainTasksById_entry, <- findRootPlain_findRoot.
  destruct (tasksById (Store.tasks s) !! i) as [a|]; [|done].
  destruct (truthyFlag (Task.completed a)); [done|].
  by destruct (findRootPlain s i) as [[p|]|].
Qed.

Lemma ProjectsView_keep_spec s i :
  i ≠ "" → ProjectsView.keep s i = true ↔ Eligible s i.
Proof.
  intros Hne. unfold ProjectsView.keep, Eligible.
  destruct (tasksById (Store.tasks s) !! i) as [a|] eqn:Hl.
  - destruct (truthyFlag (Task.completed a)) eqn:Hc.
    + split; [done|]. intros (b & root & [= <-] & Hb & _). congruence.
    + rewrite rootAllows_spec. split.
      * intros H. exists a, (findRoot s i). split_and!; try done.
        by apply findRoot_ResolvedRoot.
      * intros (b & root & _ & _ & Hr & H).
        by rewrite (proj2 (findRoot_spec s i root Hne) Hr).
  - split; [done|]. by intros (b & root & ? & _).
Qed.

Lemma Dashboard_keep_spec s i :
  i ≠ "" → Dashboard.keep s i = true ↔ EligibleLinked s i.
Proof.
  intros Hne. rewrite Dashboard_keep_eq. unfold EligibleLinked.
  destruct (tasksById (Store.tasks s) !! i) as [a|] eqn:Hl.
  - destruct (truthyFlag (Task.completed a)) eqn:Hc.
    + split; [done|]. intros (b & p & [= <-] & Hb & _). congruence.
    + pose proof (findRoot_ResolvedRoot s i Hne) as Hroot.
      destruct (findRoot s i) as [root|] eqn:Hf.
      * unfold isInProgress. rewrite bool_decide_eq_true. split.
        -- intros H. exists a, root. done.
        -- intros (b & p & _ & _ & Hr & H).
           pose proof (ResolvedRoot_det _ _ _ _ Hroot Hr) as Heq.
           by injection Heq as ->.
      * split; [done|]. intros (b & p & _ & _ & Hr & _).
        by pose proof (ResolvedRoot_det _ _ _ _ Hroot Hr).
  - split; [done|]. by intros (b & p & ? & _).
Qed.

(** The filter of [TaskPriorityView] on a task. *)
Lemma tasksForPrioritization_spec s a :
  Task.id a ≠ "" →
  a ∈ ProjectsView.tasksForPrioritization s
  ↔ a ∈ Store.tasks s
    ∧ truthyFlag (Task.completed a) = false
    ∧ (∃ root, ResolvedRoot s (Task.id a) root
               ∧ (root = None
                  ∨ ∃ p, root = Some p ∧ Project.status p = InProgress))
    ∧ ¬ NamesInherited s (Task.id a).
Proof.
  intros Hne. unfold ProjectsView.tasksForPrioritization.
  unfold ProjectsView.findRootProjectForTask.
  rewrite list_elem_of_filter.
  destruct (truthyFlag (Task.completed a)) eqn:Hc.
  - split; [by intros [? _]|by intros (_ & ? & _)].
  - rewrite rootProjectAllows_spec, findRootPlain_findRoot, rootAllows_spec.
    rewrite <- (findRootPlain_other s _ Hne). split.
    + intros [[H Hno] Ha]. split_and!; try done.
      exists (findRoot s (Task.id a)). split; [|done].
      by apply findRoot_ResolvedRoot.
    + intros (Ha & _ & (root & Hr & H) & Hno). split; [|done]. split; [|done].
      by rewrite (proj2 (findRoot_spec s _ root Hne) Hr).
Qed.

(** C5, as the code has it. For a stored prioritized identifier that is not
    empty: the project rows of [ProjectsView] display it if and only if it is
    eligible (its task exists, is not completed, and its resolved root is
    null or a project in progress); the dashboard displays it if and only
    if, moreover, the resolved root is not null; [TaskPriorityView] lists a
    task with the identifier if and only if it is eligible and the nearest
    task carrying a [projectId] does not name a key that the plain object of
    the projects inherits, such as "constructor". *)
Theorem priority_display_eligibility s i :
  i ≠ "" →
  i ∈ Store.prioritizedTaskIds s →
  (i ∈ ProjectsView.prioritizedDisplayOrder s ↔ Eligible s i)
  ∧ (i ∈ Dashboard.filteredPrioritized s ↔ EligibleLinked s i)
  ∧ (∀ a, Task.id a = i →
       a ∈ ProjectsView.tasksForPrioritization s
       ↔ a ∈ Store.tasks s
         ∧ truthyFlag (Task.completed a) = false
         ∧ (∃ root, ResolvedRoot s i root
                    ∧ (root = None
                       ∨ ∃ p, root = Some p ∧ Project.status p = InProgress))
         ∧ ¬ NamesInherited s i).
Proof.
  intros Hne Hin. split_and!.
  - unfold ProjectsView.prioritizedDisplayOrder.
    rewrite list_elem_of_filter, JSSet_elem_of_from, ProjectsView_keep_spec by done.
    tauto.
  - unfold Dashboard.filteredPrioritized.
    rewrite list_elem_of_filter, Dashboard_keep_spec by done. tauto.
  - intros a <-. by apply tasksForPrioritization_spec.
Qed.

(** The task "c1" of [layoutStore] is under a task of a project in
    progress: the rows, the dashboard and [TaskPriorityView] have it. In
    [protoStore] the rows display the tasks without project, the dashboard
    the one task of the project, and [TaskPriorityView] leaves out the two
    tasks that name a truthy value the plain object inherits. *)
Lemma priority_display_eligibility_witness :
  ("c1" ∈ ProjectsView.prioritizedDisplayOrder layoutStore
   ↔ Eligible layoutStore "c1")
  ∧ "c1" ∈ ProjectsView.prioritizedDisplayOrder layoutStore
  ∧ "c1" ∈ Dashboard.filteredPrioritized layoutStore
  ∧ mkTask "c1" "A" false None (Some "r1")
    ∈ ProjectsView.tasksForPrioritization layoutStore
  ∧ ProjectsView.prioritizedDisplayOrder protoStore = ["a"; "b"; "c"; "d"; "e"]
  ∧ Dashboard.filteredPrioritized protoStore = ["a"]
  ∧ Task.id <$> ProjectsView.tasksForPrioritization protoStore = ["a"; "c"; "e"].
Proof.
  assert ("c1" ≠ "") as Hne by discriminate.
  assert ("c1" ∈ Store.prioritizedTaskIds layoutStore) as Hin
    by (repeat constructor).
  pose proof (priority_display_eligibility layoutStore "c1" Hne Hin)
    as (Hrows & _ & _).
  split_and!.
  - exact Hrows.
  - apply (bool_decide_unpack _). vm_compute. exact I.
  - apply (bool_decide_unpack _). vm_compute. exact I.
  - apply (list_elem_of_lookup_2 _ 4%nat). vm_compute. reflexivity.
  - reflexivity.
  - reflexivity.
  - reflexivity.
Defined.

(** Three states on which the claim fails. An unlinked task, not completed,
    in the priority list: it is eligible, and the dashboard leaves it out. A
    task of the project "constructor", which does not exist: it is eligible,
    its root being null, and [TaskPriorityView] leaves it out. A task with
    the empty identifier, in a completed project: it is not eligible, and
    the rows display it. *)
Lemma priority_display_counterexamples :
  ¬ ("u" ∈ Dashboard.filteredPrioritized layoutStore ↔ Eligible layoutStore "u")
  ∧ ¬ ((∃ a, a ∈ ProjectsView.tasksForPrioritization inheritedKeyStore
             ∧ Task.id a = "k")
       ↔ Eligible inheritedKeyStore "k")
  ∧ ¬ ("" ∈ ProjectsView.prioritizedDisplayOrder emptyIdStore
       ↔ Eligible emptyIdStore "").
Proof.
  split_and!.
  - intros [_ H].
    assert (Eligible layoutStore "u") as He.
    { apply ProjectsView_keep_spec; [discriminate|]. vm_compute. reflexivity. }
    apply H in He.
    change (Dashboard.filteredPrioritized layoutStore) with ["c1"] in He.
    apply list_elem_of_singleton in He. discriminate.
  - intros [_ H].
    assert (Eligible inheritedKeyStore "k") as He.
    { apply ProjectsView_keep_spec; [discriminate|]. vm_compute. reflexivity. }
    apply H in He as (a & Ha & _).
    change (ProjectsView.tasksForPrioritization inheritedKeyStore)
      with (@nil Task) in Ha.
    by apply elem_of_nil in Ha.
  - intros [H _].
    assert ("" ∈ ProjectsView.prioritizedDisplayOrder emptyIdStore) as Hd.
    { change (ProjectsView.prioritizedDisplayOrder emptyIdStore) with [""].
      apply list_elem_of_here. }
    apply H in Hd as (a & root & Ha & _ & Hr & Hroot).
    assert (ResolvedRoot emptyIdStore ""
              (Some (mkProject "p" Completed [mkTask "" "E" false (Some "p") None])))
      as Hr'.
    { left. exists (mkTask "" "E" false (Some "p") None), "p".
      split_and!; [|reflexivity|reflexivity].
      apply NearestCarrier_here; reflexivity. }
    rewrite (ResolvedRoot_det _ _ _ _ Hr Hr') in Hroot.
    destruct Hroot as [?|(p & [= <-] & Hp)]; discriminate.
Qed.

(** ** The layout engine *)

Lemma childrenByParent_fold ts : ∀ (m : gmap string (list Task)) p,
  default [] (foldl (λ m a,
                       match Task.parentTaskId a with
                       | Some q =>
                           if truthy (Some q)
                           then <[q := default [] (m !! q) ++ [a]]> m else m
                       | None => m
                       end) m ts !! p)
  = default [] (m !! p) ++ (if truthy (Some p) then childrenOf ts p else []).
Proof.
  unfold childrenOf.
  induction ts as [|a ts IH]; intros m p; simpl.
  - destruct (bool_decide _); by rewrite app_nil_r.
  - rewrite IH, filter_cons. clear IH.
    destruct (Task.parentTaskId a) as [q|] eqn:Hq.
    + destruct (decide (q = p)) as [->|Hne].
      * rewrite decide_True by done. simpl.
        destruct (bool_decide (p ≠ "")); [|done].
        rewrite lookup_insert_eq. simpl. by rewrite <- app_assoc.
      * rewrite decide_False by congruence. unfold truthy.
        destruct (bool_decide (q ≠ "")); [|done]. by rewrite lookup_insert_ne.
    + by rewrite decide_False by done.
Qed.

(** The adjacency list of a parent is its children in the order of the flat
    list. *)
Lemma childrenByParent_lookup ts p :
  default [] (childrenByParent ts !! p)
  = if truthy (Some p) then childrenOf ts p else [].
Proof. unfold childrenByParent. by rewrite childrenByParent_fold, lookup_empty. Qed.

Lemma insertBy_Permutation {A} (cmp : A → A → Z) x l :
  insertBy cmp x l ≡ₚ x :: l.
Proof.
  induction l as [|y l IH]; simpl; [done|].
  destruct (cmp x y <=? 0); [done|]. rewrite IH. apply Permutation_swap.
Qed.

Lemma jsSort_Permutation {A} (cmp : A → A → Z) l : jsSort cmp l ≡ₚ l.
Proof.
  induction l as [|x l IH]; simpl; [done|].
  by rewrite insertBy_Permutation, IH.
Qed.

Lemma sortedChildrenOf_lookup cmp ts p :
  default [] (sortedChildrenOf cmp ts !! p)
  = jsSort (taskSorter cmp) (if truthy (Some p) then childrenOf ts p else []).
Proof.
  unfold sortedChildrenOf. rewrite lookup_fmap, <- childrenByParent_lookup.
  by destruct (childrenByParent ts !! p).
Qed.

Lemma NoDup_ids (ts : list Task) : NoDup (Task.id <$> ts) → NoDup ts.
Proof. apply NoDup_fmap_1. Qed.

Lemma unique_task (ts : list Task) a b :
  NoDup (Task.id <$> ts) → a ∈ ts → b ∈ ts → Task.id a = Task.id b → a = b.
Proof.
  intros Hn Ha Hb Hid.
  apply list_elem_of_lookup in Ha as [i Hi]. apply list_elem_of_lookup in Hb as [j Hj].
  assert (i = j) as ->; [|congruence].
  eapply NoDup_lookup; [done| |]; rewrite list_lookup_fmap.
  - by rewrite Hi.
  - rewrite Hj. simpl. by rewrite Hid.
Qed.

Section layout_facts.
Variable cmp : string → string → Z.
Variable projectId : string.
Variable ts : list Task.
Hypothesis unique : NoDup (Task.id <$> ts).

Let kids := projectKids cmp projectId ts.

Lemma projectKids_elem k i :
  k ∈ kids i →
  k ∈ ts ∧ Task.parentTaskId k = Some i ∧ i ≠ "".
Proof.
  unfold kids, projectKids, kidsOf. intros Hk.
  apply list_elem_of_filter in Hk as [_ Hk].
  rewrite sortedChildrenOf_lookup, jsSort_Permutation in Hk.
  destruct (truthy (Some i)) eqn:Hi; [|by apply elem_of_nil in Hk].
  apply truthy_Some in Hi as (? & [= <-] & Hi).
  apply childrenOf_spec in Hk as [? ?]. done.
Qed.

Lemma projectKids_NoDup i : NoDup (kids i).
Proof.
  unfold kids, projectKids, kidsOf. apply NoDup_filter.
  rewrite sortedChildrenOf_lookup, jsSort_Permutation.
  destruct (truthy (Some i)); [|apply NoDup_nil_2].
  unfold childrenOf. by apply NoDup_filter, NoDup_ids.
Qed.

Lemma sortedRoots_elem r :
  r ∈ sortedRootsOf cmp projectId ts →
  r ∈ ts ∧ Task.projectId r = Some projectId
  ∧ truthy (Task.parentTaskId r) = false.
Proof.
  unfold sortedRootsOf, rootsOf. rewrite jsSort_Permutation.
  intros [[? ?] ?]%list_elem_of_filter. done.
Qed.

Lemma sortedRoots_NoDup : NoDup (sortedRootsOf cmp projectId ts).
Proof.
  unfold sortedRootsOf, rootsOf. rewrite jsSort_Permutation.
  by apply NoDup_filter, NoDup_ids.
Qed.
End layout_facts.

(** *** The set of the project's tasks is always computed *)

Lemma pending_mono (l v v' : list string) :
  (∀ x, x ∈ v → x ∈ v') →
  (length (filter (λ i, i ∉ v') l) ≤ length (filter (λ i, i ∉ v) l))%nat.
Proof.
  intros Hsub. induction l as [|a l IH]; simpl; [done|].
  rewrite !filter_cons.
  destruct (decide (a ∉ v')) as [H1|H1], (decide (a ∉ v)) as [H2|H2];
    simpl; try lia.
  exfalso. apply H2. intros Hin. apply H1. auto.
Qed.

Section collect.
Variable ts : list Task.

Let pending (set : list string) : nat :=
  length (filter (λ i, i ∉ set) (Task.id <$> ts)).

Lemma childrenByParent_elem p k :
  k ∈ default [] (childrenByParent ts !! p) → k ∈ ts.
Proof.
  rewrite childrenByParent_lookup. destruct (truthy (Some p)).
  - by intros [? _]%childrenOf_spec.
  - by intros ?%elem_of_nil.
Qed.

Lemma collect_fold fuel :
  (∀ task set, task ∈ ts → (pending set < fuel)%nat →
     ∃ set', collectDescendants fuel (childrenByParent ts) task set = Some set'
             ∧ ∀ x, x ∈ set → x ∈ set') →
  ∀ kids set, (∀ k, k ∈ kids → k ∈ ts) → (pending set < fuel)%nat →
    ∃ set', foldl (λ acc k, acc ≫= collectDescendants fuel (childrenByParent ts) k)
              (Some set) kids = Some set'
            ∧ ∀ x, x ∈ set → x ∈ set'.
Proof.
  intros Hcall. induction kids as [|k kids IH]; intros set Hk Hf; simpl.
  - eauto.
  - destruct (Hcall k set) as (set1 & -> & Hsub1); [apply Hk; left|done|].
    destruct (IH set1) as (set2 & -> & Hsub2).
    + intros k' Hk'. apply Hk. by right.
    + pose proof (pending_mono (Task.id <$> ts) set set1 Hsub1).
      unfold pending in *. lia.
    + eauto.
Qed.

(** A call that does not return at once adds an identifier the set did not
    hold; the nesting of the calls is bounded by the identifiers left. *)
Lemma collectDescendants_terminates :
  ∀ fuel task set, task ∈ ts → (pending set < fuel)%nat →
    ∃ set', collectDescendants fuel (childrenByParent ts) task set = Some set'
            ∧ ∀ x, x ∈ set → x ∈ set'.
Proof.
  induction fuel as [|fuel IH]; intros task set Ht Hf; [lia|].
  simpl. destruct (JSSet.has (Task.id task) set) eqn:Hhas; [eauto|].
  apply JSSet_has_false in Hhas.
  rewrite JSSet_add_new by done.
  assert (Task.id task ∈ Task.id <$> ts) as Hid by (by apply list_elem_of_fmap_2).
  pose proof (pending_lt _ _ _ Hid Hhas) as Hlt.
  destruct (collect_fold fuel IH (default [] (childrenByParent ts !! Task.id task))
              (set ++ [Task.id task])) as (set' & -> & Hsub).
  - intros k. apply childrenByParent_elem.
  - unfold pending in *. lia.
  - exists set'. split; [done|]. intros x Hx. apply Hsub, elem_of_app. by left.
Qed.

Lemma inProjectSetOf_total projectId :
  is_Some (inProjectSetOf projectId ts).
Proof.
  unfold inProjectSetOf.
  destruct (collect_fold (layoutFuel ts)
              (collectDescendants_terminates (layoutFuel ts))
              (rootsOf projectId ts) []) as (set' & -> & _); [| |eauto].
  - intros k. unfold rootsOf. by intros [_ ?]%list_elem_of_filter.
  - unfold pending, layoutFuel.
    pose proof (length_filter (λ i : string, i ∉ @nil string) (Task.id <$> ts)) as H.
    rewrite length_fmap in H. lia.
Qed.
End collect.

(** *** Chains of parents are short when identifiers are unique *)

Section uppath.
Variable cmp : string → string → Z.
Variable projectId : string.
Variable ts : list Task.
Hypothesis unique : NoDup (Task.id <$> ts).

Lemma UpPath_det i l :
  UpPath ts i l → ∀ j l', UpPath ts j l' → i = j → l = l'.
Proof.
  induction 1 as [r Hr Hp|k p l Hk Hp Hne Hup IH];
    intros j l' Hup'; destruct Hup' as [r' Hr' Hp'|k' p' l' Hk' Hp' Hne' Hup'];
    intros Hid.
  - by rewrite Hid.
  - rewrite (unique_task ts r k' unique Hr Hk' Hid) in Hp.
    rewrite Hp', truthy_true in Hp; done.
  - rewrite (unique_task ts k r' unique Hk Hr' Hid) in Hp.
    rewrite Hp, truthy_true in Hp'; done.
  - rewrite (unique_task ts k k' unique Hk Hk' Hid) in Hp |- *.
    rewrite Hp in Hp'. injection Hp' as <-.
    f_equal. by eapply IH.
Qed.

Lemma UpPath_suffix i l :
  UpPath ts i l → ∀ x, x ∈ l →
    ∃ l2, UpPath ts x l2 ∧ (length l2 ≤ length l)%nat.
Proof.
  induction 1 as [r Hr Hp|k p l Hk Hp Hne Hup IH]; intros x Hx.
  - apply list_elem_of_singleton in Hx as ->.
    exists [Task.id r]. split; [by apply UpPath_root|done].
  - apply elem_of_cons in Hx as [->|Hx].
    + exists (Task.id k :: l). split; [by eapply UpPath_child|done].
    + destruct (IH x Hx) as (l2 & H2 & Hlen). exists l2. split; [done|].
      simpl. lia.
Qed.

Lemma UpPath_NoDup i l : UpPath ts i l → NoDup l.
Proof.
  induction 1 as [r Hr Hp|k p l Hk Hp Hne Hup IH]; [apply NoDup_singleton|].
  apply NoDup_cons. split; [|done]. intros Hin.
  destruct (UpPath_suffix _ _ Hup _ Hin) as (l2 & H2 & Hlen).
  assert (UpPath ts (Task.id k) (Task.id k :: l)) as H1 by (by eapply UpPath_child).
  rewrite (UpPath_det _ _ H2 _ _ H1 eq_refl) in Hlen. simpl in Hlen. lia.
Qed.

Lemma UpPath_ids i l : UpPath ts i l → ∀ x, x ∈ l → x ∈ Task.id <$> ts.
Proof.
  induction 1 as [r Hr Hp|k p l Hk Hp Hne Hup IH]; intros x Hx.
  - apply list_elem_of_singleton in Hx as ->. by apply list_elem_of_fmap_2.
  - apply elem_of_cons in Hx as [->|Hx]; [by apply list_elem_of_fmap_2|auto].
Qed.

Lemma UpPath_length i l : UpPath ts i l → (length l ≤ length ts)%nat.
Proof.
  intros Hup. rewrite <- (length_fmap Task.id ts).
  apply submseteq_length, NoDup_submseteq; [by eapply UpPath_NoDup|].
  by eapply UpPath_ids.
Qed.

Lemma UpPath_kid i l k :
  UpPath ts i l → k ∈ projectKids cmp projectId ts i →
  UpPath ts (Task.id k) (Task.id k :: l).
Proof.
  intros Hup (Hk & Hp & Hne)%projectKids_elem. by eapply UpPath_child.
Qed.

Lemma UpPath_sortedRoot r :
  r ∈ sortedRootsOf cmp projectId ts → UpPath ts (Task.id r) [Task.id r].
Proof. intros (Hr & _ & Hp)%sortedRoots_elem. by apply UpPath_root. Qed.
End uppath.

(** *** Rows of a subtree *)

Lemma foldl_None {A B} (f : option A → B → option A) (l : list B) :
  (∀ b, f None b = None) → foldl f None l = None.
Proof. intros Hf. induction l as [|b l IH]; simpl; [done|]. by rewrite Hf. Qed.

Section rows_facts.
Variable cmp : string → string → Z.
Variable projectId : string.
Variable ts : list Task.
Hypothesis unique : NoDup (Task.id <$> ts).

Let kids := projectKids cmp projectId ts.
Let rowsN := subtreeRows cmp projectId ts.
Let rowsOf := rows cmp projectId ts.
Let sum := sumRows cmp projectId ts.
Let step (n : nat) := λ (acc : option Z) (k : Task),
  s ← acc; v ← rowsN n (Task.id k); Some (s + v).

Lemma subtreeRows_unfold n i :
  rowsN (S n) i
  = match kids i with
    | [] => Some 1
    | k :: ks => foldl (step n) (Some 0) (k :: ks)
    end.
Proof. reflexivity. Qed.

Lemma step_fold_mono n m ks :
  (∀ k v, k ∈ ks → rowsN n (Task.id k) = Some v → rowsN m (Task.id k) = Some v) →
  ∀ acc r, foldl (step n) (Some acc) ks = Some r →
           foldl (step m) (Some acc) ks = Some r.
Proof.
  induction ks as [|k ks IH]; intros Hk acc r; simpl; [done|].
  destruct (rowsN n (Task.id k)) as [v|] eqn:Hv; simpl.
  - rewrite (Hk k v) by (done || left). simpl. apply IH.
    intros k' v' Hin. apply Hk. by right.
  - by rewrite foldl_None.
Qed.

Lemma subtreeRows_mono : ∀ n i v,
  rowsN n i = Some v → ∀ m, (n ≤ m)%nat → rowsN m i = Some v.
Proof.
  induction n as [|n IH]; intros i v Hv m Hle; [done|].
  destruct m as [|m]; [lia|].
  rewrite subtreeRows_unfold in *. destruct (kids i) as [|k ks]; [done|].
  eapply step_fold_mono; [|done]. intros k' v' _ Hv'. apply IH; [done|lia].
Qed.

Lemma step_fold_total n ks :
  (∀ k, k ∈ ks → is_Some (rowsN n (Task.id k))) →
  ∀ acc, is_Some (foldl (step n) (Some acc) ks).
Proof.
  induction ks as [|k ks IH]; intros Hk acc; simpl; [eauto|].
  destruct (Hk k) as [v ->]; [left|]. simpl. apply IH.
  intros k' Hin. apply Hk. by right.
Qed.

(** With unique identifiers the subtree below a task that has a chain of
    [length l] parents is at most [length ts - length l] high. *)
Lemma subtreeRows_total : ∀ n i l,
  UpPath ts i l → (length ts < n + length l)%nat → is_Some (rowsN n i).
Proof.
  induction n as [|n IH]; intros i l Hup Hlen.
  - pose proof (UpPath_length ts unique _ _ Hup). lia.
  - rewrite subtreeRows_unfold. destruct (kids i) as [|k ks] eqn:Hk; [eauto|].
    apply step_fold_total. intros k' Hin.
    apply (IH _ (Task.id k' :: l)); [|simpl; lia].
    eapply (UpPath_kid cmp projectId); [exact Hup|].
    change (k' ∈ kids i). by rewrite Hk.
Qed.

Lemma subtreeRows_rows n i l :
  UpPath ts i l → (length ts < n + length l)%nat → rowsN n i = Some (rowsOf i).
Proof.
  intros Hup Hlen.
  destruct (subtreeRows_total n i l Hup Hlen) as [v Hv].
  destruct (subtreeRows_total (layoutFuel ts) i l Hup) as [v' Hv'].
  { pose proof (UpPath_length ts unique _ _ Hup).
    destruct l; simpl in *; unfold layoutFuel; lia. }
  unfold rowsOf, rows. fold rowsN. rewrite Hv'. simpl.
  pose proof (subtreeRows_mono _ _ _ Hv (n `max` layoutFuel ts)%nat) as H1.
  pose proof (subtreeRows_mono _ _ _ Hv' (n `max` layoutFuel ts)%nat) as H2.
  rewrite H1 in H2 by lia. rewrite Hv. f_equal.
  assert (Some v = Some v') as [= ->] by (apply H2; lia). done.
Qed.

Lemma step_fold_sum n ks :
  (∀ k, k ∈ ks → rowsN n (Task.id k) = Some (rowsOf (Task.id k))) →
  ∀ acc, foldl (step n) (Some acc) ks = Some (acc + sum ks).
Proof.
  induction ks as [|k ks IH]; intros Hk acc; simpl.
  - f_equal. unfold sum, sumRows, bandAfter. simpl. lia.
  - rewrite Hk by left. simpl. rewrite IH by (intros k' ?; apply Hk; by right).
    f_equal. unfold sum, sumRows, bandAfter. simpl. fold rowsOf. lia.
Qed.

(** [rows] is what the specification says: 1 for a leaf, else the sum over
    the children. *)
Lemma rows_unfold i l :
  UpPath ts i l →
  rowsOf i = match kids i with
             | [] => 1
             | k :: ks => sum (k :: ks)
             end.
Proof.
  intros Hup.
  assert (rowsN (S (length ts)) i = Some (rowsOf i)) as Hr.
  { eapply subtreeRows_rows; [done|]. destruct l; simpl; lia. }
  rewrite subtreeRows_unfold in Hr.
  destruct (kids i) as [|k ks] eqn:Hk; [by injection Hr|].
  rewrite step_fold_sum in Hr; [injection Hr as Hr; by rewrite Z.add_0_l in Hr|].
  intros k' Hin. apply (subtreeRows_rows _ _ (Task.id k' :: l)); [|simpl; lia].
  eapply (UpPath_kid cmp projectId); [exact Hup|].
    change (k' ∈ kids i). by rewrite Hk.
Qed.

Lemma step_fold_ge n ks :
  (∀ k v, k ∈ ks → rowsN n (Task.id k) = Some v → 1 ≤ v) →
  ∀ acc r, foldl (step n) (Some acc) ks = Some r →
           acc + Z.of_nat (length ks) ≤ r.
Proof.
  induction ks as [|k ks IH]; intros Hk acc r; simpl.
  - intros [= <-]. lia.
  - destruct (rowsN n (Task.id k)) as [v|] eqn:Hv; simpl.
    + intros Hr. apply IH in Hr; [|intros k' v' ?; apply Hk; by right].
      pose proof (Hk k v (list_elem_of_here _ _) Hv). lia.
    + by rewrite foldl_None.
Qed.

Lemma subtreeRows_ge1 : ∀ n i v, rowsN n i = Some v → 1 ≤ v.
Proof.
  induction n as [|n IH]; intros i v Hv; [done|].
  rewrite subtreeRows_unfold in Hv. destruct (kids i) as [|k ks].
  - injection Hv as <-. lia.
  - apply step_fold_ge in Hv; [simpl in Hv; lia|].
    intros k' v' _. apply IH.
Qed.

Lemma rows_ge1 i : 1 ≤ rowsOf i.
Proof.
  unfold rowsOf, rows. fold rowsN.
  destruct (rowsN (layoutFuel ts) i) as [v|] eqn:Hv; simpl; [|lia].
  by eapply subtreeRows_ge1.
Qed.

(** *** [getSubtreeRows] and its cache *)

Let sorted := sortedChildrenOf cmp ts.
Let inSet := default [] (inProjectSetOf projectId ts).

Let CacheOK := CacheOK cmp projectId ts.

Lemma CacheOK_insert cache i :
  CacheOK cache → CacheOK (<[i := rowsOf i]> cache).
Proof.
  intros Hc j v. destruct (decide (i = j)) as [->|Hne].
  - rewrite lookup_insert_eq. by intros [= <-].
  - rewrite lookup_insert_ne by done. apply Hc.
Qed.

Lemma getSubtreeRows_fold fuel ks :
  (∀ k cache, k ∈ ks → CacheOK cache →
     ∃ c', getSubtreeRows sorted inSet fuel (Task.id k) cache
           = Some (rowsOf (Task.id k), c') ∧ CacheOK c') →
  ∀ acc cache, CacheOK cache →
    ∃ c', foldl (λ acc k,
                   a ← acc;
                   v ← getSubtreeRows sorted inSet fuel (Task.id k) (snd a);
                   Some (fst a + fst v, snd v))
            (Some (acc, cache)) ks = Some (acc + sum ks, c')
          ∧ CacheOK c'.
Proof.
  induction ks as [|k ks IH]; intros Hk acc cache Hc; simpl.
  - exists cache. split; [|done]. do 2 f_equal. unfold sum, sumRows, bandAfter. simpl. lia.
  - destruct (Hk k cache) as (c1 & -> & Hc1); [left|done|]. simpl.
    destruct (IH (λ k' c Hin, Hk k' c (list_elem_of_further _ _ _ Hin))
                (acc + rowsOf (Task.id k)) c1 Hc1) as (c2 & -> & Hc2).
    exists c2. split; [|done]. do 2 f_equal.
    unfold sum, sumRows, bandAfter. simpl. fold rowsOf. lia.
Qed.

(** The cached function returns [rows], whatever correct cache it starts
    from, and leaves a correct cache. *)
Lemma getSubtreeRows_unfold fuel i cache :
  getSubtreeRows sorted inSet (S fuel) i cache
  = match cache !! i with
    | Some v => Some (v, cache)
    | None =>
        if bool_decide (length (kids i) = 0%nat)
        then Some (1, <[i := 1]> cache)
        else
          r ← foldl (λ acc k,
                       a ← acc;
                       v ← getSubtreeRows sorted inSet fuel (Task.id k) (snd a);
                       Some (fst a + fst v, snd v))
                 (Some (0, cache)) (kids i);
          Some (Z.max (fst r) 1, <[i := Z.max (fst r) 1]> (snd r))
    end.
Proof. reflexivity. Qed.

Lemma getSubtreeRows_spec : ∀ fuel i l cache,
  UpPath ts i l → (length ts < fuel + length l)%nat → CacheOK cache →
  ∃ c', getSubtreeRows sorted inSet fuel i cache = Some (rowsOf i, c')
        ∧ CacheOK c'.
Proof.
  induction fuel as [|fuel IH]; intros i l cache Hup Hlen Hc.
  - pose proof (UpPath_length ts unique _ _ Hup). lia.
  - rewrite getSubtreeRows_unfold. destruct (cache !! i) as [v|] eqn:Hv.
    { rewrite (Hc _ _ Hv). eauto. }
    pose proof (rows_unfold i l Hup) as Hrows.
    pose proof (rows_ge1 i) as Hge.
    destruct (kids i) as [|k ks] eqn:Hk.
    + rewrite bool_decide_eq_true_2 by done.
      rewrite <- Hrows. eexists. split; [done|]. by apply CacheOK_insert.
    + rewrite bool_decide_eq_false_2 by done.
      destruct (getSubtreeRows_fold fuel (k :: ks)) with (acc := 0) (cache := cache)
        as (c' & Hfold & Hc'); [|done|].
      { intros k' c Hin Hcc. apply (IH _ (Task.id k' :: l)); [|simpl; lia|done].
        eapply (UpPath_kid cmp projectId); [exact Hup|].
        change (k' ∈ kids i). by rewrite Hk. }
      rewrite Hfold, Z.add_0_l, <- Hrows. simpl.
      rewrite Z.max_l by lia.
      eexists. split; [done|]. by apply CacheOK_insert.
Qed.
End rows_facts.

(** *** [assign] lays out a subtree *)

Lemma app_cons_unique {A} (l1 l1' l2 l2' : list A) x :
  NoDup (l1 ++ x :: l2) → l1 ++ x :: l2 = l1' ++ x :: l2' → l1 = l1'.
Proof.
  revert l1'. induction l1 as [|a l1 IH]; intros l1' Hn Heq.
  - destruct l1' as [|a' l1']; [done|]. simpl in *. injection Heq as <- Heq.
    apply NoDup_cons in Hn as [Hx _]. destruct Hx. rewrite Heq.
    apply elem_of_app. right. left.
  - destruct l1' as [|a' l1']; simpl in *; injection Heq as <- Heq.
    + apply NoDup_cons in Hn as [Hx _]. destruct Hx.
      apply elem_of_app. right. left.
    + f_equal. apply IH; [|done]. by apply NoDup_cons in Hn as [_ ?].
Qed.

Section assign_facts.
Variable cmp : string → string → Z.
Variable projectId : string.
Variable ts : list Task.
Hypothesis unique : NoDup (Task.id <$> ts).

Let kids := projectKids cmp projectId ts.
Let rowsOf := rows cmp projectId ts.
Let band := bandAfter cmp projectId ts.
Let entry := entryOf cmp projectId ts.
Let PF := PlacedFrom cmp projectId ts.
Let CacheOK := CacheOK cmp projectId ts.
Let sorted := sortedChildrenOf cmp ts.
Let inSet := default [] (inProjectSetOf projectId ts).
Let F := layoutFuel ts.

Lemma band_app gap l1 l2 : band gap (l1 ++ l2) = band gap l1 + band gap l2.
Proof.
  unfold band, bandAfter. induction l1 as [|a l1 IH]; simpl; [done|].
  rewrite IH. lia.
Qed.

Lemma band_snoc gap l k :
  band gap (l ++ [k]) = band gap l + (rowsOf (Task.id k) + gap).
Proof. rewrite band_app. unfold band, bandAfter. simpl. fold rowsOf. lia. Qed.

(** What a call [assign(a, d, b)] leaves: a correct cache; entries that
    were there or that it wrote for a task of the subtree; an entry for
    every task of the subtree; no entry lost. *)
Let AssignPost (a : Task) (d b : Z) (st st' : LayoutState) : Prop :=
  CacheOK (subtreeSizeCache st')
  ∧ (∀ i rd, rowDepthById st' !! i = Some rd →
       rowDepthById st !! i = Some rd
       ∨ ∃ a' d' b', PF a d b a' d' b' ∧ Task.id a' = i ∧ rd = entry a' d' b')
  ∧ (∀ a' d' b', PF a d b a' d' b' → is_Some (rowDepthById st' !! Task.id a'))
  ∧ (∀ i, is_Some (rowDepthById st !! i) → is_Some (rowDepthById st' !! i)).

(** The same for a loop that stacks the bands of [todo] after those of
    [done], [gap] rows apart, from row [base]. *)
Let StackPost (dep gap base : Z) (done todo : list Task)
    (st st' : LayoutState) : Prop :=
  CacheOK (subtreeSizeCache st')
  ∧ (∀ i rd, rowDepthById st' !! i = Some rd →
       rowDepthById st !! i = Some rd
       ∨ ∃ bf k af a' d' b',
           todo = bf ++ k :: af
           ∧ PF k dep (base + band gap (done ++ bf)) a' d' b'
           ∧ Task.id a' = i ∧ rd = entry a' d' b')
  ∧ (∀ bf k af a' d' b',
       todo = bf ++ k :: af →
       PF k dep (base + band gap (done ++ bf)) a' d' b' →
       is_Some (rowDepthById st' !! Task.id a'))
  ∧ (∀ i, is_Some (rowDepthById st !! i) → is_Some (rowDepthById st' !! i)).

Lemma stack_spec n dep gap base all
    (f : option (LayoutState * Z) → Task → option (LayoutState * Z)) :
  (∀ st s k,
     f (Some (st, s)) k
     = need ← getSubtreeRows sorted inSet F (Task.id k) (subtreeSizeCache st);
       st' ← assign sorted inSet n F k dep s
               (Build_LayoutState (snd need) (rowDepthById st));
       Some (st', s + (fst need + gap))) →
  (∀ k cache, k ∈ all → CacheOK cache →
     ∃ c', getSubtreeRows sorted inSet F (Task.id k) cache
           = Some (rowsOf (Task.id k), c') ∧ CacheOK c') →
  (∀ k s st, k ∈ all → CacheOK (subtreeSizeCache st) →
     ∃ st', assign sorted inSet n F k dep s st = Some st'
            ∧ AssignPost k dep s st st') →
  ∀ todo done st0,
    all = done ++ todo → CacheOK (subtreeSizeCache st0) →
    ∃ st', foldl f (Some (st0, base + band gap done)) todo
           = Some (st', base + band gap all)
           ∧ StackPost dep gap base done todo st0 st'.
Proof.
  intros Hf Hrows Hcall.
  induction todo as [|k rest IH]; intros done st0 Hall Hc0.
  - rewrite app_nil_r in Hall. subst all. exists st0. split; [done|].
    split_and!; [done|by left| |done].
    intros bf k af a' d' b' Hnil. by destruct bf.
  - assert (k ∈ all) as Hk.
    { rewrite Hall. apply elem_of_app. right. left. }
    simpl. rewrite Hf.
    destruct (Hrows k _ Hk Hc0) as (c1 & -> & Hc1). simpl.
    destruct (Hcall k (base + band gap done)
                (Build_LayoutState c1 (rowDepthById st0)) Hk Hc1)
      as (st1 & -> & Hc1' & H1 & H2 & H3).
    simpl in *.
    replace (base + band gap done + (rowsOf (Task.id k) + gap))
      with (base + band gap (done ++ [k])) by (rewrite band_snoc; lia).
    destruct (IH (done ++ [k]) st1) as (st' & -> & Hc' & R1 & R2 & R3);
      [by rewrite <- app_assoc|done|].
    exists st'. split; [done|]. split_and!; [done| | |].
    + intros i rd Hi. destruct (R1 i rd Hi) as [Hi1|Hi1].
      * destruct (H1 i rd Hi1) as [?|(a' & d' & b' & Hpf & Hid & Hrd)];
          [by left|right].
        exists [], k, rest, a', d', b'. rewrite app_nil_r. done.
      * right. destruct Hi1 as (bf & k' & af & a' & d' & b' & -> & Hpf & Hid & Hrd).
        exists (k :: bf), k', af, a', d', b'. split; [done|].
        rewrite <- app_assoc in Hpf. done.
    + intros bf k' af a' d' b' Heq Hpf. destruct bf as [|k0 bf]; simpl in Heq.
      * injection Heq as <- <-. rewrite app_nil_r in Hpf. apply R3. eauto.
      * injection Heq as <- ->. eapply R2; [done|].
        by rewrite <- app_assoc.
    + intros i Hi. apply R3, H3. done.
Qed.

Lemma assign_unfold n a d b st :
  assign sorted inSet (S n) F a d b st
  = r ← getSubtreeRows sorted inSet F (Task.id a) (subtreeSizeCache st);
    fst <$>
      foldl (λ acc k,
               c ← acc;
               need ← getSubtreeRows sorted inSet F (Task.id k)
                        (subtreeSizeCache (fst c));
               st' ← assign sorted inSet n F k (d + 1) (snd c)
                       (Build_LayoutState (snd need) (rowDepthById (fst c)));
               Some (st', snd c + fst need))
        (Some (Build_LayoutState (snd r)
                 (<[Task.id a :=
                      Build_RowDepth (b + (fst r - 1) `div` 2) d]>
                    (rowDepthById st)), b))
        (kids (Task.id a)).
Proof. reflexivity. Qed.

Lemma getSubtreeRows_F i l cache :
  UpPath ts i l → CacheOK cache →
  ∃ c', getSubtreeRows sorted inSet F i cache = Some (rowsOf i, c')
        ∧ CacheOK c'.
Proof.
  intros Hup Hc. eapply getSubtreeRows_spec; [done..| |done].
  unfold F, layoutFuel. destruct l; simpl; lia.
Qed.

Lemma assign_spec : ∀ n a d b l st,
  UpPath ts (Task.id a) l → (length ts < n + length l)%nat →
  CacheOK (subtreeSizeCache st) →
  ∃ st', assign sorted inSet n F a d b st = Some st'
         ∧ AssignPost a d b st st'.
Proof.
  induction n as [|n IH]; intros a d b l st Hup Hlen Hc.
  - pose proof (UpPath_length ts unique _ _ Hup). lia.
  - rewrite assign_unfold.
    destruct (getSubtreeRows_F _ _ _ Hup Hc) as (c1 & -> & Hc1). simpl.
    destruct (stack_spec n (d + 1) 0 b (kids (Task.id a))
                (λ acc k,
                   c ← acc;
                   need ← getSubtreeRows sorted inSet F (Task.id k)
                            (subtreeSizeCache (fst c));
                   st' ← assign sorted inSet n F k (d + 1) (snd c)
                           (Build_LayoutState (snd need) (rowDepthById (fst c)));
                   Some (st', snd c + fst need)))
      with (todo := kids (Task.id a)) (done := @nil Task)
           (st0 := Build_LayoutState c1
                     (<[Task.id a := entry a d b]> (rowDepthById st)))
      as (st' & Hfold & Hc' & R1 & R2 & R3); [| | |done|done|].
    + intros st0 s k. cbn -[getSubtreeRows assign].
      destruct (getSubtreeRows _ _ _ _ _) as [need|];
        cbn -[getSubtreeRows assign]; [|done].
      destruct (assign _ _ _ _ _ _ _ _) as [st1|];
        cbn -[getSubtreeRows assign]; [|done].
      do 2 f_equal. lia.
    + intros k cache Hk Hcc.
      eapply (getSubtreeRows_F _ (Task.id k :: l)); [|done].
      by eapply (UpPath_kid cmp projectId).
    + intros k s st0 Hk Hcc.
      eapply (IH _ _ _ (Task.id k :: l)); [|simpl; lia|done].
      by eapply (UpPath_kid cmp projectId).
    + unfold band, bandAfter in Hfold. simpl in Hfold.
      rewrite Z.add_0_r in Hfold.
      change (Build_RowDepth (b + (rowsOf (Task.id a) - 1) `div` 2) d)
        with (entry a d b).
      rewrite Hfold. simpl. eexists. split; [done|].
      simpl in *. split_and!; [done| | |].
      * intros i rd Hi. destruct (R1 i rd Hi) as [Hi1|Hi1].
        -- destruct (decide (Task.id a = i)) as [<-|Hne].
           ++ rewrite lookup_insert_eq in Hi1. injection Hi1 as <-.
              right. exists a, d, b. split; [apply PlacedFrom_self|done].
           ++ rewrite lookup_insert_ne in Hi1 by done. by left.
        -- right.
           destruct Hi1 as (bf & k & af & a' & d' & b' & Hk & Hpf & Hid & Hrd).
           exists a', d', b'. split; [|done].
           eapply PlacedFrom_down; [exact Hk|]. exact Hpf.
      * intros a' d' b' Hpf.
        inversion Hpf as [|? ? ? bf k af ? ? ? Hk Hpf']; subst.
        -- apply R3. rewrite lookup_insert_eq. eauto.
        -- eapply R2; [exact Hk|]. exact Hpf'.
      * intros i Hi. apply R3. rewrite lookup_insert_is_Some.
        destruct (decide (Task.id a = i)); [by left|by right].
Qed.
End assign_facts.

(** *** Order of the children *)

Section sorted.
Context {A : Type} (cmp : A → A → Z).
Hypothesis total : ∀ a b, 0 < cmp a b → cmp b a ≤ 0.
Hypothesis trans : ∀ a b c, cmp a b ≤ 0 → cmp b c ≤ 0 → cmp a c ≤ 0.

Let R (a b : A) : Prop := cmp a b ≤ 0.

Lemma insertBy_sorted x l :
  StronglySorted R l → StronglySorted R (insertBy cmp x l).
Proof.
  induction 1 as [|y l Hs IH Hy]; simpl; [repeat constructor|].
  destruct (Z.leb_spec (cmp x y) 0) as [Hle|Hgt].
  - apply SSorted_cons; [by apply SSorted_cons|].
    apply Forall_cons. split; [done|].
    eapply Forall_impl; [exact Hy|]. intros z Hz. by eapply trans.
  - apply SSorted_cons; [done|].
    rewrite insertBy_Permutation. apply Forall_cons. split; [|done].
    by apply total.
Qed.

Lemma jsSort_sorted l : StronglySorted R (jsSort cmp l).
Proof.
  induction l as [|x l IH]; simpl; [constructor|]. by apply insertBy_sorted.
Qed.

Lemma filter_sorted (P : A → Prop) `{∀ x, Decision (P x)} l :
  StronglySorted R l → StronglySorted R (filter P l).
Proof.
  induction 1 as [|y l Hs IH Hy]; [constructor|].
  rewrite filter_cons. destruct (decide (P y)); [|done].
  apply SSorted_cons; [done|].
  rewrite Forall_forall in *. intros z [_ Hz]%list_elem_of_filter. auto.
Qed.
End sorted.

(** *** The whole layout *)

Section layout_theorem.
Variable cmp : string → string → Z.
Variable projectId : string.
Variable ts : list Task.
Hypothesis unique : NoDup (Task.id <$> ts).

Let kids := projectKids cmp projectId ts.
Let sroots := sortedRootsOf cmp projectId ts.
Let PF := PlacedFrom cmp projectId ts.
Let Pl := Placed cmp projectId ts.
Let sum := sumRows cmp projectId ts.
Let entry := entryOf cmp projectId ts.

Lemma PlacedFrom_snoc a d b a' d' b' bf k af :
  PF a d b a' d' b' → kids (Task.id a') = bf ++ k :: af →
  PF a d b k (d' + 1) (b' + sum bf).
Proof.
  induction 1 as [a d b|a d b bf0 k0 af0 a' d' b' Hk _ IH]; intros Hkids.
  - eapply PlacedFrom_down; [exact Hkids|]. apply PlacedFrom_self.
  - eapply PlacedFrom_down; [exact Hk|]. by apply IH.
Qed.

Lemma Placed_PlacedFrom a d b :
  Pl a d b →
  ∃ bf r af, sroots = bf ++ r :: af
             ∧ PF r 1 (rootBand cmp projectId ts bf) a d b.
Proof.
  induction 1 as [bf r af Hr|a d b bf k af _ (bf0 & r & af0 & Hr & IH) Hk].
  - exists bf, r, af. split; [done|]. apply PlacedFrom_self.
  - exists bf0, r, af0. split; [done|]. by eapply PlacedFrom_snoc.
Qed.

Lemma PlacedFrom_Placed a d b a' d' b' :
  PF a d b a' d' b' → Pl a d b → Pl a' d' b'.
Proof.
  induction 1 as [a d b|a d b bf k af a' d' b' Hk _ IH]; intros Hp; [done|].
  apply IH. by eapply Placed_child.
Qed.

Lemma Placed_in_ts a d b : Pl a d b → a ∈ ts.
Proof.
  destruct 1 as [bf r af Hr|a d b bf k af _ Hk].
  - apply (sortedRoots_elem cmp projectId ts r). rewrite Hr.
    apply elem_of_app. right. left.
  - apply (projectKids_elem cmp projectId ts k (Task.id a)). rewrite Hk.
    apply elem_of_app. right. left.
Qed.

(** A task is laid out in one place only. *)
Lemma Placed_det a d b :
  Pl a d b → ∀ d' b', Pl a d' b' → d = d' ∧ b = b'.
Proof.
  induction 1 as [bf r af Hr|a d b bf k af Ha IH Hk]; intros d' b' Hp';
    inversion Hp' as [bf' r' af' Hr'|a' d0 b0 bf' k' af' Ha' Hk']; subst.
  - split; [done|]. f_equal.
    eapply app_cons_unique; [|by rewrite <- Hr, <- Hr'].
    rewrite <- Hr. apply sortedRoots_NoDup, unique.
  - exfalso.
    assert (r ∈ sroots) as H1 by (unfold sroots; rewrite Hr; apply elem_of_app; right; left).
    assert (r ∈ kids (Task.id a')) as H2
      by (unfold kids; rewrite Hk'; apply elem_of_app; right; left).
    apply sortedRoots_elem in H1 as (_ & _ & H1).
    apply projectKids_elem in H2 as (_ & H2 & Hne).
    by rewrite H2, truthy_true in H1.
  - exfalso.
    assert (k ∈ sroots) as H1 by (unfold sroots; rewrite Hr'; apply elem_of_app; right; left).
    assert (k ∈ kids (Task.id a)) as H2
      by (unfold kids; rewrite Hk; apply elem_of_app; right; left).
    apply sortedRoots_elem in H1 as (_ & _ & H1).
    apply projectKids_elem in H2 as (_ & H2 & Hne).
    by rewrite H2, truthy_true in H1.
  - assert (k ∈ kids (Task.id a)) as H1
      by (unfold kids; rewrite Hk; apply elem_of_app; right; left).
    assert (k ∈ kids (Task.id a')) as H2
      by (unfold kids; rewrite Hk'; apply elem_of_app; right; left).
    apply projectKids_elem in H1 as (_ & H1 & _).
    apply projectKids_elem in H2 as (_ & H2 & _).
    assert (a = a') as <-.
    { eapply unique_task; [exact unique|by eapply Placed_in_ts..|congruence]. }
    destruct (IH _ _ Ha') as [<- <-].
    assert (bf = bf') as <-; [|done].
    eapply app_cons_unique; [|by rewrite <- Hk, <- Hk'].
    rewrite <- Hk. apply projectKids_NoDup, unique.
Qed.

(** With unique identifiers the layout is computed, and it is the one the
    specification describes: every task laid out has its entry, at the
    middle of its band and at its depth, and there is no other entry. *)
Lemma autoArrangeRows_spec :
  ∃ st,
    autoArrangeRows cmp projectId ts
    = Some (st, rootBand cmp projectId ts sroots)
    ∧ (∀ a d b, Pl a d b → rowDepthById st !! Task.id a = Some (entry a d b))
    ∧ (∀ i rd, rowDepthById st !! i = Some rd →
               ∃ a d b, Pl a d b ∧ Task.id a = i).
Proof.
  unfold autoArrangeRows.
  destruct (inProjectSetOf_total ts projectId) as [set Hset]. rewrite Hset. simpl.
  destruct (stack_spec cmp projectId ts (layoutFuel ts) 1 1 0 sroots
              (λ acc r,
                 c ← acc;
                 need ← getSubtreeRows (sortedChildrenOf cmp ts)
                          (default [] (inProjectSetOf projectId ts))
                          (layoutFuel ts) (Task.id r) (subtreeSizeCache (fst c));
                 st' ← assign (sortedChildrenOf cmp ts)
                         (default [] (inProjectSetOf projectId ts))
                         (layoutFuel ts) (layoutFuel ts) r 1 (snd c)
                         (Build_LayoutState (snd need) (rowDepthById (fst c)));
                 Some (st', snd c + (fst need + 1))))
    with (todo := sroots) (done := @nil Task) (st0 := Build_LayoutState ∅ ∅)
    as (st & Hfold & _ & R1 & R2 & _); [done| | |done|done|].
  - intros k cache Hk Hc.
    eapply (getSubtreeRows_F cmp projectId ts unique _ [Task.id k]); [|done].
    by eapply UpPath_sortedRoot.
  - intros k s st0 Hk Hc.
    eapply (assign_spec cmp projectId ts unique _ _ _ _ [Task.id k]);
      [|unfold layoutFuel; simpl; lia|done].
    by eapply UpPath_sortedRoot.
  - rewrite Hset in Hfold. simpl in Hfold.
    exists st. unfold assignRoots. split; [exact Hfold|].
    assert (∀ i rd, rowDepthById st !! i = Some rd →
              ∃ a d b, Pl a d b ∧ Task.id a = i ∧ rd = entry a d b) as Hsound.
    { intros i rd Hi.
      destruct (R1 i rd Hi)
        as [Hi0|(bf & r & af & a & d & b & Hr & Hpf & Hid & Hrd)];
        [simpl in Hi0; by rewrite lookup_empty in Hi0|].
      exists a, d, b. split; [|done].
      eapply PlacedFrom_Placed; [exact Hpf|]. by eapply Placed_root. }
    split.
    + intros a d b Hp.
      destruct (Placed_PlacedFrom _ _ _ Hp) as (bf & r & af & Hr & Hpf).
      destruct (R2 bf r af a d b Hr Hpf) as [rd Hrd].
      destruct (Hsound _ _ Hrd) as (a' & d' & b' & Hp' & Hid & ->).
      assert (a' = a) as ->.
      { eapply unique_task; [exact unique|by eapply Placed_in_ts..|done]. }
      destruct (Placed_det _ _ _ Hp _ _ Hp') as [<- <-]. done.
    + intros i rd Hi. destruct (Hsound _ _ Hi) as (a & d & b & ? & ? & _). eauto.
Qed.
End layout_theorem.

(** The example of the specification, for every project of that shape. *)
Lemma layout_two_roots cmp projectId ts r1 r2 c1 c2 c3 :
  NoDup (Task.id <$> ts) →
  sortedRootsOf cmp projectId ts = [r1; r2] →
  projectKids cmp projectId ts (Task.id r1) = [c1; c2] →
  projectKids cmp projectId ts (Task.id r2) = [c3] →
  projectKids cmp projectId ts (Task.id c1) = [] →
  projectKids cmp projectId ts (Task.id c2) = [] →
  projectKids cmp projectId ts (Task.id c3) = [] →
  rows cmp projectId ts (Task.id r1) = 2
  ∧ rows cmp projectId ts (Task.id r2) = 1
  ∧ totalRowsOf 5 = 4
  ∧ ∃ st, autoArrangeRows cmp projectId ts = Some (st, 5)
          ∧ rowDepthById st !! Task.id r1 = Some (Build_RowDepth 0 1)
          ∧ rowDepthById st !! Task.id c1 = Some (Build_RowDepth 0 2)
          ∧ rowDepthById st !! Task.id c2 = Some (Build_RowDepth 1 2)
          ∧ rowDepthById st !! Task.id r2 = Some (Build_RowDepth 3 1)
          ∧ rowDepthById st !! Task.id c3 = Some (Build_RowDepth 3 2).
Proof.
  intros Hn Hroots Hk1 Hk2 Hl1 Hl2 Hl3.
  assert (UpPath ts (Task.id r1) [Task.id r1]) as Hu1.
  { apply (UpPath_sortedRoot cmp projectId). rewrite Hroots. left. }
  assert (UpPath ts (Task.id r2) [Task.id r2]) as Hu2.
  { apply (UpPath_sortedRoot cmp projectId). rewrite Hroots. right. left. }
  assert (rows cmp projectId ts (Task.id c1) = 1) as Hc1.
  { rewrite (rows_unfold cmp projectId ts Hn (Task.id c1) (Task.id c1 :: [Task.id r1])).
    - by rewrite Hl1.
    - eapply (UpPath_kid cmp projectId); [exact Hu1|]. rewrite Hk1. left. }
  assert (rows cmp projectId ts (Task.id c2) = 1) as Hc2.
  { rewrite (rows_unfold cmp projectId ts Hn (Task.id c2) (Task.id c2 :: [Task.id r1])).
    - by rewrite Hl2.
    - eapply (UpPath_kid cmp projectId); [exact Hu1|]. rewrite Hk1. right. left. }
  assert (rows cmp projectId ts (Task.id c3) = 1) as Hc3.
  { rewrite (rows_unfold cmp projectId ts Hn (Task.id c3) (Task.id c3 :: [Task.id r2])).
    - by rewrite Hl3.
    - eapply (UpPath_kid cmp projectId); [exact Hu2|]. rewrite Hk2. left. }
  assert (rows cmp projectId ts (Task.id r1) = 2) as Hr1.
  { rewrite (rows_unfold cmp projectId ts Hn _ _ Hu1), Hk1.
    unfold sumRows, bandAfter. simpl. rewrite Hc1, Hc2. done. }
  assert (rows cmp projectId ts (Task.id r2) = 1) as Hr2.
  { rewrite (rows_unfold cmp projectId ts Hn _ _ Hu2), Hk2.
    unfold sumRows, bandAfter. simpl. rewrite Hc3. done. }
  split_and!; [done..|].
  destruct (autoArrangeRows_spec cmp projectId ts Hn) as (st & Hst & Hplaced & _).
  exists st.
  assert (Placed cmp projectId ts r1 1 0) as P1.
  { apply (Placed_root cmp projectId ts [] r1 [r2]). done. }
  assert (Placed cmp projectId ts r2 1 3) as P2.
  { replace 3 with (rootBand cmp projectId ts [r1])
      by (unfold rootBand, bandAfter; simpl; rewrite Hr1; done).
    apply (Placed_root cmp projectId ts [r1] r2 []). done. }
  assert (Placed cmp projectId ts c1 (1 + 1) (0 + sumRows cmp projectId ts []))
    as Q1 by (by eapply Placed_child).
  assert (Placed cmp projectId ts c2 (1 + 1) (0 + sumRows cmp projectId ts [c1]))
    as Q2 by (by eapply (Placed_child _ _ _ r1 1 0 [c1] c2 [])).
  assert (Placed cmp projectId ts c3 (1 + 1) (3 + sumRows cmp projectId ts []))
    as Q3 by (by eapply (Placed_child _ _ _ r2 1 3 [] c3 [])).
  split_and!.
  - rewrite Hst, Hroots. do 2 f_equal.
    unfold rootBand, bandAfter. simpl. rewrite Hr1, Hr2. done.
  - rewrite (Hplaced _ _ _ P1). unfold entryOf. rewrite Hr1. done.
  - rewrite (Hplaced _ _ _ Q1). unfold entryOf. rewrite Hc1. done.
  - rewrite (Hplaced _ _ _ Q2). unfold entryOf. rewrite Hc2.
    unfold sumRows, bandAfter. simpl. rewrite Hc1. done.
  - rewrite (Hplaced _ _ _ P2). unfold entryOf. rewrite Hr2. done.
  - rewrite (Hplaced _ _ _ Q3). unfold entryOf. rewrite Hc3. done.
Qed.

(** C7. For a project whose roots are R1, with two leaf children, and R2,
    with one leaf child: [rows(R1) = 2], [rows(R2) = 1], the rows in use are
    4, R1 is at row 0 and its children at rows 0 and 1, and the band of R2
    starts at row 3. In general, for tasks with unique identifiers, the
    layout is computed and every task is at row
    [bandStart + floor((rows - 1) / 2)] and at the depth of its parent plus
    one, roots at depth 1, where the bands of the children of a task are
    stacked inside its own in the order of the sorted list, which is title
    then identifier order for a collation that orders consistently. *)
Theorem autoArrange_row_assignment :
  (∀ cmp projectId ts r1 r2 c1 c2 c3,
     NoDup (Task.id <$> ts) →
     sortedRootsOf cmp projectId ts = [r1; r2] →
     projectKids cmp projectId ts (Task.id r1) = [c1; c2] →
     projectKids cmp projectId ts (Task.id r2) = [c3] →
     projectKids cmp projectId ts (Task.id c1) = [] →
     projectKids cmp projectId ts (Task.id c2) = [] →
     projectKids cmp projectId ts (Task.id c3) = [] →
     rows cmp projectId ts (Task.id r1) = 2
     ∧ rows cmp projectId ts (Task.id r2) = 1
     ∧ totalRowsOf 5 = 4
     ∧ ∃ st, autoArrangeRows cmp projectId ts = Some (st, 5)
             ∧ rowDepthById st !! Task.id r1 = Some (Build_RowDepth 0 1)
             ∧ rowDepthById st !! Task.id c1 = Some (Build_RowDepth 0 2)
             ∧ rowDepthById st !! Task.id c2 = Some (Build_RowDepth 1 2)
             ∧ rowDepthById st !! Task.id r2 = Some (Build_RowDepth 3 1)
             ∧ rowDepthById st !! Task.id c3 = Some (Build_RowDepth 3 2))
  ∧ (∀ cmp projectId ts,
       NoDup (Task.id <$> ts) →
       ∃ st,
         autoArrangeRows cmp projectId ts
         = Some (st, rootBand cmp projectId ts (sortedRootsOf cmp projectId ts))
         ∧ (∀ a d b, Placed cmp projectId ts a d b →
              rowDepthById st !! Task.id a
              = Some (Build_RowDepth
                        (b + (rows cmp projectId ts (Task.id a) - 1) `div` 2) d))
         ∧ (∀ i rd, rowDepthById st !! i = Some rd →
              ∃ a d b, Placed cmp projectId ts a d b ∧ Task.id a = i))
  ∧ (∀ cmp projectId ts,
       (∀ a b, 0 < taskSorter cmp a b → taskSorter cmp b a ≤ 0) →
       (∀ a b c, taskSorter cmp a b ≤ 0 → taskSorter cmp b c ≤ 0 →
                 taskSorter cmp a c ≤ 0) →
       StronglySorted (λ a b, taskSorter cmp a b ≤ 0)
         (sortedRootsOf cmp projectId ts)
       ∧ ∀ i, StronglySorted (λ a b, taskSorter cmp a b ≤ 0)
                (projectKids cmp projectId ts i)).
Proof.
  split_and!.
  - apply layout_two_roots.
  - intros cmp projectId ts Hn. apply (autoArrangeRows_spec cmp projectId ts Hn).
  - intros cmp projectId ts Htotal Htrans. split.
    + by apply jsSort_sorted.
    + intros i. unfold projectKids, kidsOf. apply filter_sorted.
      unfold sortedChildrenOf. rewrite lookup_fmap.
      destruct (childrenByParent ts !! i); simpl; [|constructor].
      by apply jsSort_sorted.
Qed.

(** *** Code-unit order is a consistent collation *)

Lemma ascii_compare_Lt_trans (a b c : Ascii.ascii) :
  Ascii.compare a b = Lt → Ascii.compare b c = Lt → Ascii.compare a c = Lt.
Proof.
  unfold Ascii.compare. rewrite !N.compare_lt_iff. lia.
Qed.

Lemma string_compare_Lt_trans : ∀ s1 s2 s3 : string,
  String.compare s1 s2 = Lt → String.compare s2 s3 = Lt →
  String.compare s1 s3 = Lt.
Proof.
  induction s1 as [|a s1 IH]; intros [|b s2] [|c s3]; simpl; try done.
  destruct (Ascii.compare a b) eqn:Hab; try done;
    destruct (Ascii.compare b c) eqn:Hbc; try done; intros H1 H2.
  - apply Ascii.compare_eq_iff in Hab as ->. rewrite Hbc. by eapply IH.
  - apply Ascii.compare_eq_iff in Hab as ->. by rewrite Hbc.
  - apply Ascii.compare_eq_iff in Hbc as <-. by rewrite Hab.
  - by rewrite (ascii_compare_Lt_trans _ _ _ Hab Hbc).
Qed.

Lemma codeUnitCompare_antisym a b : codeUnitCompare b a = - codeUnitCompare a b.
Proof.
  unfold codeUnitCompare. rewrite (String.compare_antisym a b).
  by destruct (String.compare b a).
Qed.

Lemma codeUnitCompare_zero a b : codeUnitCompare a b = 0 → a = b.
Proof.
  unfold codeUnitCompare. destruct (String.compare a b) eqn:E; try done.
  intros _. by apply String.compare_eq_iff.
Qed.

Lemma codeUnitCompare_refl a : codeUnitCompare a a = 0.
Proof. pose proof (codeUnitCompare_antisym a a). lia. Qed.

Lemma codeUnitCompare_cases a b :
  (codeUnitCompare a b = -1 ∧ String.compare a b = Lt)
  ∨ (codeUnitCompare a b = 0 ∧ a = b)
  ∨ (codeUnitCompare a b = 1 ∧ String.compare b a = Lt).
Proof.
  unfold codeUnitCompare. destruct (String.compare a b) eqn:E.
  - right. left. split; [done|]. by apply String.compare_eq_iff.
  - by left.
  - right. right. split; [done|]. rewrite String.compare_antisym, E. done.
Qed.

Lemma codeUnitCompare_lt_trans a b c :
  codeUnitCompare a b = -1 → codeUnitCompare b c = -1 → codeUnitCompare a c = -1.
Proof.
  intros H1 H2.
  destruct (codeUnitCompare_cases a b) as [[_ E1]|[[? _]|[? _]]]; try lia.
  destruct (codeUnitCompare_cases b c) as [[_ E2]|[[? _]|[? _]]]; try lia.
  unfold codeUnitCompare. by rewrite (string_compare_Lt_trans _ _ _ E1 E2).
Qed.

Lemma codeUnitCompare_range a b :
  codeUnitCompare a b = -1 ∨ codeUnitCompare a b = 0 ∨ codeUnitCompare a b = 1.
Proof. unfold codeUnitCompare. destruct (String.compare a b); auto. Qed.

Lemma taskSorter_codeUnit_total a b :
  0 < taskSorter codeUnitCompare a b → taskSorter codeUnitCompare b a ≤ 0.
Proof.
  unfold taskSorter.
  rewrite (codeUnitCompare_antisym (Task.title a) (Task.title b)).
  rewrite (codeUnitCompare_antisym (Task.id a) (Task.id b)).
  destruct (Z.eqb_spec (codeUnitCompare (Task.title a) (Task.title b)) 0) as [->|Hne].
  - simpl. lia.
  - destruct (Z.eqb_spec (- codeUnitCompare (Task.title a) (Task.title b)) 0); lia.
Qed.

Lemma lex_trans (x1 x2 x3 y1 y2 y3 : string) :
  (if codeUnitCompare x1 x2 =? 0 then codeUnitCompare y1 y2
   else codeUnitCompare x1 x2) ≤ 0 →
  (if codeUnitCompare x2 x3 =? 0 then codeUnitCompare y2 y3
   else codeUnitCompare x2 x3) ≤ 0 →
  (if codeUnitCompare x1 x3 =? 0 then codeUnitCompare y1 y3
   else codeUnitCompare x1 x3) ≤ 0.
Proof.
  assert (∀ u v w : string, codeUnitCompare u v ≤ 0 → codeUnitCompare v w ≤ 0 →
            codeUnitCompare u w ≤ 0) as Hle.
  { intros u v w H1 H2.
    destruct (codeUnitCompare_range u v) as [E1|[E1|E1]]; [| |lia].
    - destruct (codeUnitCompare_range v w) as [E2|[E2|E2]]; [| |lia].
      + rewrite (codeUnitCompare_lt_trans _ _ _ E1 E2). lia.
      + apply codeUnitCompare_zero in E2 as <-. lia.
    - apply codeUnitCompare_zero in E1 as <-. lia. }
  destruct (Z.eqb_spec (codeUnitCompare x1 x2) 0) as [E1|E1];
    destruct (Z.eqb_spec (codeUnitCompare x2 x3) 0) as [E2|E2]; intros H1 H2.
  - apply codeUnitCompare_zero in E1 as <-. apply codeUnitCompare_zero in E2 as <-.
    rewrite codeUnitCompare_refl. simpl. by eapply Hle.
  - apply codeUnitCompare_zero in E1 as <-.
    destruct (Z.eqb_spec (codeUnitCompare x1 x3) 0); [done|lia].
  - apply codeUnitCompare_zero in E2 as <-.
    destruct (Z.eqb_spec (codeUnitCompare x1 x2) 0); [done|lia].
  - assert (codeUnitCompare x1 x2 = -1) as F1
      by (destruct (codeUnitCompare_range x1 x2) as [?|[?|?]]; lia).
    assert (codeUnitCompare x2 x3 = -1) as F2
      by (destruct (codeUnitCompare_range x2 x3) as [?|[?|?]]; lia).
    rewrite (codeUnitCompare_lt_trans _ _ _ F1 F2). simpl. lia.
Qed.

Lemma taskSorter_codeUnit_trans a b c :
  taskSorter codeUnitCompare a b ≤ 0 → taskSorter codeUnitCompare b c ≤ 0 →
  taskSorter codeUnitCompare a c ≤ 0.
Proof. unfold taskSorter. apply lex_trans. Qed.

(** The example on [layoutTasks], with R1 = "r1" and R2 = "r2", and the order
    of the children under code-unit collation. *)
Lemma autoArrange_row_assignment_witness :
  (rows codeUnitCompare "p" layoutTasks "r1" = 2
   ∧ rows codeUnitCompare "p" layoutTasks "r2" = 1
   ∧ totalRowsOf 5 = 4
   ∧ ∃ st, autoArrangeRows codeUnitCompare "p" layoutTasks = Some (st, 5)
           ∧ rowDepthById st !! "r1" = Some (Build_RowDepth 0 1)
           ∧ rowDepthById st !! "c1" = Some (Build_RowDepth 0 2)
           ∧ rowDepthById st !! "c2" = Some (Build_RowDepth 1 2)
           ∧ rowDepthById st !! "r2" = Some (Build_RowDepth 3 1)
           ∧ rowDepthById st !! "c3" = Some (Build_RowDepth 3 2))
  ∧ (StronglySorted (λ a b, taskSorter codeUnitCompare a b ≤ 0)
       (sortedRootsOf codeUnitCompare "p" layoutTasks)
     ∧ ∀ i, StronglySorted (λ a b, taskSorter codeUnitCompare a b ≤ 0)
              (projectKids codeUnitCompare "p" layoutTasks i)).
Proof.
  split.
  - apply (proj1 autoArrange_row_assignment codeUnitCompare "p" layoutTasks
             (mkTask "r1" "R1" false (Some "p") None)
             (mkTask "r2" "R2" false (Some "p") None)
             (mkTask "c1" "A" false None (Some "r1"))
             (mkTask "c2" "B" false None (Some "r1"))
             (mkTask "c3" "C" false None (Some "r2")));
      [apply (bool_decide_unpack _); vm_compute; exact I
      |vm_compute; reflexivity..].
  - apply (proj2 (proj2 autoArrange_row_assignment) codeUnitCompare "p" layoutTasks).
    + apply taskSorter_codeUnit_total.
    + apply taskSorter_codeUnit_trans.
Defined.

(** * Further properties of the store and of the views *)

(** ** The traversal *)

(** X1. [getAllDescendantTaskIds] ends on every input, cyclic parent links
    included, and returns each identifier once: the start identifiers, with
    every task of the list whose parent is returned, and nothing that a set
    closed in this way could leave out. *)
Theorem getAllDescendantTaskIds_closure startTaskIds allTasks :
  NoDup (getAllDescendantTaskIds startTaskIds allTasks)
  ∧ (∀ i, i ∈ startTaskIds → i ∈ getAllDescendantTaskIds startTaskIds allTasks)
  ∧ (∀ a p, a ∈ allTasks → Task.parentTaskId a = Some p →
            p ∈ getAllDescendantTaskIds startTaskIds allTasks →
            Task.id a ∈ getAllDescendantTaskIds startTaskIds allTasks)
  ∧ (∀ P : string → Prop,
       (∀ i, i ∈ startTaskIds → P i) →
       (∀ a p, a ∈ allTasks → Task.parentTaskId a = Some p → P p → P (Task.id a)) →
       ∀ i, i ∈ getAllDescendantTaskIds startTaskIds allTasks → P i)
  ∧ (∀ i, i ∈ getAllDescendantTaskIds startTaskIds allTasks →
          i ∈ startTaskIds ∨ ∃ a, a ∈ allTasks ∧ Task.id a = i).
Proof.
  split_and!.
  - apply getAllDescendantTaskIds_NoDup.
  - intros i Hi. apply getAllDescendantTaskIds_spec. by constructor.
  - intros a p Ha Hp Hin. apply getAllDescendantTaskIds_spec.
    apply getAllDescendantTaskIds_spec in Hin. by econstructor.
  - intros P Hseed Hstep i Hi. apply getAllDescendantTaskIds_spec in Hi.
    induction Hi as [i Hi|a p Ha Hp _ IH]; [by apply Hseed|by eapply Hstep].
  - intros i Hi. apply getAllDescendantTaskIds_spec in Hi.
    destruct Hi as [i Hi|a p Ha Hp _]; [by left|right; by exists a].
Qed.

(** ** [setPrioritizedTasks] *)

Lemma JSSet_from_snoc l x : JSSet.from (l ++ [x]) = JSSet.add x (JSSet.from l).
Proof. unfold JSSet.from. by rewrite foldl_app. Qed.

Lemma JSSet_fold_from l acc :
  foldl (λ s x, JSSet.add x s) acc l
  = acc ++ filter (λ i, i ∉ acc) (JSSet.from l).
Proof.
  induction l as [|x l IH] using rev_ind.
  - simpl. by rewrite app_nil_r.
  - rewrite foldl_app, JSSet_from_snoc. simpl. rewrite IH.
    destruct (decide (x ∈ JSSet.from l)) as [Hin|Hin].
    + rewrite (JSSet_add_old x (JSSet.from l)) by done.
      apply JSSet_add_old. destruct (decide (x ∈ acc)); [set_solver|].
      apply elem_of_app; right. by apply list_elem_of_filter.
    + rewrite (JSSet_add_new x (JSSet.from l)) by done.
      rewrite filter_app. destruct (decide (x ∈ acc)) as [Hacc|Hacc].
      * rewrite JSSet_add_old by set_solver.
        rewrite filter_cons_False by (intros Hn; exact (Hn Hacc)). simpl.
        by rewrite app_nil_r.
      * rewrite JSSet_add_new.
        -- rewrite filter_cons_True by done. simpl. by rewrite app_assoc.
        -- rewrite elem_of_app, list_elem_of_filter. tauto.
Qed.

Lemma JSSet_from_cons a l :
  JSSet.from (a :: l) = a :: filter (λ i, i ≠ a) (JSSet.from l).
Proof.
  unfold JSSet.from at 1. simpl. unfold JSSet.add at 2. simpl.
  rewrite JSSet_fold_from. simpl. f_equal.
  apply filter_ext_elem. intros x _. by rewrite list_elem_of_singleton.
Qed.

(** X2. [setPrioritizedTasks] stores its argument without its repetitions:
    every identifier once, at the place of its first occurrence. A sequence
    without repetition is stored as it is, storing what was stored changes
    nothing, and the projects and the tasks are not touched. *)
Theorem setPrioritizedTasks_first_occurrence ids s :
  NoDup (Store.prioritizedTaskIds (setPrioritizedTasks ids s))
  ∧ (∀ i, i ∈ Store.prioritizedTaskIds (setPrioritizedTasks ids s) ↔ i ∈ ids)
  ∧ Store.prioritizedTaskIds (setPrioritizedTasks [] s) = []
  ∧ (∀ a, Store.prioritizedTaskIds (setPrioritizedTasks (a :: ids) s)
          = a :: filter (λ i, i ≠ a)
                   (Store.prioritizedTaskIds (setPrioritizedTasks ids s)))
  ∧ (NoDup ids → Store.prioritizedTaskIds (setPrioritizedTasks ids s) = ids)
  ∧ setPrioritizedTasks
      (Store.prioritizedTaskIds (setPrioritizedTasks ids s))
      (setPrioritizedTasks ids s)
    = setPrioritizedTasks ids s
  ∧ Store.projects (setPrioritizedTasks ids s) = Store.projects s
  ∧ Store.tasks (setPrioritizedTasks ids s) = Store.tasks s.
Proof.
  unfold setPrioritizedTasks; simpl. split_and!; try done.
  - apply JSSet_NoDup_from.
  - intros i. apply JSSet_elem_of_from.
  - intros a. apply JSSet_from_cons.
  - apply JSSet_from_NoDup.
  - f_equal. apply JSSet_from_NoDup, JSSet_NoDup_from.
Qed.

(** ** [deleteProject] and [deleteTask] *)

(** X3. [deleteProject] removes the projects with that identifier and, from
    the flat list and from the priority list, exactly the descendant closure
    of the tasks that name the project; what is left keeps its order. No task
    that is left names the project, and no task that is left had its parent
    removed. *)
Theorem deleteProject_cascade projectId s :
  (∀ p, p ∈ Store.projects (deleteProject projectId s)
        ↔ p ∈ Store.projects s ∧ Project.id p ≠ projectId)
  ∧ (∀ a, a ∈ Store.tasks (deleteProject projectId s)
          ↔ a ∈ Store.tasks s
            ∧ ¬ Descendant (Store.tasks s)
                  (projectSeeds projectId (Store.tasks s)) (Task.id a))
  ∧ (∀ i, i ∈ Store.prioritizedTaskIds (deleteProject projectId s)
          ↔ i ∈ Store.prioritizedTaskIds s
            ∧ ¬ Descendant (Store.tasks s)
                  (projectSeeds projectId (Store.tasks s)) i)
  ∧ Store.tasks (deleteProject projectId s) `sublist_of` Store.tasks s
  ∧ Store.prioritizedTaskIds (deleteProject projectId s)
      `sublist_of` Store.prioritizedTaskIds s
  ∧ (∀ a, a ∈ Store.tasks (deleteProject projectId s) →
          Task.projectId a ≠ Some projectId)
  ∧ (∀ a b, a ∈ Store.tasks (deleteProject projectId s) →
            b ∈ Store.tasks s → Task.parentTaskId a = Some (Task.id b) →
            b ∈ Store.tasks (deleteProject projectId s)).
Proof.
  unfold deleteProject, projectSeeds; simpl.
  set (ids := getAllDescendantTaskIds _ _).
  assert (Hkey : ∀ i, JSSet.has i ids = false
                      ↔ ¬ Descendant (Store.tasks s)
                            (Task.id <$> tasksOfProject projectId (Store.tasks s)) i).
  { intros i. unfold ids. by rewrite JSSet_has_false, getAllDescendantTaskIds_spec. }
  split_and!.
  - intros p. by rewrite list_elem_of_filter, (comm and).
  - intros a. by rewrite list_elem_of_filter, Hkey, (comm and).
  - intros i. by rewrite list_elem_of_filter, Hkey, (comm and).
  - apply sublist_filter.
  - apply sublist_filter.
  - intros a [Hno Ha]%list_elem_of_filter Hp. apply Hkey in Hno. apply Hno.
    constructor. apply list_elem_of_fmap. exists a. split; [done|].
    by apply list_elem_of_filter.
  - intros a b [Hno Ha]%list_elem_of_filter Hb Hp.
    apply list_elem_of_filter. split; [|done].
    apply Hkey. intros Hd. apply Hkey in Hno. apply Hno. by econstructor.
Qed.

(** X4. [deleteTask] removes the tasks with that identifier and nothing
    else: the identifier leaves the flat list, the priority list and the
    cached list of the project the task named, the cached lists only lose
    tasks, and the children of the task stay, with the parent link they had.
    Such a child, when it names no project itself, then resolves to no root
    project. *)
Theorem deleteTask_leaves_children taskId s :
  (∀ a, a ∈ Store.tasks (deleteTask taskId s)
        ↔ a ∈ Store.tasks s ∧ Task.id a ≠ taskId)
  ∧ (∀ i, i ∈ Store.prioritizedTaskIds (deleteTask taskId s)
          ↔ i ∈ Store.prioritizedTaskIds s ∧ i ≠ taskId)
  ∧ (∀ k p, Store.projects s !! k = Some p →
       ∃ p', Store.projects (deleteTask taskId s) !! k = Some p'
             ∧ Project.id p' = Project.id p
             ∧ Project.status p' = Project.status p
             ∧ Project.tasks p' `sublist_of` Project.tasks p
             ∧ (∀ t, findTask taskId (Store.tasks s) = Some t →
                     Task.projectId t = Some (Project.id p) →
                     Project.id p ≠ "" →
                     ∀ a, a ∈ Project.tasks p'
                          ↔ a ∈ Project.tasks p ∧ Task.id a ≠ taskId))
  ∧ (∀ c, c ∈ Store.tasks s → Task.id c ≠ taskId →
          Task.parentTaskId c = Some taskId →
          c ∈ Store.tasks (deleteTask taskId s))
  ∧ (∀ c a, c ≠ "" →
       tasksById (Store.tasks (deleteTask taskId s)) !! c = Some a →
       truthy (Task.projectId a) = false →
       Task.parentTaskId a = Some taskId →
       findRoot (deleteTask taskId s) c = None).
Proof.
  split_and!.
  - intros a. unfold deleteTask; simpl. by rewrite list_elem_of_filter, (comm and).
  - intros i. unfold deleteTask; simpl. by rewrite list_elem_of_filter, (comm and).
  - intros k p Hk. unfold deleteTask; simpl.
    destruct (truthy (findTask taskId (Store.tasks s) ≫= Task.projectId)) eqn:Ht.
    + rewrite list_lookup_fmap, Hk. simpl. eexists; split; [done|].
      case_decide as Hown; simpl.
      * split_and!; try done; [apply sublist_filter|].
        intros t _ _ _ a. by rewrite list_elem_of_filter, (comm and).
      * split_and!; try done. intros t Hf Hp _. rewrite Hf in Hown. simpl in Hown.
        congruence.
    + exists p. split_and!; try done. intros t Hf Hp Hne.
      rewrite Hf in Ht. simpl in Ht. rewrite Hp in Ht. simpl in Ht.
      by rewrite bool_decide_eq_false in Ht.
  - intros c Hc Hne _. unfold deleteTask; simpl. by apply list_elem_of_filter.
  - intros c a Hc Ha Hproj Hpar. apply findRoot_spec; [done|].
    right. split; [|done]. intros b Hb.
    inversion Hb as [cur a0 Ha0 Ht|cur a0 parent b0 Ha0 Ht Hp Hne Hup]; subst.
    + rewrite Ha in Ha0. injection Ha0 as <-. congruence.
    + rewrite Ha in Ha0. injection Ha0 as <-. rewrite Hpar in Hp.
      injection Hp as <-.
      assert (is_Some (tasksById (Store.tasks (deleteTask taskId s)) !! taskId))
        as [x Hx] by (inversion Hup; eauto).
      apply tasksById_Some in Hx as [Hx Hid].
      unfold deleteTask in Hx; simpl in Hx.
      by apply list_elem_of_filter in Hx as [? _].
Qed.

Lemma deleteTask_leaves_children_witness :
  findRoot (deleteTask "r1" layoutStore) "c1" = None.
Proof.
  apply (proj2 (proj2 (proj2 (proj2 (deleteTask_leaves_children "r1" layoutStore))))
           "c1" (mkTask "c1" "A" false None (Some "r1")));
    [discriminate|reflexivity|reflexivity|reflexivity].
Defined.

(** ** [moveTaskSubtree] *)

Lemma tasksById_snoc ts a :
  tasksById (ts ++ [a]) = <[Task.id a := a]> (tasksById ts).
Proof. unfold tasksById. by rewrite foldl_app. Qed.

(** [newPositions] has, for a moved identifier, the new position of the last
    task of the flat list with that identifier. *)
Lemma newPositionsOfMove_lookup ids delta ts i :
  newPositionsOfMove ids delta ts !! i
  = if JSSet.has i ids
    then (λ a, translate delta (Task.position a)) <$> tasksById ts !! i
    else None.
Proof.
  induction ts as [|a ts IH] using rev_ind.
  - unfold newPositionsOfMove, tasksById; simpl. rewrite !lookup_empty.
    by destruct (JSSet.has i ids).
  - rewrite tasksById_snoc. unfold newPositionsOfMove in *.
    rewrite foldl_app; simpl.
    destruct (decide (Task.id a = i)) as [<-|Hne].
    + destruct (JSSet.has (Task.id a) ids) eqn:Hh.
      * by rewrite !lookup_insert_eq.
      * done.
    + rewrite (lookup_insert_ne (tasksById ts)) by done.
      destruct (JSSet.has (Task.id a) ids);
        by rewrite ?lookup_insert_ne, IH by done.
Qed.

Lemma sameButTasks_withTasks ts p : sameButTasks p (Project.withTasks ts p).
Proof. by repeat split. Qed.

(** X5. [moveTaskSubtree] does nothing for a delta whose two parts are zero
    or a root that is not in the flat list. Otherwise it adds [dx] and [dy]
    to the coordinates of the tasks of the flat list in the descendant
    closure of the root, changes nothing else of them and leaves every other
    task as it is; a cached copy of a moved task is given the new position
    of the task of the flat list, which always exists; the projects change in
    their cached lists only and the priority list is unchanged. *)
Theorem moveTaskSubtree_translates rootTaskId delta s :
  ((dx delta =? 0)%float = true → (dy delta =? 0)%float = true →
   moveTaskSubtree rootTaskId delta s = s)
  ∧ (findTask rootTaskId (Store.tasks s) = None →
     moveTaskSubtree rootTaskId delta s = s)
  ∧ (is_Some (findTask rootTaskId (Store.tasks s)) →
     (dx delta =? 0)%float = false ∨ (dy delta =? 0)%float = false →
     (∀ k a, Store.tasks s !! k = Some a →
        ∃ a', Store.tasks (moveTaskSubtree rootTaskId delta s) !! k = Some a'
              ∧ (Descendant (Store.tasks s) [rootTaskId] (Task.id a) →
                 Position.x (Task.position a')
                 = (Position.x (Task.position a) + dx delta)%float
                 ∧ Position.y (Task.position a')
                   = (Position.y (Task.position a) + dy delta)%float
                 ∧ sameButPosition a a')
              ∧ (¬ Descendant (Store.tasks s) [rootTaskId] (Task.id a) →
                 a' = a))
     ∧ (∀ k p, Store.projects s !! k = Some p →
          ∃ p', Store.projects (moveTaskSubtree rootTaskId delta s) !! k = Some p'
                ∧ sameButTasks p p'
                ∧ ∀ j c, Project.tasks p !! j = Some c →
                    ∃ c', Project.tasks p' !! j = Some c'
                          ∧ (Descendant (Store.tasks s) [rootTaskId] (Task.id c) →
                             ∃ b, tasksById (Store.tasks s) !! Task.id c = Some b
                                  ∧ Position.x (Task.position c')
                                    = (Position.x (Task.position b) + dx delta)%float
                                  ∧ Position.y (Task.position c')
                                    = (Position.y (Task.position b) + dy delta)%float
                                  ∧ sameButPosition c c')
                          ∧ (¬ Descendant (Store.tasks s) [rootTaskId] (Task.id c) →
                             c' = c))
     ∧ Store.prioritizedTaskIds (moveTaskSubtree rootTaskId delta s)
       = Store.prioritizedTaskIds s).
Proof.
  split_and!.
  - intros Hx Hy. unfold moveTaskSubtree. by rewrite Hx, Hy.
  - intros Hf. unfold moveTaskSubtree. rewrite Hf. by destruct (_ && _).
  - intros [r Hr] Hd. unfold moveTaskSubtree. rewrite Hr.
    assert ((dx delta =? 0)%float && (dy delta =? 0)%float = false) as ->.
    { apply andb_false_iff. destruct Hd; [left|right]; done. }
    set (ids := getAllDescendantTaskIds [rootTaskId] (Store.tasks s)).
    assert (Hroot : rootTaskId ∈ ids).
    { apply getAllDescendantTaskIds_spec. constructor. by apply list_elem_of_singleton. }
    assert (bool_decide (length ids = 0%nat) = false) as ->.
    { apply bool_decide_eq_false. intros Hl. apply nil_length_inv in Hl.
      rewrite Hl in Hroot. by apply elem_of_nil in Hroot. }
    assert (Hkey : ∀ i, JSSet.has i ids = true
                        ↔ Descendant (Store.tasks s) [rootTaskId] i).
    { intros i. unfold ids. by rewrite JSSet_has_true, getAllDescendantTaskIds_spec. }
    simpl. split_and!; [| |done].
    + intros k a Hk. rewrite list_lookup_fmap, Hk. simpl.
      eexists. split; [done|].
      destruct (JSSet.has (Task.id a) ids) eqn:Hh.
      * split; [|intros Hn; destruct Hn; by apply Hkey].
        intros _. split_and!; [done|done|apply sameButPosition_withPosition].
      * split; [|done]. intros Hn%Hkey. congruence.
    + intros k p Hk. rewrite list_lookup_fmap, Hk. simpl.
      eexists; split; [done|]. split; [apply sameButTasks_withTasks|].
      intros j c Hj. simpl. rewrite list_lookup_fmap, Hj. simpl.
      eexists. split; [done|].
      destruct (JSSet.has (Task.id c) ids) eqn:Hh.
      * split; [|intros Hn; destruct Hn; by apply Hkey].
        intros Hdesc.
        assert (is_Some (tasksById (Store.tasks s) !! Task.id c)) as [b Hb].
        { apply tasksById_is_Some.
          destruct Hdesc as [i Hi|a q Ha Hq _]; [|by exists a].
          apply list_elem_of_singleton in Hi as ->.
          apply findTask_Some in Hr as [? ?]. by exists r. }
        exists b. split; [done|].
        rewrite newPositionsOfMove_lookup, Hh, Hb. simpl.
        split_and!; [done|done|apply sameButPosition_withPosition].
      * split; [|done]. intros Hn%Hkey. congruence.
Qed.

(** The task "c1", at (1.5, 2), is a child of "r1": a move of the subtree of
    "r1" by (10, 5.5) takes it to (11.5, 7.5). *)
Lemma moveTaskSubtree_translates_witness :
  ∃ a', Store.tasks
          (moveTaskSubtree "r1" (Build_Delta 10 5.5)%float shiftedLayoutStore)
        !! 4%nat = Some a'
        ∧ Task.position a' = (Position.mk 11.5 7.5)%float
        ∧ Task.id a' = "c1" ∧ Task.parentTaskId a' = Some "r1".
Proof.
  assert (is_Some (findTask "r1" (Store.tasks shiftedLayoutStore))) as Hroot
    by (by eexists).
  assert (((dx (Build_Delta 10 5.5) =? 0) = false
           ∨ (dy (Build_Delta 10 5.5) =? 0) = false)%float) as Hdelta
    by (by left).
  pose proof (moveTaskSubtree_translates "r1" (Build_Delta 10 5.5)%float
                shiftedLayoutStore) as (_ & _ & H).
  destruct (H Hroot Hdelta) as (Ht & _).
  destruct (Ht 4%nat
              (Task.withPosition (Position.mk 1.5 2)%float
                 (mkTask "c1" "A" false None (Some "r1"))) eq_refl)
    as (a' & Ha' & Hmoved & _).
  exists a'. split; [exact Ha'|].
  destruct Hmoved as (Hx & Hy & Hsame).
  { apply (Descendant_child _ _
             (Task.withPosition (Position.mk 1.5 2)%float
                (mkTask "c1" "A" false None (Some "r1"))) "r1").
    - by apply (list_elem_of_lookup_2 _ 4%nat).
    - reflexivity.
    - constructor. apply list_elem_of_singleton. reflexivity. }
  split_and!.
  - destruct (Task.position a') as [x' y']. simpl in Hx, Hy. by rewrite Hx, Hy.
  - apply Hsame.
  - apply Hsame.
Defined.

(** ** [addTask], [linkTaskToProject] and [linkTaskToTask], seen from the views *)

Lemma projectsById_snoc ps p :
  projectsById (ps ++ [p]) = <[Project.id p := p]> (projectsById ps).
Proof. unfold projectsById. by rewrite foldl_app. Qed.

(** An update of the projects that keeps their identifiers updates the
    index entry by entry. *)
Lemma projectsById_fmap (f : Project → Project) ps i :
  (∀ p, Project.id (f p) = Project.id p) →
  projectsById (f <$> ps) !! i = f <$> projectsById ps !! i.
Proof.
  intros Hf. induction ps as [|p ps IH] using rev_ind.
  - unfold projectsById; simpl. by rewrite lookup_empty.
  - rewrite fmap_app. simpl. rewrite !projectsById_snoc, Hf.
    destruct (decide (Project.id p = i)) as [<-|Hne].
    + by rewrite !lookup_insert_eq.
    + by rewrite !lookup_insert_ne.
Qed.

Lemma tasksById_fmap (f : Task → Task) ts i :
  (∀ a, Task.id (f a) = Task.id a) →
  tasksById (f <$> ts) !! i = f <$> tasksById ts !! i.
Proof.
  intros Hf. induction ts as [|a ts IH] using rev_ind.
  - unfold tasksById; simpl. by rewrite lookup_empty.
  - rewrite fmap_app. simpl. rewrite !tasksById_snoc, Hf.
    destruct (decide (Task.id a = i)) as [<-|Hne].
    + by rewrite !lookup_insert_eq.
    + by rewrite !lookup_insert_ne.
Qed.

Lemma addTask_tasks newId taskData s :
  ∃ a, Store.tasks (addTask newId taskData s) = Store.tasks s ++ [a]
       ∧ Task.id a = newId
       ∧ Task.completed a = Some false
       ∧ Task.parentTaskId a = None
       ∧ Task.projectId a = Task.projectId taskData.
Proof. eexists. by split_and!. Qed.

Lemma addTask_projectsById newId taskData s i :
  Project.status <$> projectsById (Store.projects (addTask newId taskData s)) !! i
  = Project.status <$> projectsById (Store.projects s) !! i.
Proof.
  unfold addTask; simpl. destruct (truthy (Task.projectId taskData)); [|done].
  rewrite projectsById_fmap by (intros p; by case_decide).
  destruct (projectsById (Store.projects s) !! i) as [p|]; [|done].
  simpl. by case_decide.
Qed.

(** X6. The task [addTask] appends is not completed and has no parent,
    whatever the data it is given say; its identifier is in the priority
    list, which stays without repetition. When the project it names, if any,
    is not a completed one, the project rows show the new task in their
    priority order, and so does the dashboard when the project exists. *)
Theorem addTask_displayed newId taskData s :
  newId ≠ "" →
  (∀ i p, Task.projectId taskData = Some i → i ≠ "" →
          projectsById (Store.projects s) !! i = Some p →
          Project.status p = InProgress) →
  (∃ a, last (Store.tasks (addTask newId taskData s)) = Some a
        ∧ tasksById (Store.tasks (addTask newId taskData s)) !! newId = Some a
        ∧ Task.completed a = Some false
        ∧ Task.parentTaskId a = None
        ∧ Task.projectId a = Task.projectId taskData)
  ∧ newId ∈ Store.prioritizedTaskIds (addTask newId taskData s)
  ∧ (NoDup (Store.prioritizedTaskIds s) →
     NoDup (Store.prioritizedTaskIds (addTask newId taskData s)))
  ∧ newId ∈ ProjectsView.prioritizedDisplayOrder (addTask newId taskData s)
  ∧ (∀ i, Task.projectId taskData = Some i → i ≠ "" →
          is_Some (projectsById (Store.projects s) !! i) →
          newId ∈ Dashboard.filteredPrioritized (addTask newId taskData s)).
Proof.
  intros Hne Hproj.
  destruct (addTask_tasks newId taskData s) as (a & Hts & Hid & Hdone & Hpar & Hpid).
  assert (Hlook : tasksById (Store.tasks (addTask newId taskData s)) !! newId = Some a).
  { by rewrite Hts, tasksById_snoc, Hid, lookup_insert_eq. }
  assert (Hprio : newId ∈ Store.prioritizedTaskIds (addTask newId taskData s)).
  { unfold addTask; simpl.
    destruct (JSSet.has newId (Store.prioritizedTaskIds s)) eqn:Hh.
    - by apply JSSet_has_true.
    - apply elem_of_app; right. by apply list_elem_of_singleton. }
  assert (Hcarrier : ∀ b, NearestCarrier
                            (tasksById (Store.tasks (addTask newId taskData s)))
                            newId b → b = a ∧ truthy (Task.projectId a) = true).
  { intros b Hb.
    inversion Hb as [cur a0 Ha0 Ht|cur a0 parent b0 Ha0 Ht Hp]; subst;
      rewrite Hlook in Ha0; injection Ha0 as <-; [done|congruence]. }
  split_and!.
  - exists a. split_and!; try done. by rewrite Hts, last_snoc.
  - done.
  - intros Hnd. unfold addTask; simpl.
    destruct (JSSet.has newId (Store.prioritizedTaskIds s)) eqn:Hh; [done|].
    apply JSSet_has_false in Hh. apply NoDup_app. split_and!; [done| |apply NoDup_singleton].
    intros x Hx ->%list_elem_of_singleton. done.
  - apply list_elem_of_filter. split; [|by apply JSSet_elem_of_from].
    unfold ProjectsView.keep. rewrite Hlook, Hdone. simpl.
    destruct (findRoot_ResolvedRoot (addTask newId taskData s) newId Hne)
      as [(b & i & Hb & Hi & Hr)|[_ ->]]; [|done].
    apply Hcarrier in Hb as [-> Ht]. rewrite Hr.
    pose proof (addTask_projectsById newId taskData s i) as Hst.
    destruct (projectsById (Store.projects (addTask newId taskData s)) !! i)
      as [p'|]; [|done].
    destruct (projectsById (Store.projects s) !! i) as [p|] eqn:Hp; [|done].
    injection Hst as Hst. simpl. unfold isInProgress. apply bool_decide_eq_true.
    rewrite Hst. apply (Hproj i p); [congruence| |done].
    rewrite Hi in Ht. apply truthy_Some in Ht as (v & [= <-] & ?). done.
  - intros i Hi Hine [p Hp]. apply list_elem_of_filter. split; [|done].
    rewrite Dashboard_keep_eq, Hlook, Hdone. simpl.
    pose proof (addTask_projectsById newId taskData s i) as Hst.
    rewrite Hp in Hst.
    assert (findRoot (addTask newId taskData s) newId
            = projectsById (Store.projects (addTask newId taskData s)) !! i) as ->.
    { apply findRoot_spec; [done|]. left. exists a, i. split_and!; [|congruence|done].
      constructor; [done|]. rewrite Hpid, Hi. by apply truthy_true. }
    destruct (projectsById (Store.projects (addTask newId taskData s)) !! i)
      as [p'|]; simpl in Hst; [|done].
    injection Hst as Hst. unfold isInProgress. apply bool_decide_eq_true.
    rewrite Hst. by apply (Hproj i p).
Qed.

Lemma addTask_displayed_witness :
  "n" ∈ ProjectsView.prioritizedDisplayOrder
          (addTask "n" (mkTask "" "N" false (Some "p") None) layoutStore).
Proof.
  apply (addTask_displayed "n" (mkTask "" "N" false (Some "p") None) layoutStore).
  - discriminate.
  - intros i p [= <-] _. vm_compute. by intros [= <-].
Defined.

(** X7. After [linkTaskToProject] every task with that identifier names the
    project and has no parent, the other tasks are as they were, and the
    task resolves to that project. When React ran the updater of [setTasks]
    at once, the cached list of the project ends with the linked task; when
    it left the updater for the next render, the cached lists are as they
    were, and the project does not have the task in its list. The cached
    list of no other project is touched either way, so a project that had
    the task keeps its copy. *)
Theorem linkTaskToProject_root eager taskId projectId s :
  taskId ≠ "" → projectId ≠ "" →
  is_Some (findTask taskId (Store.tasks s)) →
  (∀ a, a ∈ Store.tasks (linkTaskToProject eager taskId projectId s) →
        Task.id a = taskId →
        Task.projectId a = Some projectId ∧ Task.parentTaskId a = None)
  ∧ (∀ k a, Store.tasks s !! k = Some a → Task.id a ≠ taskId →
            Store.tasks (linkTaskToProject eager taskId projectId s) !! k = Some a)
  ∧ findRoot (linkTaskToProject eager taskId projectId s) taskId
    = projectsById (Store.projects (linkTaskToProject eager taskId projectId s))
        !! projectId
  ∧ (eager = true →
     ∀ p, p ∈ Store.projects (linkTaskToProject eager taskId projectId s) →
          Project.id p = projectId →
          ∃ a, last (Project.tasks p) = Some a
               ∧ tasksById (Store.tasks (linkTaskToProject eager taskId projectId s))
                   !! taskId = Some a)
  ∧ (eager = false →
     Store.projects (linkTaskToProject eager taskId projectId s)
     = Store.projects s)
  ∧ (∀ k p, Store.projects s !! k = Some p → Project.id p ≠ projectId →
            Store.projects (linkTaskToProject eager taskId projectId s) !! k = Some p).
Proof.
  intros Hne Hpne [t Ht].
  apply findTask_Some in Ht as [Ht Hid].
  destruct (last_filter_Some (λ a, Task.id a = taskId) _ t Ht Hid)
    as (x & Hlast & Hx & Hxid).
  assert (Hlook : tasksById (Store.tasks (linkTaskToProject eager taskId projectId s))
                    !! taskId
                  = Some (Task.withLinks (Some projectId) None x)).
  { unfold linkTaskToProject; simpl.
    rewrite tasksById_fmap by (intros a; by case_decide).
    rewrite tasksById_lookup, Hlast. simpl. by rewrite decide_True. }
  split_and!.
  - intros a Ha Ha_id. unfold linkTaskToProject in Ha; simpl in Ha.
    apply list_elem_of_fmap in Ha as (b & -> & Hb).
    case_decide as Hd; [done|]. by destruct Hd.
  - intros k a Hk Hn. unfold linkTaskToProject; simpl.
    rewrite list_lookup_fmap, Hk. simpl. by rewrite decide_False.
  - apply findRoot_spec; [done|]. left.
    exists (Task.withLinks (Some projectId) None x), projectId.
    split_and!; [|done|done]. constructor; [done|]. by apply truthy_true.
  - intros -> p Hp Hpid. rewrite Hlook.
    unfold linkTaskToProject in Hp; simpl in Hp. rewrite Hlast in Hp. simpl in Hp.
    apply list_elem_of_fmap in Hp as (q & -> & Hq).
    case_decide as Hd.
    + eexists. split; [|done]. simpl. by rewrite last_snoc.
    + done.
  - by intros ->.
  - intros k p Hk Hn. unfold linkTaskToProject; simpl.
    destruct eager; [|done]. rewrite Hlast. simpl.
    rewrite list_lookup_fmap, Hk. simpl. by rewrite decide_False.
Qed.

(** The unlinked task "u" is linked to the project "q" while React leaves
    the updater for the next render: "u" resolves to "q", whose cached list
    is still empty. *)
Lemma linkTaskToProject_root_witness :
  findRoot (linkTaskToProject false "u" "q" layoutStore) "u"
  = Some (mkProject "q" InProgress [])
  ∧ Task.projectId
      <$> findTask "u" (Store.tasks (linkTaskToProject false "u" "q" layoutStore))
    = Some (Some "q")
  ∧ Project.tasks
      <$> findProject "q"
            (Store.projects (linkTaskToProject true "u" "q" layoutStore))
    = Some [mkTask "u" "U" false (Some "q") None].
Proof.
  assert ("u" ≠ "") as H1 by discriminate.
  assert ("q" ≠ "") as H2 by discriminate.
  assert (is_Some (findTask "u" (Store.tasks layoutStore))) as H3 by (by eexists).
  destruct (linkTaskToProject_root false "u" "q" layoutStore H1 H2 H3)
    as (_ & _ & Hroot & _).
  split_and!; [|reflexivity|reflexivity].
  rewrite Hroot. reflexivity.
Defined.

(** X8. After [linkTaskToTask] the child resolves to the root project its
    parent resolves to, whatever the links were before, cycles included. The
    tasks with the parent's identifier are completed: when the child is not
    its own parent, the parent is in no priority view. *)
Theorem linkTaskToTask_inherits_root completionTimestamp childTaskId parentTaskId s :
  childTaskId ≠ "" → parentTaskId ≠ "" →
  is_Some (findTask childTaskId (Store.tasks s)) →
  findRoot (linkTaskToTask completionTimestamp childTaskId parentTaskId s) childTaskId
  = findRoot (linkTaskToTask completionTimestamp childTaskId parentTaskId s) parentTaskId
  ∧ (childTaskId ≠ parentTaskId →
     (∀ a, a ∈ ProjectsView.tasksForPrioritization
                 (linkTaskToTask completionTimestamp childTaskId parentTaskId s) →
           Task.id a ≠ parentTaskId)
     ∧ (parentTaskId ∉ ProjectsView.prioritizedDisplayOrder
                         (linkTaskToTask completionTimestamp childTaskId parentTaskId s))
     ∧ (parentTaskId ∉ Dashboard.filteredPrioritized
                         (linkTaskToTask completionTimestamp childTaskId parentTaskId s))).
Proof.
  intros Hne Hpne [t Ht].
  set (s' := linkTaskToTask completionTimestamp childTaskId parentTaskId s).
  assert (is_Some (tasksById (Store.tasks s) !! childTaskId)) as [x Hx].
  { apply tasksById_is_Some. apply findTask_Some in Ht as [? ?]. by exists t. }
  assert (Hlook : tasksById (Store.tasks s') !! childTaskId
                  = Some (Task.withLinks None (Some parentTaskId) x)).
  { unfold s', linkTaskToTask; simpl.
    rewrite tasksById_fmap by (intros a; by repeat case_decide).
    rewrite Hx. simpl. apply tasksById_Some in Hx as [_ Hxid].
    by rewrite decide_True. }
  split.
  - apply findRoot_spec; [done|].
    destruct (findRoot_ResolvedRoot s' parentTaskId Hpne)
      as [(a & i & Ha & Hi & Hr)|[Hno Hr]].
    + left. exists a, i. split_and!; [|done|done].
      by eapply NearestCarrier_up.
    + right. split; [|done]. intros a Ha. apply (Hno a).
      inversion Ha as [cur a0 Ha0 Ht0|cur a0 parent b0 Ha0 Ht0 Hp _ Hup]; subst;
        rewrite Hlook in Ha0; injection Ha0 as <-; [done|].
      simpl in Hp. by injection Hp as <-.
  - intros Hcp.
    assert (Hdone : ∀ a, a ∈ Store.tasks s' → Task.id a = parentTaskId →
                         truthyFlag (Task.completed a) = true).
    { intros a Ha Hid. unfold s', linkTaskToTask in Ha; simpl in Ha.
      apply list_elem_of_fmap in Ha as (b & -> & Hb).
      repeat case_decide; simpl in *; try done; congruence. }
    assert (Hkeep : ∀ a, tasksById (Store.tasks s') !! parentTaskId = Some a →
                         truthyFlag (Task.completed a) = true).
    { intros a [Ha Hid]%tasksById_Some. by apply Hdone. }
    split_and!.
    + intros a [Hk Ha]%list_elem_of_filter Hid.
      by rewrite (Hdone a Ha Hid) in Hk.
    + intros [Hk _]%list_elem_of_filter. unfold ProjectsView.keep in Hk.
      destruct (tasksById (Store.tasks s') !! parentTaskId) as [a|] eqn:Ha; [|done].
      by rewrite (Hkeep a eq_refl) in Hk.
    + intros [Hk _]%list_elem_of_filter. rewrite Dashboard_keep_eq in Hk.
      destruct (tasksById (Store.tasks s') !! parentTaskId) as [a|] eqn:Ha; [|done].
      by rewrite (Hkeep a eq_refl) in Hk.
Qed.

Lemma linkTaskToTask_inherits_root_witness :
  findRoot (linkTaskToTask "now" "u" "c1" layoutStore) "u"
  = findRoot (linkTaskToTask "now" "u" "c1" layoutStore) "c1".
Proof.
  apply (linkTaskToTask_inherits_root "now" "u" "c1" layoutStore);
    [discriminate|discriminate|by eexists].
Defined.

(** ** [unlinkTaskFromParent] *)

Section ancestorWalk.
Variable ts : list Task.

Lemma ancestorWalk_S fuel parentId :
  ancestorWalk (S fuel) ts parentId
  = if truthy parentId then
      match parentId ≫= λ i, findTask i ts with
      | None => Some None
      | Some parentTask =>
          if truthy (Task.projectId parentTask)
          then Some (Task.projectId parentTask)
          else ancestorWalk fuel ts (Task.parentTaskId parentTask)
      end
    else Some None.
Proof. reflexivity. Qed.

Lemma ancestorWalk_WalkEnds :
  ∀ fuel parentId r,
    ancestorWalk fuel ts parentId = Some r →
    ∃ n, (n ≤ fuel)%nat ∧ WalkEnds ts n parentId r.
Proof.
  induction fuel as [|fuel IH]; intros parentId r H; [done|]. simpl in H.
  destruct (truthy parentId) eqn:Ht.
  - apply truthy_Some in Ht as (i & -> & Hi). simpl in H.
    destruct (findTask i ts) as [parentTask|] eqn:Hf.
    + destruct (truthy (Task.projectId parentTask)) eqn:Hp.
      * injection H as <-. exists 1%nat. split; [lia|by constructor].
      * apply IH in H as (n & Hn & Hw). exists (S n). split; [lia|].
        by eapply WalkEnds_up.
    + injection H as <-. exists 1%nat. split; [lia|by constructor].
  - injection H as <-. exists 1%nat. split; [lia|by constructor].
Qed.

Lemma WalkEnds_ancestorWalk n parentId r :
  WalkEnds ts n parentId r →
  ∀ fuel, (n ≤ fuel)%nat → ancestorWalk fuel ts parentId = Some r.
Proof.
  induction 1 as [parentId Ht|i Hi Hf|i parentTask Hi Hf Hp
                  |n i parentTask r Hi Hf Hp Hw IH];
    intros [|fuel] Hle; try lia; rewrite ancestorWalk_S.
  - by rewrite Ht.
  - rewrite (truthy_true i Hi). simpl. by rewrite Hf.
  - rewrite (truthy_true i Hi). simpl. by rewrite Hf, Hp.
  - rewrite (truthy_true i Hi). simpl. rewrite Hf, Hp. apply IH. lia.
Qed.

Lemma WalkEnds_pos n parentId r : WalkEnds ts n parentId r → (1 ≤ n)%nat.
Proof. destruct 1; lia. Qed.

Lemma WalkEnds_det n parentId r :
  WalkEnds ts n parentId r → ∀ m r', WalkEnds ts m parentId r' → n = m ∧ r = r'.
Proof.
  intros Hn m r' Hm.
  pose proof (WalkEnds_ancestorWalk _ _ _ Hn (n `max` m)%nat ltac:(lia)) as E1.
  pose proof (WalkEnds_ancestorWalk _ _ _ Hm (n `max` m)%nat ltac:(lia)) as E2.
  rewrite E1 in E2. injection E2 as <-. split; [|done].
  clear E1. revert m Hm.
  induction Hn as [parentId Ht|i Hi Hf|i parentTask Hi Hf Hp
                   |n i parentTask r Hi Hf Hp Hw IH];
    intros m Hm; inversion Hm; subst;
    repeat match goal with
           | H : truthy (Some ?i) = false, H' : ?i ≠ "" |- _ =>
               rewrite (truthy_true i H') in H
           end;
    try done; try congruence.
  f_equal. apply IH. congruence.
Qed.

(** The tasks the loop has been through before it is left are different
    tasks of the list. *)
Lemma WalkEnds_chain n parentId r :
  WalkEnds ts n parentId r →
  ∃ chain : list string,
    S (length chain) = n
    ∧ NoDup chain
    ∧ (∀ x, x ∈ chain → x ∈ Task.id <$> ts)
    ∧ (∀ x, x ∈ chain → ∃ m r', (m ≤ n)%nat ∧ WalkEnds ts m (Some x) r').
Proof.
  induction 1 as [parentId Ht|i Hi Hf|i parentTask Hi Hf Hp
                  |n i parentTask r Hi Hf Hp Hw IH].
  - exists []. split_and!; [done|constructor|by intros x ?%elem_of_nil..].
  - exists []. split_and!; [done|constructor|by intros x ?%elem_of_nil..].
  - exists []. split_and!; [done|constructor|by intros x ?%elem_of_nil..].
  - destruct IH as (chain & Hlen & Hnd & Hids & Hends).
    exists (i :: chain). split_and!.
    + simpl. by rewrite Hlen.
    + apply NoDup_cons. split; [|done]. intros Hin.
      destruct (Hends i Hin) as (m & r' & Hm & Hw').
      assert (WalkEnds ts (S n) (Some i) r) as Hfull by (by eapply WalkEnds_up).
      destruct (WalkEnds_det _ _ _ Hfull _ _ Hw'). lia.
    + intros x [->|Hx]%elem_of_cons; [|auto].
      apply findTask_Some in Hf as [? <-]. by apply list_elem_of_fmap_2.
    + intros x [->|Hx]%elem_of_cons.
      * exists (S n), r. split; [lia|]. by eapply WalkEnds_up.
      * destruct (Hends x Hx) as (m & r' & Hm & Hw'). exists m, r'.
        split; [lia|done].
Qed.

Lemma WalkEnds_bound n parentId r :
  WalkEnds ts n parentId r → (n ≤ S (length ts))%nat.
Proof.
  intros (chain & <- & Hnd & Hids & _)%WalkEnds_chain.
  apply le_n_S. rewrite <- (length_fmap Task.id ts).
  by apply submseteq_length, NoDup_submseteq.
Qed.

Lemma ancestorWalk_bound fuel parentId r :
  ancestorWalk fuel ts parentId = Some r →
  ancestorWalk (S (length ts)) ts parentId = Some r.
Proof.
  intros (n & _ & Hw)%ancestorWalk_WalkEnds.
  eapply WalkEnds_ancestorWalk; [done|]. by eapply WalkEnds_bound.
Qed.
End ancestorWalk.

(** X9. The ancestor search of [unlinkTaskFromParent] either is left within
    one test per task of the list and one, or is never left: an operation
    that has not returned by then never returns, and one that returns gives
    the same state whatever the number of iterations allowed. *)
Theorem unlinkTaskFromParent_decided childTaskId s :
  (∀ fuel s', unlinkTaskFromParent fuel childTaskId s = Some s' →
     unlinkTaskFromParent (S (length (Store.tasks s))) childTaskId s = Some s')
  ∧ (unlinkTaskFromParent (S (length (Store.tasks s))) childTaskId s = None →
     ∀ fuel, unlinkTaskFromParent fuel childTaskId s = None).
Proof.
  assert (Hsome : ∀ fuel s', unlinkTaskFromParent fuel childTaskId s = Some s' →
            unlinkTaskFromParent (S (length (Store.tasks s))) childTaskId s = Some s').
  { intros fuel s'. unfold unlinkTaskFromParent.
    destruct (findTask childTaskId (Store.tasks s)) as [c|]; [|done].
    destruct (truthy (Task.parentTaskId c)); [|done].
    destruct (ancestorWalk fuel _ _) as [r|] eqn:Hw; [|done].
    by rewrite (ancestorWalk_bound _ _ _ _ Hw). }
  split; [done|]. intros Hnone fuel.
  destruct (unlinkTaskFromParent fuel childTaskId s) as [s'|] eqn:E; [|done].
  apply Hsome in E. congruence.
Qed.

Lemma unlinkTaskFromParent_decided_witness :
  unlinkTaskFromParent 1000 "c" cycleStore = None.
Proof.
  apply (proj2 (unlinkTaskFromParent_decided "c" cycleStore)). reflexivity.
Defined.

Lemma NearestCarrier_inv tById cur b :
  NearestCarrier tById cur b →
  ∃ a, tById !! cur = Some a
       ∧ ((truthy (Task.projectId a) = true ∧ b = a)
          ∨ (truthy (Task.projectId a) = false
             ∧ ∃ parent, Task.parentTaskId a = Some parent ∧ parent ≠ ""
                         ∧ NearestCarrier tById parent b)).
Proof. destruct 1; eauto 10. Qed.

Lemma findTask_tasksById ts i :
  NoDup (Task.id <$> ts) → findTask i ts = tasksById ts !! i.
Proof.
  intros Hnd. destruct (findTask i ts) as [a|] eqn:Hf.
  - apply findTask_Some in Hf as [Ha Hid].
    destruct (proj2 (tasksById_is_Some ts i)) as [b Hb]; [by exists a|].
    rewrite Hb. apply tasksById_Some in Hb as [Hb Hbid].
    f_equal. apply (unique_task ts); [done..|congruence].
  - destruct (tasksById ts !! i) as [b|] eqn:Hb; [|done].
    apply tasksById_Some in Hb as [Hb Hbid].
    by destruct (proj1 (findTask_None i ts) Hf b Hb).
Qed.

Lemma ancestorWalk_result ts :
  ∀ fuel parentId r,
    ancestorWalk fuel ts parentId = Some r →
    r = None ∨ (truthy r = true ∧ ∃ a, a ∈ ts ∧ Task.projectId a = r).
Proof.
  induction fuel as [|fuel IH]; intros parentId r H; [done|].
  rewrite ancestorWalk_S in H.
  destruct (truthy parentId); [|left; congruence].
  destruct (parentId ≫= _) as [parentTask|] eqn:Hf; [|left; congruence].
  destruct (truthy (Task.projectId parentTask)) eqn:Hp; [|by eapply IH].
  injection H as <-. right. split; [done|]. exists parentTask. split; [|done].
  destruct parentId as [i|]; [|done]. simpl in Hf.
  by apply findTask_Some in Hf as [? _].
Qed.

(** With unique identifiers the ancestor search follows the links the root
    resolution of the views follows. *)
Lemma WalkEnds_NearestCarrier ts n parentId r :
  NoDup (Task.id <$> ts) →
  WalkEnds ts n parentId r →
  (r = None ∧ ∀ i a, parentId = Some i → i ≠ "" →
                     ¬ NearestCarrier (tasksById ts) i a)
  ∨ (∃ i a, parentId = Some i ∧ i ≠ "" ∧ NearestCarrier (tasksById ts) i a
            ∧ Task.projectId a = r).
Proof.
  intros Hnd.
  induction 1 as [parentId Ht|i Hi Hf|i parentTask Hi Hf Hp
                  |n i parentTask r Hi Hf Hp Hw IH].
  - left. split; [done|]. intros i a -> Hi. by rewrite truthy_true in Ht.
  - left. split; [done|]. intros j a [= <-] _ Hc.
    rewrite (findTask_tasksById _ _ Hnd) in Hf. inversion Hc; congruence.
  - right. exists i, parentTask. split_and!; try done.
    constructor; [|done]. by rewrite <- (findTask_tasksById _ _ Hnd).
  - rewrite (findTask_tasksById _ _ Hnd) in Hf.
    destruct IH as [[-> Hno]|(j & a & Hj & Hjne & Hc & Hr)].
    + left. split; [done|]. intros j a [= <-] _ Hc.
      inversion Hc as [cur a0 Ha0 Ht|cur a0 parent b0 Ha0 Ht Hpar Hne Hup]; subst;
        rewrite Hf in Ha0; injection Ha0 as <-; [congruence|].
      by eapply Hno.
    + right. exists i, a. split_and!; try done. by eapply NearestCarrier_up.
Qed.

Lemma UpPath_walk ts p l :
  NoDup (Task.id <$> ts) → UpPath ts p l →
  is_Some (ancestorWalk (S (length l)) ts (Some p)).
Proof.
  intros Hnd.
  assert (Hfind : ∀ k, k ∈ ts → findTask (Task.id k) ts = Some k).
  { intros k Hk. destruct (findTask_is_Some (Task.id k) ts k Hk eq_refl) as [k' Hk'].
    rewrite Hk'. apply findTask_Some in Hk' as [? ?]. f_equal.
    by apply (unique_task ts). }
  induction 1 as [r Hr Hp|k p l Hk Hp Hne Hup IH];
    rewrite ancestorWalk_S; (destruct (truthy (Some _)); [|by eauto]); simpl.
  - rewrite (Hfind r Hr). destruct (truthy (Task.projectId r)); [by eauto|].
    rewrite Hp. by eauto.
  - rewrite (Hfind k Hk). destruct (truthy (Task.projectId k)); [by eauto|].
    by rewrite Hp.
Qed.

(** X10. On a forest the operation returns: when the identifiers of the flat
    list are unique and the parent links lead from the child up to a task
    without parent, [unlinkTaskFromParent] is left within one test per task
    and one. *)
Theorem unlinkTaskFromParent_returns_on_forest childTaskId s l :
  NoDup (Task.id <$> Store.tasks s) →
  UpPath (Store.tasks s) childTaskId l →
  is_Some (unlinkTaskFromParent (S (length (Store.tasks s))) childTaskId s).
Proof.
  intros Hnd Hup. unfold unlinkTaskFromParent.
  destruct (findTask childTaskId (Store.tasks s)) as [c|] eqn:Hc; [|by eauto].
  destruct (truthy (Task.parentTaskId c)) eqn:Ht; [|by eauto].
  apply findTask_Some in Hc as [Hc Hid].
  assert (∃ p l0, Task.parentTaskId c = Some p ∧ UpPath (Store.tasks s) p l0)
    as (p & l0 & Hp & Hup0).
  { inversion Hup as [r Hr Hrp Hrid|k p l0 Hk Hp Hne Hup0 Hkid].
    - assert (r = c) as -> by (apply (unique_task (Store.tasks s)); congruence).
      congruence.
    - assert (k = c) as -> by (apply (unique_task (Store.tasks s)); congruence).
      eauto. }
  rewrite Hp.
  destruct (UpPath_walk _ _ _ Hnd Hup0) as [r Hr].
  rewrite (ancestorWalk_fuel_mono _ _ (S (length (Store.tasks s))) _ _ Hr);
    [by eauto|].
  apply le_n_S. by eapply UpPath_length.
Qed.

Lemma unlinkTaskFromParent_returns_on_forest_witness :
  is_Some (unlinkTaskFromParent (S (length layoutTasks)) "c1" layoutStore).
Proof.
  apply (unlinkTaskFromParent_returns_on_forest "c1" layoutStore ["c1"; "r1"]).
  - apply (bool_decide_unpack _). vm_compute. exact I.
  - apply (UpPath_child layoutTasks (mkTask "c1" "A" false None (Some "r1")) "r1" ["r1"]);
      [by apply (list_elem_of_lookup_2 _ 4%nat)|reflexivity|discriminate|].
    apply (UpPath_root layoutTasks (mkTask "r1" "R1" false (Some "p") None));
      [by apply (list_elem_of_lookup_2 _ 2%nat)|reflexivity].
Defined.

(** X11. What [unlinkTaskFromParent] returns for a child that has a parent:
    the tasks with the child's identifier have no parent and name the
    project [r] the search found, a project named by a task of the list or
    none; the other tasks are as they were. The child is cached in the
    projects with the identifier [r] and in no other, at the end of their
    list, and it resolves to that project. With unique identifiers and a
    child that named no project itself, the root project it resolves to has
    the identifier and the status of the one it resolved to before. *)
Theorem unlinkTaskFromParent_post fuel childTaskId s s' c :
  childTaskId ≠ "" →
  findTask childTaskId (Store.tasks s) = Some c →
  truthy (Task.parentTaskId c) = true →
  unlinkTaskFromParent fuel childTaskId s = Some s' →
  ∃ r,
    (r = None ∨ (truthy r = true ∧ ∃ a, a ∈ Store.tasks s ∧ Task.projectId a = r))
    ∧ (∀ a, a ∈ Store.tasks s' → Task.id a = childTaskId →
            a = Task.withLinks r None c)
    ∧ (∀ k a, Store.tasks s !! k = Some a → Task.id a ≠ childTaskId →
              Store.tasks s' !! k = Some a)
    ∧ (∀ p a, p ∈ Store.projects s' → a ∈ Project.tasks p →
              Task.id a = childTaskId →
              Some (Project.id p) = r ∧ a = Task.withLinks r None c)
    ∧ (∀ p, p ∈ Store.projects s' → Some (Project.id p) = r →
            last (Project.tasks p) = Some (Task.withLinks r None c))
    ∧ findRoot s' childTaskId = r ≫= (λ i, projectsById (Store.projects s') !! i)
    ∧ (NoDup (Task.id <$> Store.tasks s) →
       truthy (Task.projectId c) = false →
       Project.id <$> findRoot s' childTaskId = Project.id <$> findRoot s childTaskId
       ∧ Project.status <$> findRoot s' childTaskId
         = Project.status <$> findRoot s childTaskId).
Proof.
  intros Hne Hc Ht Hrun. unfold unlinkTaskFromParent in Hrun.
  rewrite Hc, Ht in Hrun.
  destruct (ancestorWalk fuel (Store.tasks s) (Task.parentTaskId c)) as [r|] eqn:Hw;
    [|done].
  simpl in Hrun. injection Hrun as <-. exists r.
  pose proof (ancestorWalk_result _ _ _ _ Hw) as Hr.
  pose proof (findTask_Some _ _ _ Hc) as [Hcin Hcid].
  set (uc := Task.withLinks r None c).
  set (g := λ p : Project,
         if truthy r && bool_decide (Some (Project.id p) = r)
         then Project.withTasks
                (filter (λ a, Task.id a ≠ childTaskId) (Project.tasks p) ++ [uc]) p
         else Project.withTasks
                (filter (λ a, Task.id a ≠ childTaskId) (Project.tasks p)) p).
  assert (Hgid : ∀ p, Project.id (g p) = Project.id p).
  { intros p. unfold g. by destruct (_ && _). }
  assert (Hgst : ∀ p, Project.status (g p) = Project.status p).
  { intros p. unfold g. by destruct (_ && _). }
  assert (Hlook : tasksById
                    ((λ a, if decide (Task.id a = childTaskId) then uc else a)
                       <$> Store.tasks s) !! childTaskId = Some uc).
  { rewrite tasksById_fmap
      by (intros a; case_decide; [unfold uc; simpl; congruence|done]).
    destruct (proj2 (tasksById_is_Some (Store.tasks s) childTaskId)) as [x Hx];
      [by exists c|].
    rewrite Hx. simpl. apply tasksById_Some in Hx as [_ Hx]. by rewrite decide_True. }
  assert (Hroot : findRoot
            (Store.mk (g <$> Store.projects s)
               ((λ a, if decide (Task.id a = childTaskId) then uc else a)
                  <$> Store.tasks s)
               (Store.prioritizedTaskIds s)) childTaskId
          = r ≫= (λ i, projectsById (g <$> Store.projects s) !! i)).
  { apply findRoot_spec; [done|]. simpl.
    destruct Hr as [->|[Htr _]].
    - right. split; [|done]. intros a Ha.
      apply NearestCarrier_inv in Ha as (a0 & Ha0 & Hcase).
      simpl in Ha0. rewrite Hlook in Ha0. injection Ha0 as <-.
      by destruct Hcase as [[? _]|[_ (parent & ? & _)]].
    - left. destruct (truthy_Some _ Htr) as (i & -> & Hi).
      exists uc, i. split_and!; try done. by constructor. }
  split_and!.
  - done.
  - intros a Ha Hid. simpl in Ha. apply list_elem_of_fmap in Ha as (b & -> & Hb).
    case_decide as Hd; [done|]. by destruct Hd.
  - intros k a Hk Hn. simpl. rewrite list_lookup_fmap, Hk. simpl.
    by rewrite decide_False.
  - intros p a Hp Ha Hid. simpl in Hp.
    apply list_elem_of_fmap in Hp as (q & -> & Hq).
    fold (g q) in Ha |- *. rewrite Hgid. unfold g in Ha.
    destruct (truthy r && bool_decide (Some (Project.id q) = r)) eqn:Hcond;
      simpl in Ha.
    + apply elem_of_app in Ha as [[Hx _]%list_elem_of_filter|Ha]; [done|].
      apply list_elem_of_singleton in Ha as ->.
      apply andb_true_iff in Hcond as [_ Hq2].
      by apply bool_decide_eq_true in Hq2.
    + by apply list_elem_of_filter in Ha as [Hx _].
  - intros p Hp Hpr. simpl in Hp.
    apply list_elem_of_fmap in Hp as (q & -> & Hq).
    fold (g q) in Hpr |- *. rewrite Hgid in Hpr. unfold g.
    assert (truthy r && bool_decide (Some (Project.id q) = r) = true) as ->.
    { apply andb_true_iff. split; [|by apply bool_decide_eq_true].
      destruct Hr as [->|[? _]]; done. }
    simpl. by rewrite last_snoc.
  - exact Hroot.
  - intros Hnd Hcp. rewrite Hroot.
    assert (Hcl : tasksById (Store.tasks s) !! childTaskId = Some c).
    { by rewrite <- (findTask_tasksById _ _ Hnd). }
    destruct (truthy_Some _ Ht) as (p & Hp & Hpne).
    apply ancestorWalk_WalkEnds in Hw as (n & _ & Hw).
    destruct (WalkEnds_NearestCarrier _ _ _ _ Hnd Hw)
      as [[-> Hno]|(j & a & Hj & Hjne & Hcar & Hproj)].
    + assert (findRoot s childTaskId = None) as ->; [|done].
      apply findRoot_spec; [done|]. right. split; [|done]. intros a Ha.
      apply NearestCarrier_inv in Ha as (a0 & Ha0 & Hcase).
      rewrite Hcl in Ha0. injection Ha0 as <-.
      destruct Hcase as [[? _]|[_ (parent & Hpar & Hpn & Hup)]]; [congruence|].
      eapply Hno; [|done|done]. congruence.
    + destruct Hr as [->|[Htr _]].
      * assert (findRoot s childTaskId = None) as ->; [|done].
        apply findRoot_spec; [done|].
        assert (NearestCarrier (tasksById (Store.tasks s)) childTaskId a) as Hca.
        { by apply (NearestCarrier_up _ childTaskId c j a). }
        assert (truthy (Task.projectId a) = true) as Hta.
        { clear -Hcar. induction Hcar; done. }
        by rewrite Hproj in Hta.
      * destruct (truthy_Some _ Htr) as (i & -> & Hi). simpl.
        assert (findRoot s childTaskId = projectsById (Store.projects s) !! i) as ->.
        { apply findRoot_spec; [done|]. left. exists a, i. split_and!; try done.
          by apply (NearestCarrier_up _ childTaskId c j a). }
        rewrite projectsById_fmap by done.
        destruct (projectsById (Store.projects s) !! i) as [q|]; simpl; [|done].
        by rewrite Hgid, Hgst.
Qed.

Lemma unlinkTaskFromParent_post_witness :
  ∃ s' r, unlinkTaskFromParent 3 "c1" layoutStore = Some s'
          ∧ findRoot s' "c1" = r ≫= (λ i, projectsById (Store.projects s') !! i).
Proof.
  eexists. 
  destruct (unlinkTaskFromParent_post 3 "c1" layoutStore _
              (mkTask "c1" "A" false None (Some "r1"))
              ltac:(discriminate) eq_refl eq_refl eq_refl)
    as (r & _ & _ & _ & _ & _ & Hroot & _).
  exists r. split; [reflexivity|exact Hroot].
Defined.

(** ** The traversal and the root resolution agree *)

Lemma projectsById_Some ps i p :
  projectsById ps !! i = Some p → p ∈ ps ∧ Project.id p = i.
Proof.
  induction ps as [|q ps IH] using rev_ind.
  - unfold projectsById; simpl. by rewrite lookup_empty.
  - rewrite projectsById_snoc. destruct (decide (Project.id q = i)) as [<-|Hne].
    + rewrite lookup_insert_eq. intros [= <-]. split; [|done].
      apply elem_of_app; right. by apply list_elem_of_singleton.
    + rewrite lookup_insert_ne by done. intros [? ?]%IH. split; [|done].
      apply elem_of_app; by left.
Qed.

Lemma findRoot_empty s : findRoot s "" = None.
Proof. reflexivity. Qed.

Lemma findRoot_Some s i p :
  findRoot s i = Some p →
  i ≠ ""
  ∧ ∃ a j, NearestCarrier (tasksById (Store.tasks s)) i a
           ∧ Task.projectId a = Some j
           ∧ projectsById (Store.projects s) !! j = Some p.
Proof.
  intros H. destruct (decide (i = "")) as [->|Hne].
  - by rewrite findRoot_empty in H.
  - split; [done|].
    destruct (findRoot_ResolvedRoot s i Hne) as [(a & j & Ha & Hj & Hr)|[_ Hr]];
      [|congruence].
    exists a, j. split_and!; [done|done|congruence].
Qed.

Lemma NearestCarrier_truthy tById i a :
  NearestCarrier tById i a → truthy (Task.projectId a) = true.
Proof. induction 1; done. Qed.

(** A task that resolves to a carrier naming the project is in the closure of
    the tasks that name the project. *)
Lemma NearestCarrier_Descendant ts projectId i a :
  NearestCarrier (tasksById ts) i a → Task.projectId a = Some projectId →
  Descendant ts (projectSeeds projectId ts) i.
Proof.
  induction 1 as [cur a Ha Ht|cur a parent b Ha Ht Hp Hne Hup IH]; intros Hproj.
  - apply tasksById_Some in Ha as [Ha <-]. constructor.
    apply list_elem_of_fmap_2. by apply list_elem_of_filter.
  - apply tasksById_Some in Ha as [Ha <-]. eapply Descendant_child; [done|done|].
    by apply IH.
Qed.

Lemma Descendant_NearestCarrier ts projectId i :
  NoDup (Task.id <$> ts) → Forall exclusive ts →
  (∀ a, a ∈ ts → Task.id a ≠ "") → projectId ≠ "" →
  Descendant ts (projectSeeds projectId ts) i →
  ∃ b, NearestCarrier (tasksById ts) i b ∧ Task.projectId b = Some projectId.
Proof.
  intros Hnd Hex Hids Hpne.
  assert (Hlook : ∀ a, a ∈ ts → tasksById ts !! Task.id a = Some a).
  { intros a Ha. rewrite <- (findTask_tasksById _ _ Hnd).
    destruct (findTask_is_Some (Task.id a) ts a Ha eq_refl) as [a' Ha'].
    rewrite Ha'. apply findTask_Some in Ha' as [? ?]. f_equal.
    by apply (unique_task ts). }
  induction 1 as [i Hi|a p Ha Hp _ IH].
  - apply list_elem_of_fmap in Hi as (a & -> & [Hproj Ha]%list_elem_of_filter).
    exists a. split; [|done]. constructor; [by apply Hlook|].
    rewrite Hproj. by apply truthy_true.
  - destruct IH as (b & Hb & Hproj). exists b. split; [|done].
    apply (NearestCarrier_up _ (Task.id a) a p b); try done.
    + by apply Hlook.
    + rewrite Forall_forall in Hex. destruct (Hex a Ha) as [->|Hn]; [done|congruence].
    + apply NearestCarrier_inv in Hb as (c & [Hc <-]%tasksById_Some & _).
      by apply Hids.
Qed.

(** X12. The traversal of the operations and the root resolution of the
    views agree. On a flat list with unique, non-empty identifiers where no
    task has both links, the descendant closure of the tasks that name a
    project is the set of the tasks whose walk up the parent links ends at a
    task naming the project; a task resolves to a project with that
    identifier exactly when it is in the closure and the project exists. *)
Theorem closure_is_resolved_root projectId s i :
  NoDup (Task.id <$> Store.tasks s) →
  Forall exclusive (Store.tasks s) →
  (∀ a, a ∈ Store.tasks s → Task.id a ≠ "") →
  projectId ≠ "" →
  (i ∈ getAllDescendantTaskIds
         (Task.id <$> tasksOfProject projectId (Store.tasks s)) (Store.tasks s)
   ↔ ∃ b, NearestCarrier (tasksById (Store.tasks s)) i b
          ∧ Task.projectId b = Some projectId)
  ∧ ((∃ p, findRoot s i = Some p ∧ Project.id p = projectId)
     ↔ i ∈ getAllDescendantTaskIds
             (Task.id <$> tasksOfProject projectId (Store.tasks s)) (Store.tasks s)
       ∧ is_Some (projectsById (Store.projects s) !! projectId)).
Proof.
  intros Hnd Hex Hids Hpne.
  assert (Hfirst : i ∈ getAllDescendantTaskIds
                         (Task.id <$> tasksOfProject projectId (Store.tasks s))
                         (Store.tasks s)
                   ↔ ∃ b, NearestCarrier (tasksById (Store.tasks s)) i b
                          ∧ Task.projectId b = Some projectId).
  { rewrite getAllDescendantTaskIds_spec. split.
    - by apply Descendant_NearestCarrier.
    - intros (b & Hb & Hproj). by eapply NearestCarrier_Descendant. }
  split; [done|]. rewrite Hfirst. split.
  - intros (p & Hroot & Hid).
    apply findRoot_Some in Hroot as (_ & a & j & Ha & Hj & Hp).
    apply projectsById_Some in Hp as Hp'. destruct Hp' as [_ Hjid].
    assert (j = projectId) as -> by congruence.
    split; [by exists a|by exists p].
  - intros [(b & Hb & Hproj) [p Hp]]. exists p. split.
    + apply findRoot_spec.
      * apply NearestCarrier_inv in Hb as (c & [Hc <-]%tasksById_Some & _).
        by apply Hids.
      * left. by exists b, projectId.
    + by apply projectsById_Some in Hp as [_ ?].
Qed.

Lemma closure_is_resolved_root_witness :
  "c1" ∈ getAllDescendantTaskIds
           (Task.id <$> tasksOfProject "p" layoutTasks) layoutTasks
  ↔ ∃ b, NearestCarrier (tasksById layoutTasks) "c1" b
         ∧ Task.projectId b = Some "p".
Proof.
  apply (closure_is_resolved_root "p" layoutStore "c1").
  - apply (bool_decide_unpack _). vm_compute. exact I.
  - unfold layoutStore, layoutTasks; simpl.
    repeat (apply Forall_cons; split; [by (left + right)|]). apply Forall_nil_2.
  - intros a Ha. unfold layoutStore, layoutTasks in Ha; simpl in Ha.
    repeat (apply elem_of_cons in Ha as [->|Ha]; [discriminate|]).
    by apply elem_of_nil in Ha.
  - discriminate.
Defined.

(** ** [finishProject], [reactivateProject] and the views *)

Lemma findProject_None i ps :
  findProject i ps = None → ∀ p, p ∈ ps → Project.id p ≠ i.
Proof.
  unfold findProject. intros H p Hp Hid.
  destruct (list_find _ ps) as [[k q]|] eqn:E; [done|].
  apply list_find_None in E. rewrite Forall_forall in E. by apply (E p).
Qed.

Lemma projectsById_is_Some ps i p :
  p ∈ ps → Project.id p = i → is_Some (projectsById ps !! i).
Proof.
  intros Hp Hid. induction ps as [|q ps IH] using rev_ind.
  - by apply elem_of_nil in Hp.
  - rewrite projectsById_snoc. destruct (decide (Project.id q = i)) as [<-|Hne].
    + rewrite lookup_insert_eq. by eauto.
    + rewrite lookup_insert_ne by done. apply IH.
      apply elem_of_app in Hp as [Hp|Hp]; [done|].
      apply list_elem_of_singleton in Hp as ->. done.
Qed.

(** X13. After [finishProject] every project with that identifier is
    completed and collapsed, the flat list is as it was and the priority
    list has only lost identifiers. Whatever is left in the priority list,
    no view shows a task that resolves to the finished project. *)
Theorem finishProject_hides_tasks projectId s :
  (∀ p, p ∈ Store.projects (finishProject projectId s) →
        Project.id p = projectId →
        Project.status p = Completed ∧ Project.isCollapsed p = Some true)
  ∧ (∀ k p, Store.projects s !! k = Some p → Project.id p ≠ projectId →
            Store.projects (finishProject projectId s) !! k = Some p)
  ∧ Store.tasks (finishProject projectId s) = Store.tasks s
  ∧ Store.prioritizedTaskIds (finishProject projectId s)
      `sublist_of` Store.prioritizedTaskIds s
  ∧ (∀ i p, findRoot (finishProject projectId s) i = Some p →
            Project.id p = projectId →
            (i ∉ Dashboard.filteredPrioritized (finishProject projectId s))
            ∧ (i ∉ ProjectsView.prioritizedDisplayOrder (finishProject projectId s))
            ∧ ∀ a, a ∈ ProjectsView.tasksForPrioritization
                         (finishProject projectId s) →
                   Task.id a ≠ i).
Proof.
  assert (Hdone : ∀ p, p ∈ Store.projects (finishProject projectId s) →
            Project.id p = projectId →
            Project.status p = Completed ∧ Project.isCollapsed p = Some true).
  { intros p Hp Hid. unfold finishProject in Hp.
    destruct (findProject projectId (Store.projects s)) as [q|] eqn:Hq.
    - simpl in Hp. apply list_elem_of_fmap in Hp as (p0 & -> & Hp0).
      case_decide as Hd; [done|]. by destruct Hd.
    - by destruct (findProject_None _ _ Hq p Hp). }
  split_and!.
  - done.
  - intros k p Hk Hne. unfold finishProject.
    destruct (findProject projectId (Store.projects s)); [|done]. simpl.
    rewrite list_lookup_fmap, Hk. simpl. by rewrite decide_False.
  - apply finishProject_tasks.
  - unfold finishProject.
    destruct (findProject projectId (Store.projects s)); [|done]. simpl.
    apply sublist_filter.
  - intros i p Hroot Hid.
    assert (isInProgress p = false) as Hst.
    { apply findRoot_Some in Hroot as (_ & a & j & _ & _ & Hp).
      apply projectsById_Some in Hp as [Hp _].
      destruct (Hdone p Hp Hid) as [Hc _].
      unfold isInProgress. rewrite Hc. done. }
    split_and!.
    + intros [Hk _]%list_elem_of_filter. rewrite Dashboard_keep_eq in Hk.
      destruct (tasksById _ !! i); [|done].
      destruct (truthyFlag _); [done|].
      rewrite Hroot in Hk. congruence.
    + intros [Hk _]%list_elem_of_filter. unfold ProjectsView.keep in Hk.
      destruct (tasksById _ !! i); [|done].
      destruct (truthyFlag _); [done|].
      rewrite Hroot in Hk. simpl in Hk. congruence.
    + intros a [Hk _]%list_elem_of_filter <-.
      destruct (truthyFlag _); [done|].
      unfold ProjectsView.findRootProjectForTask in Hk.
      rewrite (proj2 (findRootPlain_project _ _ _) Hroot) in Hk.
      simpl in Hk. congruence.
Qed.

Lemma finishProject_hides_tasks_witness :
  "c1" ∉ ProjectsView.prioritizedDisplayOrder (finishProject "p" layoutStore).
Proof.
  apply (proj2 (proj2 (proj2 (proj2 (finishProject_hides_tasks "p" layoutStore))))
           "c1" (Project.withStatus Completed true (mkProject "p" InProgress []))
           eq_refl eq_refl).
Defined.

(** X14. After [reactivateProject] every project with that identifier is in
    progress and expanded. On a flat list with unique, non-empty identifiers
    where no task has both links, every task in the descendant closure of
    the tasks that name the project, when it is not completed and the
    project exists, is then shown by the dashboard, by the project rows and
    by the priority view. *)
Theorem reactivateProject_shows_tasks projectId s a :
  NoDup (Task.id <$> Store.tasks s) →
  Forall exclusive (Store.tasks s) →
  (∀ b, b ∈ Store.tasks s → Task.id b ≠ "") →
  projectId ≠ "" →
  is_Some (findProject projectId (Store.projects s)) →
  a ∈ Store.tasks s →
  truthyFlag (Task.completed a) = false →
  Descendant (Store.tasks s) (projectSeeds projectId (Store.tasks s)) (Task.id a) →
  (∀ p, p ∈ Store.projects (reactivateProject projectId s) →
        Project.id p = projectId →
        Project.status p = InProgress ∧ Project.isCollapsed p = Some false)
  ∧ Task.id a ∈ Dashboard.filteredPrioritized (reactivateProject projectId s)
  ∧ Task.id a ∈ ProjectsView.prioritizedDisplayOrder (reactivateProject projectId s)
  ∧ a ∈ ProjectsView.tasksForPrioritization (reactivateProject projectId s).
Proof.
  intros Hnd Hex Hids Hpne [q Hq] Ha Hnot Hdesc.
  set (g := λ p : Project, if decide (Project.id p = projectId)
                           then Project.withStatus InProgress false p else p).
  assert (Hts : Store.tasks (reactivateProject projectId s) = Store.tasks s).
  { unfold reactivateProject. by destruct (bool_decide _). }
  assert (Hps : Store.projects (reactivateProject projectId s)
                = g <$> Store.projects s).
  { unfold reactivateProject. by destruct (bool_decide _). }
  assert (Hfind : findTask (Task.id a) (Store.tasks s) = Some a).
  { destruct (findTask_is_Some (Task.id a) _ a Ha eq_refl) as [a' Ha'].
    rewrite Ha'. apply findTask_Some in Ha' as [? ?]. f_equal.
    by apply (unique_task (Store.tasks s)). }
  assert (Hactive : Task.id a ∈ activeIdsOfProject projectId (Store.tasks s)).
  { apply activeIdsOfProject_spec. split; [done|].
    unfold isActiveId. by rewrite Hfind, Hnot. }
  assert (Hprio : Task.id a
                  ∈ Store.prioritizedTaskIds (reactivateProject projectId s)).
  { unfold reactivateProject. rewrite bool_decide_eq_true_2.
    - simpl. apply JSSet_elem_of_from, elem_of_app. by right.
    - destruct (activeIdsOfProject _ _); [by apply elem_of_nil in Hactive|simpl; lia]. }
  assert (Hroot : ∃ p, findRoot (reactivateProject projectId s) (Task.id a) = Some p
                       ∧ Project.status p = InProgress) .
  { destruct (Descendant_NearestCarrier _ _ _ Hnd Hex Hids Hpne Hdesc)
      as (b & Hb & Hproj).
    apply findProject_Some in Hq as [Hq Hqid].
    destruct (projectsById_is_Some _ _ _ Hq Hqid) as [p Hp].
    exists (g p). split.
    - apply findRoot_spec; [by apply Hids|]. left. exists b, projectId.
      rewrite Hts, Hps. split_and!; [done|done|].
      rewrite projectsById_fmap by (intros x; unfold g; by case_decide).
      by rewrite Hp.
    - apply projectsById_Some in Hp as [_ Hpid]. unfold g.
      by rewrite decide_True. }
  destruct Hroot as (p & Hroot & Hst).
  assert (Hlook : tasksById (Store.tasks (reactivateProject projectId s))
                    !! Task.id a = Some a).
  { by rewrite Hts, <- (findTask_tasksById _ _ Hnd). }
  split_and!.
  - intros p0 Hp0 Hid. rewrite Hps in Hp0.
    apply list_elem_of_fmap in Hp0 as (p1 & -> & _). unfold g in *.
    case_decide as Hd; [done|]. by destruct Hd.
  - apply list_elem_of_filter. split; [|done].
    rewrite Dashboard_keep_eq.
    rewrite Hlook, Hnot, Hroot. unfold isInProgress. by rewrite Hst.
  - apply list_elem_of_filter. split; [|by apply JSSet_elem_of_from].
    unfold ProjectsView.keep. rewrite Hlook, Hnot, Hroot. simpl.
    unfold isInProgress. by rewrite Hst.
  - apply list_elem_of_filter. split; [|by rewrite Hts].
    rewrite Hnot. unfold ProjectsView.findRootProjectForTask.
    rewrite (proj2 (findRootPlain_project _ _ _) Hroot). simpl.
    unfold isInProgress. by rewrite Hst.
Qed.

Lemma reactivateProject_shows_tasks_witness :
  "c3" ∈ Dashboard.filteredPrioritized (reactivateProject "p" layoutStore).
Proof.
  apply (reactivateProject_shows_tasks "p" layoutStore
           (mkTask "c3" "C" false None (Some "r2"))).
  - apply (bool_decide_unpack _). vm_compute. exact I.
  - unfold layoutStore, layoutTasks; simpl.
    repeat (apply Forall_cons; split; [by (left + right)|]). apply Forall_nil_2.
  - intros b Hb. unfold layoutStore, layoutTasks in Hb; simpl in Hb.
    repeat (apply elem_of_cons in Hb as [->|Hb]; [discriminate|]).
    by apply elem_of_nil in Hb.
  - discriminate.
  - by eexists.
  - by apply (list_elem_of_lookup_2 _ 1%nat).
  - reflexivity.
  - apply (Descendant_child _ _ (mkTask "c3" "C" false None (Some "r2")) "r2");
      [by apply (list_elem_of_lookup_2 _ 1%nat)|reflexivity|].
    constructor. by apply (list_elem_of_lookup_2 _ 0%nat).
Defined.

(** ** The priority lists of the views *)

(** X15. The dashboard's priority list is the part of the project rows'
    priority order whose tasks resolve to a root project: an identifier is in
    the first exactly when it is in the second and has a root, and for a
    stored list without repetition the first is the second with the rootless
    tasks left out, in the same order. *)
Theorem dashboard_list_is_rooted_part s :
  (∀ i, i ∈ Dashboard.filteredPrioritized s
        ↔ i ∈ ProjectsView.prioritizedDisplayOrder s ∧ is_Some (findRoot s i))
  ∧ (NoDup (Store.prioritizedTaskIds s) →
     Dashboard.filteredPrioritized s
     = filter (λ i, is_Some (findRoot s i)) (ProjectsView.prioritizedDisplayOrder s))
  ∧ Dashboard.filteredPrioritized s `sublist_of` Store.prioritizedTaskIds s.
Proof.
  assert (Hkeep : ∀ i, Dashboard.keep s i = true
                       ↔ is_Some (findRoot s i) ∧ ProjectsView.keep s i = true).
  { intros i. rewrite Dashboard_keep_eq. unfold ProjectsView.keep.
    destruct (tasksById _ !! i); [|by split; [|intros [_ ?]]].
    destruct (truthyFlag _); [by split; [|intros [_ ?]]|].
    destruct (findRoot s i); simpl.
    - split; [by eauto|by intros [_ ?]].
    - split; [done|]. by intros [[? ?] _]. }
  split_and!.
  - intros i. unfold Dashboard.filteredPrioritized, ProjectsView.prioritizedDisplayOrder.
    rewrite !list_elem_of_filter, JSSet_elem_of_from, Hkeep. tauto.
  - intros Hnd. unfold Dashboard.filteredPrioritized, ProjectsView.prioritizedDisplayOrder.
    rewrite (JSSet_from_NoDup _ Hnd), list_filter_filter.
    apply filter_ext_elem. intros i _. apply Hkeep.
  - apply sublist_filter.
Qed.

Lemma filter_all {A} (P : A → Prop) `{∀ a, Decision (P a)} (l : list A) :
  (∀ a, a ∈ l → P a) → filter P l = l.
Proof.
  intros Hall. induction l as [|a l IH]; [done|].
  rewrite filter_cons, decide_True by (apply Hall; by left).
  f_equal. apply IH. intros b Hb. apply Hall. by right.
Qed.

Lemma filter_none {A} (P : A → Prop) `{∀ a, Decision (P a)} (l : list A) :
  (∀ a, a ∈ l → ¬ P a) → filter P l = [].
Proof.
  intros Hall. induction l as [|a l IH]; [done|].
  rewrite filter_cons, decide_False by (apply Hall; by left).
  apply IH. intros b Hb. apply Hall. by right.
Qed.

Lemma findTask_filter_unique (K : Task → Prop) `{∀ a, Decision (K a)} ts i :
  NoDup (Task.id <$> ts) →
  findTask i (filter K ts)
  = findTask i ts ≫= λ a, if decide (K a) then Some a else None.
Proof.
  intros Hnd. destruct (findTask i ts) as [a|] eqn:Hf; simpl.
  - apply findTask_Some in Hf as [Ha Hid]. case_decide as HK.
    + destruct (findTask_is_Some i (filter K ts) a) as [a' Ha'];
        [by apply list_elem_of_filter|done|].
      rewrite Ha'. apply findTask_Some in Ha' as [[_ ?]%list_elem_of_filter ?].
      f_equal. apply (unique_task ts); [done..|congruence].
    + apply findTask_None. intros b [HKb Hb]%list_elem_of_filter Hbid.
      apply HK. by rewrite (unique_task ts a b Hnd Ha Hb) by congruence.
  - apply findTask_None. intros b [_ Hb]%list_elem_of_filter.
    by apply (proj1 (findTask_None i ts) Hf).
Qed.

(** With unique identifiers the priority view finds, for an identifier, the
    task of the flat list if it passes the test. *)
Lemma tasksForPrioritization_find s i :
  NoDup (Task.id <$> Store.tasks s) →
  findTask i (ProjectsView.tasksForPrioritization s)
  = if listsId s i then tasksById (Store.tasks s) !! i else None.
Proof.
  intros Hnd. unfold ProjectsView.tasksForPrioritization.
  rewrite findTask_filter_unique, findTask_tasksById by done.
  unfold listsId.
  destruct (tasksById (Store.tasks s) !! i) as [a|] eqn:Ha; simpl; [|done].
  apply tasksById_Some in Ha as [_ ->].
  destruct (if truthyFlag (Task.completed a) then false
            else ProjectsView.rootProjectAllows
                   (ProjectsView.findRootProjectForTask s i)) eqn:E.
  - by rewrite decide_True.
  - rewrite decide_False; [done|]. congruence.
Qed.

(** The test of the priority view is that of the project rows, but for a
    root value that is no project. *)
Lemma listsId_keep s i :
  listsId s i
  = ProjectsView.keep s i && negb (isOther (ProjectsView.findRootProjectForTask s i)).
Proof.
  unfold listsId, ProjectsView.keep, ProjectsView.findRootProjectForTask.
  destruct (tasksById (Store.tasks s) !! i) as [a|]; [|done].
  destruct (truthyFlag (Task.completed a)); [done|].
  rewrite <- findRootPlain_findRoot.
  destruct (findRootPlain s i) as [[p|]|]; simpl; by rewrite ?andb_true_r.
Qed.

Lemma NearestCarrier_in ts cur a :
  NearestCarrier (tasksById ts) cur a → a ∈ ts.
Proof.
  induction 1 as [cur a Ha _|]; [|done]. by apply tasksById_Some in Ha as [? _].
Qed.

Lemma findRootPlain_empty s : findRootPlain s "" = None.
Proof. reflexivity. Qed.

(** Without a task that names an inherited key, every root value is a
    project or null. *)
Lemma noInheritedProject_isOther s i :
  noInheritedProject s → isOther (findRootPlain s i) = false.
Proof.
  intros Hno. destruct (decide (i = "")) as [->|Hne];
    [by rewrite findRootPlain_empty|].
  destruct (findRootPlain s i) as [[p|]|] eqn:E; [done| |done].
  apply findRootPlain_other in E as (a & k & Ha & Hk & Hother); [|done].
  apply NearestCarrier_in in Ha. by destruct (Hno a k Ha Hk).
Qed.

Lemma fmap_filter_ids (P : string → Prop) `{∀ i, Decision (P i)} (ts : list Task) :
  Task.id <$> filter (λ a, P (Task.id a)) ts = filter P (Task.id <$> ts).
Proof.
  induction ts as [|a ts IH]; [done|].
  rewrite fmap_cons, !filter_cons.
  destruct (decide (P (Task.id a))); [rewrite fmap_cons|]; by rewrite IH.
Qed.

Lemma sortedTasks_ids s :
  NoDup (Task.id <$> Store.tasks s) →
  Task.id <$> ProjectsView.sortedTasks s
  = filter (λ i, listsId s i = true) (JSSet.from (Store.prioritizedTaskIds s))
    ++ filter (λ i, i ∉ Store.prioritizedTaskIds s)
         (Task.id <$> ProjectsView.tasksForPrioritization s).
Proof.
  intros Hnd.
  set (T := ProjectsView.tasksForPrioritization s).
  set (U := JSSet.from (Store.prioritizedTaskIds s)).
  unfold ProjectsView.sortedTasks.
  fold T U. rewrite fmap_app. f_equal.
  - induction U as [|i U IH]; [done|]. simpl. rewrite filter_cons.
    unfold T at 1. rewrite (tasksForPrioritization_find s i Hnd).
    destruct (listsId s i) eqn:Hk.
    + rewrite decide_True by done.
      unfold listsId in Hk.
      destruct (tasksById (Store.tasks s) !! i) as [a|] eqn:Ha; [|done].
      apply tasksById_Some in Ha as [_ Hid]. rewrite fmap_cons, Hid.
      f_equal. exact IH.
    + rewrite decide_False by congruence. apply IH.
  - pose proof (fmap_filter_ids (λ i, i ∉ U) T) as E.
    etrans; [exact E|]. apply filter_ext_elem.
    intros i _. unfold U. by rewrite JSSet_elem_of_from.
Qed.

(** The prioritized part is the priority order of the project rows without
    the tasks whose root value is no project. *)
Lemma listed_of_rows s :
  filter (λ i, listsId s i = true) (JSSet.from (Store.prioritizedTaskIds s))
  = filter (λ i, isOther (ProjectsView.findRootProjectForTask s i) = false)
      (ProjectsView.prioritizedDisplayOrder s).
Proof.
  unfold ProjectsView.prioritizedDisplayOrder. rewrite list_filter_filter.
  apply filter_ext_elem. intros i _. rewrite listsId_keep.
  rewrite andb_true_iff, negb_true_iff. tauto.
Qed.

Lemma tasksForPrioritization_NoDup s :
  NoDup (Task.id <$> Store.tasks s) →
  NoDup (Task.id <$> ProjectsView.tasksForPrioritization s).
Proof.
  intros Hnd. eapply sublist_NoDup; [exact Hnd|].
  apply fmap_sublist, sublist_filter.
Qed.

Lemma sortedTasks_NoDup s :
  NoDup (Task.id <$> Store.tasks s) →
  NoDup (Task.id <$> ProjectsView.sortedTasks s).
Proof.
  intros Hnd. rewrite (sortedTasks_ids s Hnd). apply NoDup_app. split_and!.
  - apply NoDup_filter, JSSet_NoDup_from.
  - intros i [_ Hi]%list_elem_of_filter [Hn _]%list_elem_of_filter.
    apply Hn. by apply (JSSet_elem_of_from i (Store.prioritizedTaskIds s)).
  - by apply NoDup_filter, tasksForPrioritization_NoDup.
Qed.

Lemma sortedTasks_Permutation s :
  NoDup (Task.id <$> Store.tasks s) →
  ProjectsView.sortedTasks s ≡ₚ ProjectsView.tasksForPrioritization s.
Proof.
  intros Hnd.
  set (T := ProjectsView.tasksForPrioritization s).
  set (U := JSSet.from (Store.prioritizedTaskIds s)).
  apply NoDup_Permutation.
  - eapply NoDup_fmap_1. by apply sortedTasks_NoDup.
  - eapply NoDup_fmap_1. by apply tasksForPrioritization_NoDup.
  - intros a. unfold ProjectsView.sortedTasks. fold T U.
    rewrite elem_of_app, list_elem_of_omap, list_elem_of_filter. split.
    + intros [(i & _ & Hf)|[_ Ha]]; [|done]. by apply findTask_Some in Hf as [? _].
    + intros Ha. destruct (decide (Task.id a ∈ U)) as [Hin|Hout]; [left|by right].
      exists (Task.id a). split; [done|].
      destruct (findTask_is_Some (Task.id a) T a Ha eq_refl) as [a' Ha'].
      rewrite Ha'. apply findTask_Some in Ha' as [Ha' Hid]. f_equal.
      apply (unique_task (Store.tasks s)); try done.
      * by apply list_elem_of_filter in Ha' as [_ ?].
      * by apply list_elem_of_filter in Ha as [_ ?].
Qed.

(** X16. With unique task identifiers, the priority view lists every task
    of [tasksForPrioritization] once: first the tasks of the project rows'
    priority order, in that order, but for those whose root value is an
    inherited property of the plain object of the projects and no project;
    then the tasks that are not in the priority list, in the order of the
    flat list. When no task names such a property as its project, the first
    part is the priority order of the project rows. *)
Theorem sortedTasks_order s :
  NoDup (Task.id <$> Store.tasks s) →
  Task.id <$> ProjectsView.sortedTasks s
  = filter (λ i, isOther (ProjectsView.findRootProjectForTask s i) = false)
      (ProjectsView.prioritizedDisplayOrder s)
    ++ filter (λ i, i ∉ Store.prioritizedTaskIds s)
         (Task.id <$> ProjectsView.tasksForPrioritization s)
  ∧ (noInheritedProject s →
     Task.id <$> ProjectsView.sortedTasks s
     = ProjectsView.prioritizedDisplayOrder s
       ++ filter (λ i, i ∉ Store.prioritizedTaskIds s)
            (Task.id <$> ProjectsView.tasksForPrioritization s))
  ∧ NoDup (Task.id <$> ProjectsView.sortedTasks s)
  ∧ ProjectsView.sortedTasks s ≡ₚ ProjectsView.tasksForPrioritization s.
Proof.
  intros Hnd. split_and!.
  - by rewrite sortedTasks_ids, listed_of_rows.
  - intros Hno. rewrite sortedTasks_ids, listed_of_rows by done. f_equal.
    apply filter_all. intros i _. by apply noInheritedProject_isOther.
  - by apply sortedTasks_NoDup.
  - by apply sortedTasks_Permutation.
Qed.

(** The task "k" names the project "constructor", which does not exist: the
    project rows have it in their priority order, the priority view does
    not list it. The unlinked task "u" is listed by both. *)
Lemma sortedTasks_order_witness :
  Task.id
    <$> ProjectsView.sortedTasks
          (addTask "k" (mkTask "" "K" false (Some "constructor") None) layoutStore)
  = ["c1"; "u"; "r2"; "c3"; "r1"; "c2"]
  ∧ ProjectsView.prioritizedDisplayOrder
      (addTask "k" (mkTask "" "K" false (Some "constructor") None) layoutStore)
    = ["c1"; "u"; "k"].
Proof.
  assert (NoDup (Task.id <$> Store.tasks
                   (addTask "k" (mkTask "" "K" false (Some "constructor") None)
                      layoutStore))) as Hnd.
  { apply (bool_decide_unpack _). vm_compute. exact I. }
  destruct (sortedTasks_order _ Hnd) as (Hids & _).
  split; [|reflexivity].
  rewrite Hids. reflexivity.
Defined.

(** ** The drag of the priority view *)

Lemma spliceInsert_filter (P : string → Prop) `{∀ i, Decision (P i)} k x l :
  ¬ P x → filter P (spliceInsert k x l) = filter P l.
Proof.
  intros Hx. unfold spliceInsert.
  rewrite filter_app, filter_cons_False, <- filter_app, take_drop; done.
Qed.

Lemma filter_ne_idemp (d : string) (l : list string) :
  filter (λ i, i ≠ d) (filter (λ i, i ≠ d) l) = filter (λ i, i ≠ d) l.
Proof. by apply list_filter_filter_l. Qed.

Lemma reorderWithInsert_filter order dragId k :
  filter (λ i, i ≠ dragId) (reorderWithInsert order dragId k)
  = filter (λ i, i ≠ dragId) order.
Proof.
  unfold reorderWithInsert.
  rewrite (spliceInsert_filter (λ i, i ≠ dragId)) by (intros Hn; by apply Hn).
  apply filter_ne_idemp.
Qed.

(** What [reorderWithInsert] returns depends on the order only through the
    items other than the dragged one. *)
Lemma reorderWithInsert_ext order order' dragId k :
  filter (λ i, i ≠ dragId) order = filter (λ i, i ≠ dragId) order' →
  reorderWithInsert order dragId k = reorderWithInsert order' dragId k.
Proof. unfold reorderWithInsert. by intros ->. Qed.

Lemma reorderWithInsert_split order dragId insertIndex :
  ∃ before after,
    reorderWithInsert order dragId insertIndex = before ++ dragId :: after
    ∧ before ++ after = filter (λ i, i ≠ dragId) order
    ∧ Z.of_nat (length before)
      = Z.max 0 (Z.min insertIndex
                   (Z.of_nat (length (filter (λ i, i ≠ dragId) order)))).
Proof.
  set (filtered := filter (λ i, i ≠ dragId) order).
  set (c := Z.to_nat (Z.max 0 (Z.min insertIndex (Z.of_nat (length filtered))))).
  exists (take c filtered), (drop c filtered). split_and!; [done|apply take_drop|].
  rewrite length_take. unfold c. lia.
Qed.

Lemma reorderWithInsert_elem order dragId insertIndex x :
  x ∈ reorderWithInsert order dragId insertIndex ↔ x = dragId ∨ x ∈ order.
Proof.
  destruct (reorderWithInsert_split order dragId insertIndex)
    as (before & after & -> & Hf & _).
  assert (x ∈ before ++ dragId :: after ↔ x = dragId ∨ x ∈ before ++ after) as ->.
  { rewrite !elem_of_app, elem_of_cons. tauto. }
  rewrite Hf, list_elem_of_filter.
  destruct (decide (x = dragId)) as [->|Hne]; tauto.
Qed.

Lemma reorderWithInsert_NoDup order dragId insertIndex :
  NoDup order → NoDup (reorderWithInsert order dragId insertIndex).
Proof.
  intros Hnd.
  destruct (reorderWithInsert_split order dragId insertIndex)
    as (before & after & -> & Hf & _).
  rewrite <- Permutation_middle, Hf. apply NoDup_cons.
  split; [|by apply NoDup_filter]. by intros [Hx _]%list_elem_of_filter.
Qed.

Lemma reorderWithInsert_Permutation order dragId insertIndex :
  NoDup order → dragId ∈ order →
  reorderWithInsert order dragId insertIndex ≡ₚ order.
Proof.
  intros Hnd Hin. apply NoDup_Permutation; [by apply reorderWithInsert_NoDup|done|].
  intros x. rewrite reorderWithInsert_elem. split; [|by right].
  intros [->|?]; done.
Qed.

(** X17. [reorderWithInsert] returns the items other than the dragged one
    in the order they had, with the dragged item once, at the insertion
    index limited to the range of the list. It keeps a list without
    repetition so, permutes one that has the dragged item, and applied to
    its own result changes nothing. *)
Theorem reorderWithInsert_spec order dragId insertIndex :
  filter (λ i, i ≠ dragId) (reorderWithInsert order dragId insertIndex)
  = filter (λ i, i ≠ dragId) order
  ∧ (∃ before after,
       reorderWithInsert order dragId insertIndex = before ++ dragId :: after
       ∧ before ++ after = filter (λ i, i ≠ dragId) order
       ∧ Z.of_nat (length before)
         = Z.max 0 (Z.min insertIndex
                      (Z.of_nat (length (filter (λ i, i ≠ dragId) order)))))
  ∧ (NoDup order → NoDup (reorderWithInsert order dragId insertIndex))
  ∧ (NoDup order → dragId ∈ order →
     reorderWithInsert order dragId insertIndex ≡ₚ order)
  ∧ reorderWithInsert (reorderWithInsert order dragId insertIndex) dragId insertIndex
    = reorderWithInsert order dragId insertIndex.
Proof.
  split_and!.
  - apply reorderWithInsert_filter.
  - apply reorderWithInsert_split.
  - apply reorderWithInsert_NoDup.
  - apply reorderWithInsert_Permutation.
  - apply reorderWithInsert_ext, reorderWithInsert_filter.
Qed.

Lemma reorderWithInsert_spec_witness :
  reorderWithInsert ["a"; "b"; "c"] "a" 7 ≡ₚ ["a"; "b"; "c"].
Proof.
  apply (proj1 (proj2 (proj2 (proj2 (reorderWithInsert_spec ["a"; "b"; "c"] "a" 7))))).
  - apply (bool_decide_unpack _). vm_compute. exact I.
  - apply elem_of_cons. by left.
Defined.

Lemma insertIndexFrom_spec pointerY midpointOf siblings : ∀ i,
  match insertIndexFrom pointerY midpointOf i siblings with
  | Some j =>
      ∃ before x after t,
        siblings = before ++ x :: after
        ∧ j = (i + length before)%nat
        ∧ midpointOf x = Some t ∧ pointerY < t
        ∧ ∀ y u, y ∈ before → midpointOf y = Some u → u ≤ pointerY
  | None => ∀ y u, y ∈ siblings → midpointOf y = Some u → u ≤ pointerY
  end.
Proof.
  induction siblings as [|x rest IH]; intros i; simpl.
  - intros y u Hy. by apply elem_of_nil in Hy.
  - assert (Hstep :
      (∀ u, midpointOf x = Some u → u ≤ pointerY) →
      match insertIndexFrom pointerY midpointOf (S i) rest with
      | Some j =>
          ∃ before x0 after t,
            x :: rest = before ++ x0 :: after
            ∧ j = (i + length before)%nat
            ∧ midpointOf x0 = Some t ∧ pointerY < t
            ∧ ∀ y u, y ∈ before → midpointOf y = Some u → u ≤ pointerY
      | None => ∀ y u, y ∈ x :: rest → midpointOf y = Some u → u ≤ pointerY
      end).
    { intros Hx. specialize (IH (S i)).
      destruct (insertIndexFrom pointerY midpointOf (S i) rest) as [j|].
      - destruct IH as (before & x' & after & t' & -> & -> & Hx' & Hlt' & Hb).
        exists (x :: before), x', after, t'.
        split; [done|]. split; [simpl; lia|]. split; [done|]. split; [done|].
        intros y u [->|Hy]%elem_of_cons Hu; [by apply Hx|by eapply Hb].
      - intros y u [->|Hy]%elem_of_cons Hu; [by apply Hx|by eapply IH]. }
    destruct (midpointOf x) as [t|] eqn:Hx.
    + case_bool_decide as Hlt.
      * exists [], x, rest, t.
        split; [done|]. split; [simpl; lia|]. split; [done|]. split; [done|].
        intros y u Hy. by apply elem_of_nil in Hy.
      * apply Hstep. intros u [= <-]. lia.
    + apply Hstep. by intros u.
Qed.

Lemma handlePointerMove_ext dragId pointerY midpointOf order order' :
  filter (λ i, i ≠ dragId) order' = filter (λ i, i ≠ dragId) order →
  handlePointerMove dragId pointerY midpointOf order'
  = handlePointerMove dragId pointerY midpointOf order.
Proof.
  intros Heq. unfold handlePointerMove. rewrite Heq.
  by apply reorderWithInsert_ext.
Qed.

(** X18. A pointer move of the drag puts the dragged item just before the
    first of the other items that is on screen with its middle below the
    pointer, and last when there is none; the other items keep their order.
    The order it leaves depends on the order before only through the other
    items. *)
Theorem handlePointerMove_places dragId pointerY midpointOf order :
  (∃ before after,
     handlePointerMove dragId pointerY midpointOf order = before ++ dragId :: after
     ∧ before ++ after = filter (λ i, i ≠ dragId) order
     ∧ (∀ y u, y ∈ before → midpointOf y = Some u → u ≤ pointerY)
     ∧ match after with
       | [] => True
       | x :: _ => ∃ t, midpointOf x = Some t ∧ pointerY < t
       end)
  ∧ (∀ order', filter (λ i, i ≠ dragId) order' = filter (λ i, i ≠ dragId) order →
       handlePointerMove dragId pointerY midpointOf order'
       = handlePointerMove dragId pointerY midpointOf order).
Proof.
  split.
  - unfold handlePointerMove, reorderWithInsert, insertIndexAt, spliceInsert.
    set (siblings := filter (λ i, i ≠ dragId) order).
    pose proof (insertIndexFrom_spec pointerY midpointOf siblings 0%nat) as Hspec.
    destruct (insertIndexFrom pointerY midpointOf 0 siblings) as [j|]; simpl.
    + destruct Hspec as (before & x & after & t & Hs & -> & Hx & Hlt & Hb).
      simpl. exists before, (x :: after).
      assert (Z.to_nat (Z.max 0 (Z.min (Z.of_nat (length before))
                                   (Z.of_nat (length siblings))))
              = length before) as ->.
      { rewrite Hs, length_app. simpl. lia. }
      rewrite Hs, take_app_length, drop_app_length.
      split_and!; try done. by exists t.
    + exists siblings, [].
      assert (Z.to_nat (Z.max 0 (Z.min (Z.of_nat (length siblings))
                                   (Z.of_nat (length siblings))))
              = length siblings) as -> by lia.
      rewrite take_ge, drop_ge by lia.
      split_and!; try done. by rewrite app_nil_r.
  - intros order' Heq. by apply handlePointerMove_ext.
Qed.

Lemma drag_fold dragId (moves : list (Z * (string → option Z))) : ∀ order,
  NoDup order → dragId ∈ order →
  NoDup (foldl (λ o m, handlePointerMove dragId (fst m) (snd m) o) order moves)
  ∧ foldl (λ o m, handlePointerMove dragId (fst m) (snd m) o) order moves ≡ₚ order
  ∧ filter (λ i, i ≠ dragId)
      (foldl (λ o m, handlePointerMove dragId (fst m) (snd m) o) order moves)
    = filter (λ i, i ≠ dragId) order.
Proof.
  induction moves as [|m moves IH]; intros order Hnd Hin; simpl; [done|].
  set (order1 := handlePointerMove dragId m.1 m.2 order).
  assert (NoDup order1) as Hnd1 by (by apply reorderWithInsert_NoDup).
  assert (order1 ≡ₚ order) as Hp1 by (by apply reorderWithInsert_Permutation).
  assert (dragId ∈ order1) as Hin1 by (by rewrite Hp1).
  destruct (IH order1 Hnd1 Hin1) as (Hn & Hp & Hf). split_and!.
  - done.
  - by rewrite Hp.
  - rewrite Hf. apply reorderWithInsert_filter.
Qed.

(** X19. One drag of the priority view, from the press on a listed task to
    the drop: with unique task identifiers, what is stored is the
    identifiers of the tasks the view lists, each once, the tasks other than
    the dragged one in the order the view had them; identifiers of the
    priority list that the view did not list are gone. The place of the
    dragged task is that of the last pointer move alone; without a move the
    listed order is stored. The projects and the tasks are not touched, and
    a drag without a task does nothing. *)
Theorem dragAndDrop_permutes dragId moves s :
  NoDup (Task.id <$> Store.tasks s) →
  dragId ≠ "" →
  dragId ∈ Task.id <$> ProjectsView.sortedTasks s →
  NoDup (Store.prioritizedTaskIds (dragAndDrop dragId moves s))
  ∧ Store.prioritizedTaskIds (dragAndDrop dragId moves s)
    ≡ₚ Task.id <$> ProjectsView.tasksForPrioritization s
  ∧ filter (λ i, i ≠ dragId) (Store.prioritizedTaskIds (dragAndDrop dragId moves s))
    = filter (λ i, i ≠ dragId) (Task.id <$> ProjectsView.sortedTasks s)
  ∧ Store.prioritizedTaskIds (dragAndDrop dragId [] s)
    = Task.id <$> ProjectsView.sortedTasks s
  ∧ (∀ m, Store.prioritizedTaskIds (dragAndDrop dragId (moves ++ [m]) s)
          = handlePointerMove dragId (fst m) (snd m)
              (Task.id <$> ProjectsView.sortedTasks s))
  ∧ Store.tasks (dragAndDrop dragId moves s) = Store.tasks s
  ∧ Store.projects (dragAndDrop dragId moves s) = Store.projects s
  ∧ dragAndDrop "" moves s = s.
Proof.
  intros Hnd Hne Hin.
  pose proof (sortedTasks_NoDup s Hnd) as Hnd0.
  assert (Hstored : ∀ ms,
            Store.prioritizedTaskIds (dragAndDrop dragId ms s)
            = foldl (λ o m, handlePointerMove dragId (fst m) (snd m) o)
                (Task.id <$> ProjectsView.sortedTasks s) ms).
  { intros ms. unfold dragAndDrop. rewrite (truthy_true _ Hne).
    unfold setPrioritizedTasks; simpl. apply JSSet_from_NoDup.
    by apply drag_fold. }
  destruct (drag_fold dragId moves _ Hnd0 Hin) as (Hn & Hp & Hf).
  split_and!.
  - by rewrite Hstored.
  - rewrite Hstored, Hp. by apply fmap_Permutation, sortedTasks_Permutation.
  - by rewrite Hstored.
  - by rewrite Hstored.
  - intros m. rewrite Hstored, foldl_app. simpl.
    by apply handlePointerMove_ext.
  - unfold dragAndDrop. by rewrite (truthy_true _ Hne).
  - unfold dragAndDrop. by rewrite (truthy_true _ Hne).
  - done.
Qed.

Lemma dragAndDrop_permutes_witness :
  Store.prioritizedTaskIds
    (dragAndDrop "u" [(0, λ i, if decide (i = "c1") then Some 10 else None)]
       layoutStore)
  ≡ₚ Task.id <$> ProjectsView.tasksForPrioritization layoutStore.
Proof.
  apply (dragAndDrop_permutes "u" _ layoutStore).
  - apply (bool_decide_unpack _). vm_compute. exact I.
  - discriminate.
  - by apply (list_elem_of_lookup_2 _ 1%nat).
Defined.

(** ** [sanitizeForFirestore] *)

Lemma JSValue_induction (P : JSValue → Prop) :
  P JSUndefined → P JSNull → (∀ b, P (JSBool b)) → (∀ n, P (JSNumber n)) →
  (∀ s, P (JSString s)) →
  (∀ items, Forall P items → P (JSArray items)) →
  (∀ entries, Forall (λ e, P (snd e)) entries → P (JSObject entries)) →
  ∀ v, P v.
Proof.
  intros Hu Hn Hb Hz Hs Harr Hobj. fix IH 1.
  intros [| |b|n|s|items|entries];
    [exact Hu|exact Hn|apply Hb|apply Hz|apply Hs| |].
  - apply Harr. induction items as [|x l IHl]; constructor; [apply IH|exact IHl].
  - apply Hobj. induction entries as [|[k x] l IHl]; constructor; [apply IH|exact IHl].
Qed.

Lemma sanitizeEntries_elem recur entries k v :
  (k, v) ∈ sanitizeEntries recur entries
  ↔ ∃ v0, (k, v0) ∈ entries ∧ isUndefined v0 = false ∧ v = recur v0.
Proof.
  induction entries as [|[k' v'] rest IH]; simpl.
  - split; [by intros ?%elem_of_nil|by intros (? & ?%elem_of_nil & _)].
  - destruct (isUndefined v') eqn:Hu.
    + rewrite IH. split.
      * intros (v0 & Hin & ?). exists v0. split; [by apply elem_of_cons; right|done].
      * intros (v0 & [[= -> ->]|Hin]%elem_of_cons & Hn & ->); [congruence|by eauto].
    + rewrite elem_of_cons, IH. split.
      * intros [[= -> ->]|(v0 & Hin & ?)].
        -- exists v'. split; [by apply elem_of_cons; left|done].
        -- exists v0. split; [by apply elem_of_cons; right|done].
      * intros (v0 & [[= -> ->]|Hin]%elem_of_cons & Hn & ->); [by left|by eauto].
Qed.

(** X20. [sanitizeForFirestore] returns a value in which no entry of an
    object, at any depth, is [undefined]. An object keeps exactly its
    entries that are not [undefined], sanitized, in their order; an array
    keeps its length, its [undefined] items included, and a value that is
    not an object is returned as it is, [undefined] itself too. Sanitizing
    twice is sanitizing once, and a value without [undefined] entry is
    returned unchanged. *)
Theorem sanitizeForFirestore_spec v :
  noUndefinedField (sanitizeForFirestore v) = true
  ∧ sanitizeForFirestore (sanitizeForFirestore v) = sanitizeForFirestore v
  ∧ (noUndefinedField v = true → sanitizeForFirestore v = v)
  ∧ isUndefined (sanitizeForFirestore v) = isUndefined v
  ∧ (∀ entries k x,
       v = JSObject entries →
       ∃ entries', sanitizeForFirestore v = JSObject entries'
         ∧ fst <$> entries' = fst <$> filter (λ e, isUndefined (snd e) = false) entries
         ∧ ((k, x) ∈ entries'
            ↔ ∃ x0, (k, x0) ∈ entries ∧ isUndefined x0 = false
                    ∧ x = sanitizeForFirestore x0))
  ∧ (∀ items, v = JSArray items →
       ∃ items', sanitizeForFirestore v = JSArray items'
                 ∧ length items' = length items
                 ∧ ∀ k, isUndefined <$> items' !! k = isUndefined <$> items !! k).
Proof.
  assert (Hund : ∀ w, isUndefined (sanitizeForFirestore w) = isUndefined w).
  { by intros []. }
  split_and!.
  - induction v as [| |b|n|s|items IH|entries IH] using JSValue_induction; try done.
    + simpl. induction IH as [|x l Hx _ IHl]; [done|]. simpl. by rewrite Hx, IHl.
    + simpl. induction IH as [|[k x] l Hx _ IHl]; [done|]. simpl in *.
      destruct (isUndefined x) eqn:Hu; [done|]. simpl.
      by rewrite Hund, Hu, Hx, IHl.
  - induction v as [| |b|n|s|items IH|entries IH] using JSValue_induction; try done.
    + simpl. f_equal. induction IH as [|x l Hx _ IHl]; [done|]. simpl.
      by rewrite Hx, IHl.
    + simpl. f_equal. induction IH as [|[k x] l Hx _ IHl]; [done|]. simpl in *.
      destruct (isUndefined x) eqn:Hu; [done|]. simpl.
      by rewrite Hund, Hu, Hx, IHl.
  - induction v as [| |b|n|s|items IH|entries IH] using JSValue_induction; try done.
    + simpl. intros Hall. f_equal.
      induction IH as [|x l Hx _ IHl]; [done|]. simpl in *.
      apply andb_true_iff in Hall as [H1 H2]. by rewrite Hx, IHl.
    + simpl. intros Hall. f_equal.
      induction IH as [|[k x] l Hx _ IHl]; [done|]. simpl in *.
      apply andb_true_iff in Hall as [[H0 H1]%andb_true_iff H2].
      apply negb_true_iff in H0. by rewrite H0, Hx, IHl.
  - apply Hund.
  - intros entries k x ->. simpl. eexists. split; [done|]. split.
    + induction entries as [|[k' x'] rest IH]; [done|]. simpl.
      rewrite filter_cons. simpl. destruct (isUndefined x'); simpl.
      * exact IH.
      * f_equal. exact IH.
    + apply sanitizeEntries_elem.
  - intros items ->. simpl. eexists. split; [done|]. split.
    + apply length_map.
    + intros k. change (map sanitizeForFirestore items)
        with (sanitizeForFirestore <$> items).
      rewrite list_lookup_fmap. destruct (items !! k); simpl; [|done].
      by rewrite Hund.
Qed.

(** ** [autoArrangeProjectTasks], from the rows to the canvas *)

(** X21. [autoArrangeProjectTasks] on a flat list with unique identifiers,
    for a project that exists: it returns; a task that the layout places at
    depth [d] with its band starting at row [b] is moved to
    [x = project.x + d * 280] and
    [y = project.y + (row - (totalRows - 1) / 2) * 140], in the arithmetic
    of JavaScript numbers, where [row] is the middle of its band and
    [totalRows] the rows of all the bands with one row between two roots,
    less one; nothing else of the task changes, and every other task is as
    it was. The priority list is unchanged and the projects keep everything
    but their cached tasks, which only the arranged project has rewritten. *)
Theorem autoArrangeProjectTasks_positions cmp projectId s project :
  NoDup (Task.id <$> Store.tasks s) →
  findProject projectId (Store.projects s) = Some project →
  ∃ s',
    autoArrangeProjectTasks cmp projectId s = Some s'
    ∧ (∀ k a, Store.tasks s !! k = Some a →
         ∃ a', Store.tasks s' !! k = Some a'
           ∧ (∀ d b, Placed cmp projectId (Store.tasks s) a d b →
                Position.x (Task.position a')
                = (Position.x (Project.position project)
                   + floatOfZ d * 280)%float
                ∧ Position.y (Task.position a')
                  = (Position.y (Project.position project)
                     + (floatOfZ
                          (b + (rows cmp projectId (Store.tasks s) (Task.id a) - 1)
                                 `div` 2)
                        - (floatOfZ
                             (totalRowsOf
                                (rootBand cmp projectId (Store.tasks s)
                                   (sortedRootsOf cmp projectId (Store.tasks s))))
                           - 1) / 2) * 140)%float
                ∧ sameButPosition a a')
           ∧ ((∀ d b, ¬ Placed cmp projectId (Store.tasks s) a d b) → a' = a))
    ∧ Store.prioritizedTaskIds s' = Store.prioritizedTaskIds s
    ∧ (∀ k p, Store.projects s !! k = Some p →
         ∃ p', Store.projects s' !! k = Some p'
               ∧ sameButTasks p p'
               ∧ (Project.id p ≠ projectId → p' = p)).
Proof.
  intros Hnd Hfind. unfold autoArrangeProjectTasks. rewrite Hfind.
  destruct (autoArrangeRows_spec cmp projectId (Store.tasks s) Hnd)
    as (st & Hrows & Hplaced & Hentries).
  rewrite Hrows. simpl.
  assert (Hnone : ∀ a, a ∈ Store.tasks s →
            (∀ d b, ¬ Placed cmp projectId (Store.tasks s) a d b) →
            rowDepthById st !! Task.id a = None).
  { intros a Ha Hno. destruct (rowDepthById st !! Task.id a) as [rd|] eqn:E; [|done].
    destruct (Hentries _ _ E) as (a' & d & b & Hpl & Hid).
    assert (a' = a) as ->.
    { apply (unique_task (Store.tasks s)); try done. by eapply Placed_in_ts. }
    by destruct (Hno d b). }
  case_bool_decide as Hsize.
  - exists s. split; [done|]. apply map_size_empty_iff in Hsize. split_and!.
    + intros k a Hk. exists a. split; [done|]. split; [|done]. intros d b Hpl.
      apply Hplaced in Hpl. rewrite Hsize, lookup_empty in Hpl. done.
    + done.
    + intros k p Hk. exists p. by split_and!.
  - eexists. split; [done|]. simpl. split_and!.
    + intros k a Hk. rewrite list_lookup_fmap, Hk. simpl.
      eexists. split; [done|]. rewrite lookup_fmap. split.
      * intros d b Hpl. rewrite (Hplaced _ _ _ Hpl). simpl.
        split_and!; [done|done|apply sameButPosition_withPosition].
      * intros Hno. rewrite (Hnone a); [done| |done].
        by eapply list_elem_of_lookup_2.
    + done.
    + intros k p Hk. rewrite list_lookup_fmap, Hk. simpl.
      eexists. split; [done|]. case_decide as Hd.
      * split; [apply sameButTasks_withTasks|done].
      * split; [by repeat split|done].
Qed.

(** The project of the layout example is at the origin and has four rows.
    The task "c1" is the first child of the first root: it is placed at
    depth 2 on row 0, which is [x = 2 * 280] and [y = (0 - 1.5) * 140]. The
    task "u" is outside the project and stays where it is. *)
Lemma autoArrangeProjectTasks_positions_witness :
  ∃ s', autoArrangeProjectTasks codeUnitCompare "p" layoutStore = Some s'
        ∧ Task.position <$> Store.tasks s' !! 4%nat
          = Some (Position.mk 560 (-210))%float
        ∧ Task.position <$> Store.tasks s' !! 5%nat = Some origin
        ∧ Store.prioritizedTaskIds s' = Store.prioritizedTaskIds layoutStore.
Proof.
  assert (Hnd : NoDup (Task.id <$> Store.tasks layoutStore)).
  { apply (bool_decide_unpack _). vm_compute. exact I. }
  destruct (autoArrangeProjectTasks_positions codeUnitCompare "p" layoutStore
              (mkProject "p" InProgress []) Hnd eq_refl)
    as (s' & Hrun & _ & Hprio & _).
  exists s'. split; [exact Hrun|]. split_and!; [| |exact Hprio].
  - vm_compute in Hrun. injection Hrun as <-. reflexivity.
  - vm_compute in Hrun. injection Hrun as <-. reflexivity.
Defined.

(** ** The task tree of the weekly report *)

Section buildTree.
Variable allTasks : list Task.

Let kids (i : string) : list Task := default [] (childrenByParent allTasks !! i).

Lemma buildTree_kids_elem i a :
  a ∈ kids i ↔ i ≠ "" ∧ a ∈ allTasks ∧ Task.parentTaskId a = Some i.
Proof.
  unfold kids. rewrite childrenByParent_lookup.
  destruct (truthy (Some i)) eqn:Ht.
  - apply truthy_Some in Ht as (v & [= <-] & Hv).
    rewrite childrenOf_spec. tauto.
  - split; [by intros ?%elem_of_nil|]. intros (Hi & _).
    by rewrite (truthy_true i Hi) in Ht.
Qed.

Lemma buildTree_kids_length i : (length (kids i) ≤ length allTasks)%nat.
Proof.
  unfold kids. rewrite childrenByParent_lookup.
  destruct (truthy (Some i)); [apply length_filter|simpl; lia].
Qed.

Lemma buildTree_loop_terminates :
  ∀ fuel queue visited collected,
    (∀ a, a ∈ queue → a ∈ allTasks) →
    (length queue
     + S (length allTasks)
       * length (filter (λ i, i ∉ visited) (Task.id <$> allTasks)) < fuel)%nat →
    is_Some (buildTree_loop fuel (childrenByParent allTasks) queue visited collected).
Proof.
  induction fuel as [|fuel IH]; intros queue visited collected Hq Hf; [lia|].
  destruct queue as [|cur rest]; simpl; [eauto|].
  destruct (JSSet.has (Task.id cur) visited) eqn:Hv.
  - apply IH.
    + intros a Ha. apply Hq. by right.
    + simpl in Hf. lia.
  - apply JSSet_has_false in Hv. rewrite (JSSet_add_new _ _ Hv).
    assert (Task.id cur ∈ Task.id <$> allTasks) as Hcur.
    { apply list_elem_of_fmap_2, Hq. by left. }
    pose proof (pending_lt _ _ _ Hcur Hv) as Hlt.
    pose proof (buildTree_kids_length (Task.id cur)) as Hkl.
    apply IH.
    + intros a [Ha|Ha]%elem_of_app.
      * apply Hq. by right.
      * by apply buildTree_kids_elem in Ha as (_ & ? & _).
    + rewrite length_app. fold (kids (Task.id cur)). simpl in Hf. nia.
Qed.

Section closure.
Variable seeds : list string.

(** What the loop collects: tasks of the list in the closure of the seeds,
    one for each identifier it has visited. *)
Lemma buildTree_loop_sound :
  ∀ fuel queue visited collected r,
    buildTree_loop fuel (childrenByParent allTasks) queue visited collected = Some r →
    Task.id <$> collected = visited → NoDup visited →
    (∀ a, a ∈ queue ∨ a ∈ collected →
          a ∈ allTasks ∧ Descendant allTasks seeds (Task.id a)) →
    NoDup (Task.id <$> r)
    ∧ ∀ a, a ∈ r → a ∈ allTasks ∧ Descendant allTasks seeds (Task.id a).
Proof.
  induction fuel as [|fuel IH]; intros queue visited collected r H Hc Hnd Hinv;
    [done|].
  simpl in H. destruct queue as [|cur rest].
  { injection H as <-. split; [by rewrite Hc|]. intros a Ha. apply Hinv. by right. }
  destruct (JSSet.has (Task.id cur) visited) eqn:Hv.
  - eapply IH; [done|done|done|].
    intros a [Ha|Ha]; apply Hinv; [left; by right|by right].
  - apply JSSet_has_false in Hv. rewrite (JSSet_add_new _ _ Hv) in H.
    eapply IH; [done| | |].
    + by rewrite fmap_app, Hc.
    + apply NoDup_app. split_and!; [done| |apply NoDup_singleton].
      intros x Hx ->%list_elem_of_singleton. done.
    + intros a [[Ha|Ha]%elem_of_app|[Ha|Ha]%elem_of_app].
      * apply Hinv. left. by right.
      * apply buildTree_kids_elem in Ha as (_ & Ha & Hp). split; [done|].
        eapply Descendant_child; [done..|]. apply Hinv. left. by left.
      * apply Hinv. by right.
      * apply list_elem_of_singleton in Ha as ->. apply Hinv. left. by left.
Qed.

(** Invariant of the loop: the children of a visited task with a non-empty
    identifier are visited or queued. *)
Lemma buildTree_loop_closed :
  ∀ fuel queue visited collected r,
    buildTree_loop fuel (childrenByParent allTasks) queue visited collected = Some r →
    Task.id <$> collected = visited →
    (∀ p a, p ∈ visited → p ≠ "" → a ∈ allTasks → Task.parentTaskId a = Some p →
            Task.id a ∈ visited ∨ a ∈ queue) →
    (∀ a, a ∈ queue → Task.id a ∈ Task.id <$> r)
    ∧ (∀ i, i ∈ visited → i ∈ Task.id <$> r)
    ∧ (∀ p a, p ∈ Task.id <$> r → p ≠ "" → a ∈ allTasks →
              Task.parentTaskId a = Some p → Task.id a ∈ Task.id <$> r).
Proof.
  induction fuel as [|fuel IH]; intros queue visited collected r H Hc Hinv; [done|].
  simpl in H. destruct queue as [|cur rest].
  { injection H as <-. rewrite Hc. split_and!.
    - intros a Ha. by apply elem_of_nil in Ha.
    - done.
    - intros p a Hp Hne Ha Hpa. destruct (Hinv p a Hp Hne Ha Hpa) as [|Hn]; [done|].
      by apply elem_of_nil in Hn. }
  destruct (JSSet.has (Task.id cur) visited) eqn:Hv.
  - apply JSSet_has_true in Hv.
    destruct (IH _ _ _ _ H Hc) as (H1 & H2 & H3).
    + intros p a Hp Hne Ha Hpa.
      destruct (Hinv p a Hp Hne Ha Hpa) as [|Hn]; [by left|].
      apply elem_of_cons in Hn as [->|Hn]; [by left|by right].
    + split_and!; [|done|done].
      intros a [->|Ha]%elem_of_cons; [by apply H2|by apply H1].
  - apply JSSet_has_false in Hv. rewrite (JSSet_add_new _ _ Hv) in H.
    destruct (IH _ _ _ _ H) as (H1 & H2 & H3).
    + by rewrite fmap_app, Hc.
    + intros p a Hp Hne Ha Hpa.
      destruct (decide (Task.id a ∈ visited ++ [Task.id cur])) as [Hd|Hd]; [by left|].
      right. apply elem_of_app.
      apply elem_of_app in Hp as [Hp|Hp].
      * destruct (Hinv p a Hp Hne Ha Hpa) as [Hn|Hn].
        { exfalso. apply Hd, elem_of_app. by left. }
        apply elem_of_cons in Hn as [Hn|Hn]; [|by left].
        exfalso. apply Hd, elem_of_app. right.
        apply list_elem_of_singleton. by rewrite Hn.
      * apply list_elem_of_singleton in Hp as ->. right.
        by apply buildTree_kids_elem.
    + split_and!; [| |done].
      * intros a [->|Ha]%elem_of_cons.
        -- apply H2, elem_of_app. right. by apply list_elem_of_singleton.
        -- apply H1, elem_of_app. by left.
      * intros i Hi. apply H2, elem_of_app. by left.
Qed.
End closure.

Lemma buildTaskTreeForProject_loop projectId :
  buildTree_loop (buildTree_fuel allTasks) (childrenByParent allTasks)
    (tasksOfProject projectId allTasks) [] []
  = Some (buildTaskTreeForProject projectId allTasks).
Proof.
  unfold buildTaskTreeForProject.
  destruct (buildTree_loop_terminates (buildTree_fuel allTasks)
              (tasksOfProject projectId allTasks) [] []) as [r ->]; [| |done].
  - by intros a [_ ?]%list_elem_of_filter.
  - unfold buildTree_fuel, tasksOfProject.
    pose proof (length_filter (λ a, Task.projectId a = Some projectId) allTasks).
    pose proof (length_filter (λ i : string, i ∉ @nil string) (Task.id <$> allTasks)).
    rewrite length_fmap in *. nia.
Qed.
End buildTree.

(** X22. [buildTaskTreeForProject] of the weekly report ends on every flat
    list, cyclic parent links included, and collects tasks of the list with
    different identifiers, the tasks that name the project among them. The
    identifiers it collects are in the descendant closure that
    [getAllDescendantTaskIds] computes from the tasks naming the project,
    and they are all of it when no task has the empty identifier. *)
Theorem buildTaskTreeForProject_closure projectId allTasks :
  buildTree_loop (buildTree_fuel allTasks) (childrenByParent allTasks)
    (tasksOfProject projectId allTasks) [] []
  = Some (buildTaskTreeForProject projectId allTasks)
  ∧ NoDup (Task.id <$> buildTaskTreeForProject projectId allTasks)
  ∧ (∀ a, a ∈ buildTaskTreeForProject projectId allTasks → a ∈ allTasks)
  ∧ (∀ a, a ∈ tasksOfProject projectId allTasks →
          Task.id a ∈ Task.id <$> buildTaskTreeForProject projectId allTasks)
  ∧ (∀ i, i ∈ Task.id <$> buildTaskTreeForProject projectId allTasks →
          i ∈ getAllDescendantTaskIds
                (Task.id <$> tasksOfProject projectId allTasks) allTasks)
  ∧ ((∀ a, a ∈ allTasks → Task.id a ≠ "") →
     ∀ i, i ∈ getAllDescendantTaskIds
                (Task.id <$> tasksOfProject projectId allTasks) allTasks →
          i ∈ Task.id <$> buildTaskTreeForProject projectId allTasks).
Proof.
  pose proof (buildTaskTreeForProject_loop allTasks projectId) as Hl.
  set (seeds := Task.id <$> tasksOfProject projectId allTasks).
  destruct (buildTree_loop_sound allTasks seeds _ _ _ _ _ Hl eq_refl)
    as [Hnd Hsound]; [apply NoDup_nil_2| |].
  { intros a [Ha|Ha]; [|by apply elem_of_nil in Ha]. split.
    - by apply list_elem_of_filter in Ha as [_ ?].
    - constructor. by apply list_elem_of_fmap_2. }
  destruct (buildTree_loop_closed allTasks _ _ _ _ _ Hl eq_refl) as (H1 & _ & H3).
  { intros p a Hp. by apply elem_of_nil in Hp. }
  split_and!.
  - done.
  - done.
  - intros a Ha. by apply Hsound.
  - done.
  - intros i (a & -> & Ha)%list_elem_of_fmap.
    apply getAllDescendantTaskIds_spec. by apply Hsound.
  - intros Hids i Hi%getAllDescendantTaskIds_spec.
    induction Hi as [i Hi|a p Ha Hp Hd IH].
    + apply list_elem_of_fmap in Hi as (a & -> & Ha). by apply H1.
    + apply (H3 p a); try done.
      apply list_elem_of_fmap in IH as (b & -> & Hb).
      apply Hids. by apply Hsound.
Qed.

Lemma buildTaskTreeForProject_closure_witness :
  "c3" ∈ Task.id <$> buildTaskTreeForProject "p" layoutTasks.
Proof.
  apply (proj2 (proj2 (proj2 (proj2 (proj2
           (buildTaskTreeForProject_closure "p" layoutTasks)))))).
  - intros a Ha. unfold layoutTasks in Ha.
    repeat (apply elem_of_cons in Ha as [->|Ha]; [discriminate|]).
    by apply elem_of_nil in Ha.
  - apply (bool_decide_unpack _). vm_compute. exact I.
Defined.

(** ** The priority list along sequences of operations *)

(** X23. The priority list stays without repetition along every sequence
    of store operations that does not call [linkTaskToTask]. *)
Theorem prioritized_NoDup_invariant cmp os s s' :
  Forall notLinkTaskToTask os →
  NoDup (Store.prioritizedTaskIds s) →
  Steps cmp os s s' →
  NoDup (Store.prioritizedTaskIds s').
Proof.
  intros Hk Hinv Hsteps. induction Hsteps as [|o os s s1 s2 fuel Hrun _ IH]; [done|].
  apply Forall_cons in Hk as [Ho Hos].
  apply IH; [done|]. eapply run_prioritized_NoDup; [|done|done].
  intros ts c p ->. done.
Qed.

Lemma prioritized_NoDup_invariant_witness :
  ∃ s', Steps codeUnitCompare priorityOps layoutStore s'
        ∧ NoDup (Store.prioritizedTaskIds s').
Proof.
  assert (∃ s', Steps codeUnitCompare priorityOps layoutStore s') as [s' Hs'].
  { eexists. unfold priorityOps.
    repeat (eapply (Steps_cons _ _ _ _ _ _ 4%nat); [vm_compute; reflexivity|]).
    apply Steps_nil. }
  exists s'. split; [exact Hs'|].
  apply (prioritized_NoDup_invariant codeUnitCompare priorityOps layoutStore s').
  - unfold priorityOps. repeat (apply Forall_cons; split; [by simpl|]).
    apply Forall_nil_2.
  - apply (bool_decide_unpack _). vm_compute. exact I.
  - exact Hs'.
Defined.

(** ** Round trips *)

Lemma filter_fmap_comm {A} (P : A → Prop) `{∀ a, Decision (P a)} (f : A → A)
    (l : list A) :
  (∀ a, P (f a) ↔ P a) → filter P (f <$> l) = f <$> filter P l.
Proof.
  intros Hf. induction l as [|a l IH]; [done|].
  rewrite fmap_cons, !filter_cons.
  destruct (decide (P (f a))) as [H1|H1], (decide (P a)) as [H2|H2].
  - by rewrite fmap_cons, IH.
  - destruct H2. by apply Hf.
  - destruct H1. by apply Hf.
  - done.
Qed.

Lemma tasksOfProject_fmap (f : Task → Task) projectId ts :
  (∀ a, Task.projectId (f a) = Task.projectId a) →
  tasksOfProject projectId (f <$> ts) = f <$> tasksOfProject projectId ts.
Proof.
  intros Hf. apply (filter_fmap_comm (λ a, Task.projectId a = Some projectId)).
  intros a. by rewrite Hf.
Qed.

Lemma fmap_ids (f : Task → Task) (ts : list Task) :
  (∀ a, Task.id (f a) = Task.id a) → Task.id <$> (f <$> ts) = Task.id <$> ts.
Proof.
  intros Hf. rewrite <- list_fmap_compose. apply list_fmap_ext.
  intros k a _. apply Hf.
Qed.

(** The traversal reads the identifiers and the parent links only. *)
Lemma bfs_loop_fmap (f : Task → Task) ts :
  (∀ a, Task.id (f a) = Task.id a) →
  (∀ a, Task.parentTaskId (f a) = Task.parentTaskId a) →
  ∀ fuel queue visited,
    bfs_loop fuel (f <$> ts) queue visited = bfs_loop fuel ts queue visited.
Proof.
  intros Hid Hpar. induction fuel as [|fuel IH]; intros queue visited; [done|].
  simpl. destruct queue as [|cur rest]; [done|].
  destruct (JSSet.has cur visited); [apply IH|].
  rewrite IH. do 2 f_equal. unfold childrenOf.
  rewrite (filter_fmap_comm (λ a, Task.parentTaskId a = Some cur))
    by (intros a; by rewrite Hpar).
  rewrite (filter_fmap_comm
             (λ c, JSSet.has (Task.id c) (visited ++ [cur]) = false))
    by (intros a; by rewrite Hid).
  by apply fmap_ids.
Qed.

Lemma getAllDescendantTaskIds_fmap (f : Task → Task) seeds ts :
  (∀ a, Task.id (f a) = Task.id a) →
  (∀ a, Task.parentTaskId (f a) = Task.parentTaskId a) →
  getAllDescendantTaskIds seeds (f <$> ts) = getAllDescendantTaskIds seeds ts.
Proof.
  intros Hid Hpar. unfold getAllDescendantTaskIds, bfs_fuel.
  by rewrite bfs_loop_fmap, length_fmap, fmap_ids.
Qed.

Lemma findProject_fmap (f : Project → Project) i ps :
  (∀ p, Project.id (f p) = Project.id p) →
  findProject i (f <$> ps) = f <$> findProject i ps.
Proof.
  intros Hf. unfold findProject. induction ps as [|p ps IH]; [done|].
  rewrite fmap_cons. simpl. rewrite Hf. case_decide; [done|].
  destruct (list_find _ (f <$> ps)) as [[k q]|] eqn:E1,
           (list_find _ ps) as [[k' q']|] eqn:E2; simpl in *; congruence.
Qed.

(** The second move of a synchronised project group moves the tasks the
    first one moved. *)
Lemma moveProjectGroup_again projectId delta delta' s p0 :
  findProject projectId (Store.projects s) = Some p0 →
  (∀ p, p ∈ Store.projects s → Project.id p = projectId →
        Project.tasks p = tasksOfProject projectId (Store.tasks s)) →
  let ids := getAllDescendantTaskIds
               (directTaskIdsOfGroup p0 projectId (Store.tasks s)) (Store.tasks s) in
  let twice pos := translate delta' (translate delta pos) in
  let f2 := λ a : Task, if JSSet.has (Task.id a) ids
                        then Task.withPosition (twice (Task.position a)) a
                        else a in
  moveProjectGroup projectId delta' (moveProjectGroup projectId delta s)
  = Store.mk
      ((λ p, if decide (Project.id p = projectId)
             then Project.withTasks (tasksOfProject projectId (f2 <$> Store.tasks s))
                    (Project.withPosition (twice (Project.position p)) p)
             else p) <$> Store.projects s)
      (f2 <$> Store.tasks s) (Store.prioritizedTaskIds s).
Proof.
  intros Hp0 Hsync ids twice f2. unfold moveProjectGroup at 2. rewrite Hp0.
  pose proof (findProject_Some _ _ _ Hp0) as [Hin0 Hid0].
  fold ids.
  set (f := λ a : Task, if JSSet.has (Task.id a) ids
                        then Task.withPosition (translate delta (Task.position a)) a
                        else a).
  set (g := λ p : Project,
         if decide (Project.id p = projectId)
         then Project.withTasks (tasksOfProject projectId (f <$> Store.tasks s))
                (Project.withPosition (translate delta (Project.position p)) p)
         else p).
  assert (Hfid : ∀ a, Task.id (f a) = Task.id a).
  { intros a. unfold f. by destruct (JSSet.has _ _). }
  assert (Hfpar : ∀ a, Task.parentTaskId (f a) = Task.parentTaskId a).
  { intros a. unfold f. by destruct (JSSet.has _ _). }
  assert (Hfproj : ∀ a, Task.projectId (f a) = Task.projectId a).
  { intros a. unfold f. by destruct (JSSet.has _ _). }
  assert (Hgid : ∀ p, Project.id (g p) = Project.id p).
  { intros p. unfold g. by case_decide. }
  unfold moveProjectGroup. simpl.
  rewrite (findProject_fmap g) by done. rewrite Hp0. simpl.
  assert (Hseeds : directTaskIdsOfGroup (g p0) projectId (f <$> Store.tasks s)
                   = directTaskIdsOfGroup p0 projectId (Store.tasks s)).
  { unfold directTaskIdsOfGroup, g. rewrite decide_True by done. simpl.
    rewrite (Hsync p0 Hin0 Hid0), tasksOfProject_fmap by done.
    by rewrite fmap_ids. }
  rewrite Hseeds, getAllDescendantTaskIds_fmap by done. fold ids.
  assert (Hts : (λ a, if JSSet.has (Task.id a) ids
                      then Task.withPosition
                             (translate delta' (Task.position a)) a
                      else a) <$> (f <$> Store.tasks s) = f2 <$> Store.tasks s).
  { rewrite <- list_fmap_compose. apply list_fmap_ext. intros k a _. simpl.
    rewrite Hfid. unfold f, f2. by destruct (JSSet.has (Task.id a) ids). }
  rewrite Hts. f_equal.
  rewrite <- list_fmap_compose. apply list_fmap_ext. intros k p Hk. simpl.
  rewrite Hgid. unfold g. by case_decide.
Qed.

Lemma comesBack_translate delta pos :
  comesBack delta pos → translate (opposite delta) (translate delta pos) = pos.
Proof.
  intros [Hx Hy]. destruct pos as [x y]. unfold translate, opposite; simpl in *.
  by rewrite Hx, Hy.
Qed.

(** X24. A project group is moved by a delta and then by the opposite delta,
    the cached list of the projects with that identifier being the tasks of
    the flat list that name the project. The second move moves the tasks the
    first one moved: each has [dx] then [-dx] added to its [x], [dy] then
    [-dy] to its [y], and is otherwise as it was; the other tasks and the
    priority list are as they were. The state is given back when these
    additions give back the coordinates of the moved tasks and of the
    project, which additions of JavaScript numbers do not always do. *)
Theorem moveProjectGroup_round_trip projectId delta s project :
  findProject projectId (Store.projects s) = Some project →
  (∀ p, p ∈ Store.projects s → Project.id p = projectId →
        Project.tasks p = tasksOfProject projectId (Store.tasks s)) →
  (∀ k a, Store.tasks s !! k = Some a →
     ∃ a', Store.tasks
             (moveProjectGroup projectId (opposite delta)
                (moveProjectGroup projectId delta s)) !! k = Some a'
           ∧ (Descendant (Store.tasks s) (groupSeeds project (Store.tasks s))
                (Task.id a) →
              Position.x (Task.position a')
              = (Position.x (Task.position a) + dx delta + - dx delta)%float
              ∧ Position.y (Task.position a')
                = (Position.y (Task.position a) + dy delta + - dy delta)%float
              ∧ sameButPosition a a')
           ∧ (¬ Descendant (Store.tasks s) (groupSeeds project (Store.tasks s))
                  (Task.id a) →
              a' = a))
  ∧ Store.prioritizedTaskIds
      (moveProjectGroup projectId (opposite delta)
         (moveProjectGroup projectId delta s))
    = Store.prioritizedTaskIds s
  ∧ ((∀ a, a ∈ Store.tasks s →
           Descendant (Store.tasks s) (groupSeeds project (Store.tasks s))
             (Task.id a) →
           comesBack delta (Task.position a)) →
     (∀ p, p ∈ Store.projects s → Project.id p = projectId →
           comesBack delta (Project.position p)) →
     moveProjectGroup projectId (opposite delta)
       (moveProjectGroup projectId delta s) = s).
Proof.
  intros Hfind Hsync.
  rewrite (moveProjectGroup_again _ _ _ _ _ Hfind Hsync). simpl.
  pose proof (findProject_Some _ _ _ Hfind) as [_ Hid].
  assert (Hkey : ∀ i,
            JSSet.has i (getAllDescendantTaskIds
                           (directTaskIdsOfGroup project projectId (Store.tasks s))
                           (Store.tasks s)) = true
            ↔ Descendant (Store.tasks s) (groupSeeds project (Store.tasks s)) i).
  { intros i. rewrite JSSet_has_true, <- Hid. apply directTaskIdsOfGroup_closure. }
  split_and!.
  - intros k a Hk. rewrite list_lookup_fmap, Hk. simpl.
    eexists. split; [done|].
    destruct (JSSet.has (Task.id a) _) eqn:Hh.
    + split; [|intros Hn; destruct Hn; by apply Hkey].
      intros _. split_and!; [done|done|apply sameButPosition_withPosition].
    + split; [|done]. intros Hn%Hkey. congruence.
  - done.
  - intros Hts Hps.
    assert (Hback : (λ a : Task,
               if JSSet.has (Task.id a)
                    (getAllDescendantTaskIds
                       (directTaskIdsOfGroup project projectId (Store.tasks s))
                       (Store.tasks s))
               then Task.withPosition
                      (translate (opposite delta)
                         (translate delta (Task.position a))) a
               else a) <$> Store.tasks s = Store.tasks s).
    { etrans; [|apply list_fmap_id]. apply list_fmap_ext. intros k a Hk. simpl.
      destruct (JSSet.has (Task.id a) _) eqn:Hh; [|done].
      rewrite comesBack_translate.
      - by destruct a.
      - apply Hts; [by eapply list_elem_of_lookup_2|by apply Hkey]. }
    rewrite Hback. destruct s as [ps ts prio]. simpl in *. f_equal.
    etrans; [|apply list_fmap_id]. apply list_fmap_ext. intros k p Hk. simpl.
    case_decide as Hd; [|done].
    pose proof (list_elem_of_lookup_2 _ _ _ Hk) as Hp.
    rewrite <- (Hsync p Hp Hd), (comesBack_translate _ _ (Hps p Hp Hd)).
    by destruct p.
Qed.

(** From the origin by (10, 5.5) and back the state is given back. Far to
    the right, where the numbers are two apart, a move by (1, 0) and back
    leaves the task "c1" one to the left of where it was. *)
Lemma moveProjectGroup_round_trip_witness :
  moveProjectGroup "p" (opposite (Build_Delta 10 5.5)%float)
    (moveProjectGroup "p" (Build_Delta 10 5.5)%float syncedLayoutStore)
  = syncedLayoutStore
  ∧ Task.position <$> Store.tasks farLayoutStore !! 4%nat
    = Some (Position.mk 9007199254740992 0)%float
  ∧ Task.position
      <$> Store.tasks
            (moveProjectGroup "p" (opposite (Build_Delta 1 0)%float)
               (moveProjectGroup "p" (Build_Delta 1 0)%float farLayoutStore))
          !! 4%nat
    = Some (Position.mk 9007199254740991 0)%float.
Proof.
  assert (Hsync : ∀ p, p ∈ Store.projects syncedLayoutStore → Project.id p = "p" →
            Project.tasks p = tasksOfProject "p" (Store.tasks syncedLayoutStore)).
  { intros p Hp Hid. unfold syncedLayoutStore in Hp; simpl in Hp.
    apply elem_of_cons in Hp as [->|Hp]; [reflexivity|].
    apply list_elem_of_singleton in Hp as ->. discriminate. }
  destruct (moveProjectGroup_round_trip "p" (Build_Delta 10 5.5)%float
              syncedLayoutStore
              (mkProject "p" InProgress (tasksOfProject "p" layoutTasks))
              eq_refl Hsync) as (_ & _ & Hback).
  split_and!; [|reflexivity|reflexivity].
  apply Hback.
  - intros a Ha _. unfold syncedLayoutStore, layoutTasks in Ha; simpl in Ha.
    repeat (apply elem_of_cons in Ha as [->|Ha]; [by split|]).
    by apply elem_of_nil in Ha.
  - intros p Hp _. unfold syncedLayoutStore in Hp; simpl in Hp.
    repeat (apply elem_of_cons in Hp as [->|Hp]; [by split|]).
    by apply elem_of_nil in Hp.
Defined.

(** X25. A project that was just added is taken away again by
    [deleteProject]: when its identifier is new, that of no project and
    named by no task, [deleteProject] after [addProject] gives back the
    state, tasks and priority list included. *)
Theorem addProject_deleteProject newId projectData position s :
  (∀ p, p ∈ Store.projects s → Project.id p ≠ newId) →
  (∀ a, a ∈ Store.tasks s → Task.projectId a ≠ Some newId) →
  deleteProject newId (addProject newId projectData position s) = s.
Proof.
  intros Hps Hts. unfold deleteProject, addProject; simpl.
  assert (tasksOfProject newId (Store.tasks s) = []) as ->.
  { by apply filter_none. }
  assert (getAllDescendantTaskIds (Task.id <$> []) (Store.tasks s) = []) as ->
    by done.
  destruct s as [ps ts prio]. simpl in *. f_equal.
  - rewrite filter_cons, decide_False by (intros Hn; by apply Hn).
    by apply filter_all.
  - by apply filter_all.
  - by apply filter_all.
Qed.

Lemma addProject_deleteProject_witness :
  deleteProject "new" (addProject "new" (mkProject "" InProgress []) None layoutStore)
  = layoutStore.
Proof.
  apply (addProject_deleteProject "new" (mkProject "" InProgress []) None layoutStore).
  - intros p Hp. unfold layoutStore in Hp; simpl in Hp.
    repeat (apply elem_of_cons in Hp as [->|Hp]; [discriminate|]).
    by apply elem_of_nil in Hp.
  - intros a Ha. unfold layoutStore, layoutTasks in Ha; simpl in Ha.
    repeat (apply elem_of_cons in Ha as [->|Ha]; [discriminate|]).
    by apply elem_of_nil in Ha.
Defined.

(** X26. A task that was just added is taken away again by [deleteTask]:
    when its identifier is new, that of no task of the flat list or of a
    cached list and not in the priority list, [deleteTask] after [addTask]
    gives back the state. *)
Theorem addTask_deleteTask newId taskData s :
  (∀ a, a ∈ Store.tasks s → Task.id a ≠ newId) →
  (∀ p a, p ∈ Store.projects s → a ∈ Project.tasks p → Task.id a ≠ newId) →
  newId ∉ Store.prioritizedTaskIds s →
  deleteTask newId (addTask newId taskData s) = s.
Proof.
  intros Hts Hcache Hprio.
  destruct (addTask_tasks newId taskData s) as (a & Hadd & Hid & _ & _ & Hpid).
  assert (Hfind : findTask newId (Store.tasks (addTask newId taskData s)) = Some a).
  { rewrite Hadd. unfold findTask.
    rewrite list_find_app_r by (by apply list_find_None, Forall_forall).
    simpl. by rewrite decide_True. }
  assert (Hflat : filter (λ b, Task.id b ≠ newId)
                    (Store.tasks (addTask newId taskData s))
                  = Store.tasks s).
  { rewrite Hadd.
    rewrite filter_app, filter_cons, decide_False by (intros Hn; by apply Hn).
    rewrite filter_nil, app_nil_r. by apply filter_all. }
  assert (Hp : filter (λ i, i ≠ newId)
                 (Store.prioritizedTaskIds (addTask newId taskData s))
               = Store.prioritizedTaskIds s).
  { unfold addTask; simpl.
    rewrite (proj2 (JSSet_has_false newId _) Hprio).
    rewrite filter_app, filter_cons, decide_False by (intros Hn; by apply Hn).
    rewrite filter_nil, app_nil_r. apply filter_all. intros i Hi ->. done. }
  assert (Hproj :
    (if truthy (Task.projectId taskData)
     then (λ p, if decide (Some (Project.id p) = Task.projectId taskData)
                then Project.withTasks
                       (filter (λ b, Task.id b ≠ newId) (Project.tasks p)) p
                else p) <$> Store.projects (addTask newId taskData s)
     else Store.projects (addTask newId taskData s))
    = Store.projects s).
  { unfold addTask; simpl.
    destruct (truthy (Task.projectId taskData)); [|done].
    rewrite <- list_fmap_compose. etrans; [|apply list_fmap_id].
    apply list_fmap_ext. intros k p Hk. simpl.
    destruct (decide (Some (Project.id p) = Task.projectId taskData)) as [Hd|Hd];
      simpl; [|by rewrite decide_False].
    rewrite decide_True by done.
    rewrite filter_app, filter_cons, decide_False by (intros Hn; by apply Hn).
    rewrite filter_nil, app_nil_r.
    rewrite filter_all
      by (intros b Hb; eapply Hcache; [by eapply list_elem_of_lookup_2|done]).
    by destruct p. }
  unfold deleteTask. rewrite Hfind.
  change (Some a ≫= Task.projectId) with (Task.projectId a).
  rewrite Hpid, Hflat, Hp, Hproj. by destruct s.
Qed.

Lemma addTask_deleteTask_witness :
  deleteTask "n" (addTask "n" (mkTask "" "N" false (Some "p") None) layoutStore)
  = layoutStore.
Proof.
  apply (addTask_deleteTask "n" (mkTask "" "N" false (Some "p") None) layoutStore).
  - intros a Ha. unfold layoutStore, layoutTasks in Ha; simpl in Ha.
    repeat (apply elem_of_cons in Ha as [->|Ha]; [discriminate|]).
    by apply elem_of_nil in Ha.
  - intros p a Hp Ha. unfold layoutStore in Hp; simpl in Hp.
    repeat (apply elem_of_cons in Hp as [->|Hp]; [by apply elem_of_nil in Ha|]).
    by apply elem_of_nil in Hp.
  - apply (bool_decide_unpack _). vm_compute. exact I.
Defined.

(** ** The cached lists of the projects *)

Lemma CacheSynced_fmap (fp : Project → Project) (ft : Task → Task) s prio :
  (∀ p, Project.id (fp p) = Project.id p) →
  (∀ a, Task.projectId (ft a) = Task.projectId a) →
  (∀ p, p ∈ Store.projects s → Project.tasks (fp p) = ft <$> Project.tasks p) →
  CacheSynced s →
  CacheSynced (Store.mk (fp <$> Store.projects s) (ft <$> Store.tasks s) prio).
Proof.
  intros Hid Hproj Htasks Hs p' Hp'. simpl in *.
  apply list_elem_of_fmap in Hp' as (p & -> & Hp).
  by rewrite Hid, (Htasks p Hp), (Hs p Hp), tasksOfProject_fmap.
Qed.

Lemma CacheSynced_projects (fp : Project → Project) s prio :
  (∀ p, Project.id (fp p) = Project.id p) →
  (∀ p, Project.tasks (fp p) = Project.tasks p) →
  CacheSynced s →
  CacheSynced (Store.mk (fp <$> Store.projects s) (Store.tasks s) prio).
Proof.
  intros Hid Htasks Hs p' Hp'. simpl in *.
  apply list_elem_of_fmap in Hp' as (p & -> & Hp).
  by rewrite Hid, Htasks, (Hs p Hp).
Qed.

Lemma CacheSynced_prioritized s prio :
  CacheSynced s → CacheSynced (Store.mk (Store.projects s) (Store.tasks s) prio).
Proof. intros Hs p Hp. by apply Hs. Qed.

Lemma updateTask_CacheSynced taskId taskData s :
  Task.p_projectId taskData = None →
  CacheSynced s → CacheSynced (updateTask taskId taskData s).
Proof.
  intros Hd Hs. unfold updateTask.
  apply (CacheSynced_fmap
           (λ p, Project.withTasks
                   ((λ a, if decide (Task.id a = taskId)
                          then Task.merge a taskData else a) <$> Project.tasks p) p)
           (λ a, if decide (Task.id a = taskId) then Task.merge a taskData else a));
    try done.
  intros a. case_decide; [|done]. simpl. by rewrite Hd.
Qed.

Lemma moveTaskSubtree_CacheSynced rootTaskId delta s :
  NoDup (Task.id <$> Store.tasks s) →
  CacheSynced s → CacheSynced (moveTaskSubtree rootTaskId delta s).
Proof.
  intros Hnd Hs. unfold moveTaskSubtree.
  destruct (_ && _); [done|].
  destruct (findTask rootTaskId (Store.tasks s)); [|done].
  destruct (bool_decide _); [done|].
  set (ids := getAllDescendantTaskIds [rootTaskId] (Store.tasks s)).
  set (f := λ a : Task, if JSSet.has (Task.id a) ids
                        then Task.withPosition (translate delta (Task.position a)) a
                        else a).
  apply (CacheSynced_fmap _ f).
  - done.
  - intros a. unfold f. by destruct (JSSet.has _ _).
  - intros p Hp. simpl. apply list_fmap_ext. intros k c Hk. unfold f.
    destruct (JSSet.has (Task.id c) ids) eqn:Hh; [|done].
    rewrite newPositionsOfMove_lookup, Hh.
    assert (c ∈ Store.tasks s) as Hc.
    { apply list_elem_of_lookup_2 in Hk. rewrite (Hs p Hp) in Hk.
      by apply list_elem_of_filter in Hk as [_ ?]. }
    assert (tasksById (Store.tasks s) !! Task.id c = Some c) as ->; [|done].
    rewrite <- (findTask_tasksById _ _ Hnd).
    destruct (findTask_is_Some (Task.id c) _ c Hc eq_refl) as [c' Hc'].
    rewrite Hc'. apply findTask_Some in Hc' as [? ?]. f_equal.
    by apply (unique_task (Store.tasks s)).
  - done.
Qed.

(** X27. The cached lists follow the flat list. The listener of the tasks
    collection leaves every project with the tasks of the flat list that
    name it as its cached list, and the operations that edit where things
    are keep it so on a flat list with unique identifiers: [updateTask]
    without a [projectId] key, [updateTaskPosition], [updateLineStyle],
    [moveTaskSubtree], [updateProject] without [id] and [tasks] keys,
    [finishProject], [reactivateProject], [toggleProjectCollapse] and
    [setPrioritizedTasks]. *)
Theorem cache_follows_flat_list :
  (∀ loaded s, CacheSynced (onTasksSnapshot loaded s))
  ∧ (∀ cmp fuel o s s',
       editsInPlace o →
       NoDup (Task.id <$> Store.tasks s) →
       CacheSynced s →
       run cmp fuel o s = Some s' →
       CacheSynced s').
Proof.
  split.
  - intros loaded s p' Hp'. unfold onTasksSnapshot in *; simpl in *.
    by apply list_elem_of_fmap in Hp' as (p & -> & Hp).
  - intros cmp fuel o s s' Ho Hnd Hs Hrun.
    destruct o; simpl in Ho; try done; simpl in Hrun; injection Hrun as <-.
    + destruct Ho as [Hi Ht]. unfold updateProject.
      apply CacheSynced_projects; [| |done].
      * intros p. case_decide; [|done]. simpl. by rewrite Hi.
      * intros p. case_decide; [|done]. simpl. by rewrite Ht.
    + by apply moveTaskSubtree_CacheSynced.
    + unfold finishProject.
      destruct (findProject _ _); [|done].
      apply (CacheSynced_prioritized
               (Store.mk _ (Store.tasks s) (Store.prioritizedTaskIds s))).
      apply CacheSynced_projects; [| |done]; intros p; by case_decide.
    + unfold reactivateProject.
      assert (CacheSynced
                (Store.mk
                   ((λ p, if decide (Project.id p = projectId)
                          then Project.withStatus InProgress false p else p)
                      <$> Store.projects s)
                   (Store.tasks s) (Store.prioritizedTaskIds s))) as Hs1.
      { apply CacheSynced_projects; [| |done]; intros p; by case_decide. }
      destruct (bool_decide _); [|done].
      by apply (CacheSynced_prioritized (Store.mk _ _ _)).
    + unfold toggleProjectCollapse.
      apply CacheSynced_projects; [| |done]; intros p; by case_decide.
    + by apply updateTask_CacheSynced.
    + unfold updateTaskPosition.
      apply (CacheSynced_fmap
               (λ p, Project.withTasks
                       ((λ a, if decide (Task.id a = taskId)
                              then Task.withPosition position a else a)
                          <$> Project.tasks p) p)
               (λ a, if decide (Task.id a = taskId)
                     then Task.withPosition position a else a)); try done.
      intros a. by case_decide.
    + unfold updateLineStyle. by apply updateTask_CacheSynced.
    + by apply CacheSynced_prioritized.
Qed.

Lemma cache_follows_flat_list_witness :
  ∃ s', run codeUnitCompare 0 (OpMoveTaskSubtree "r1" (Build_Delta 10 5))
          (onTasksSnapshot layoutTasks layoutStore) = Some s'
        ∧ CacheSynced s'.
Proof.
  eexists. split; [reflexivity|].
  apply (proj2 cache_follows_flat_list codeUnitCompare 0%nat
           (OpMoveTaskSubtree "r1" (Build_Delta 10 5))
           (onTasksSnapshot layoutTasks layoutStore)).
  - exact I.
  - apply (bool_decide_unpack _). vm_compute. exact I.
  - apply (proj1 cache_follows_flat_list).
  - reflexivity.
Defined.

(** ** [toggleProjectCollapse] *)

(** X28. [toggleProjectCollapse] turns over the collapsed flag of the
    projects with that identifier and touches nothing else; toggling twice
    gives back the state when the flag of these projects is set, as
    [addProject] and the listener of the projects set it. *)
Theorem toggleProjectCollapse_twice projectId s :
  (∀ k p, Store.projects s !! k = Some p →
     ∃ p', Store.projects (toggleProjectCollapse projectId s) !! k = Some p'
           ∧ (Project.id p = projectId →
              truthyFlag (Project.isCollapsed p')
              = negb (truthyFlag (Project.isCollapsed p))
              ∧ Project.withCollapsed (truthyFlag (Project.isCollapsed p')) p = p')
           ∧ (Project.id p ≠ projectId → p' = p))
  ∧ Store.tasks (toggleProjectCollapse projectId s) = Store.tasks s
  ∧ Store.prioritizedTaskIds (toggleProjectCollapse projectId s)
    = Store.prioritizedTaskIds s
  ∧ ((∀ p, p ∈ Store.projects s → Project.id p = projectId →
           is_Some (Project.isCollapsed p)) →
     toggleProjectCollapse projectId (toggleProjectCollapse projectId s) = s).
Proof.
  split_and!; [|done|done|].
  - intros k p Hk. unfold toggleProjectCollapse; simpl.
    rewrite list_lookup_fmap, Hk. simpl. eexists. split; [done|].
    case_decide as Hd; split; try done.
    intros _. simpl. by destruct (truthyFlag (Project.isCollapsed p)).
  - intros Hset. unfold toggleProjectCollapse; simpl.
    destruct s as [ps ts prio]. simpl in *. f_equal.
    rewrite <- list_fmap_compose. etrans; [|apply list_fmap_id].
    apply list_fmap_ext. intros k p Hk. simpl.
    destruct (decide (Project.id p = projectId)) as [Hd|Hd]; simpl.
    + rewrite decide_True by done.
      destruct (Hset p (list_elem_of_lookup_2 _ _ _ Hk) Hd) as [b Hb].
      destruct p. simpl in *. rewrite Hb.
      unfold Project.withCollapsed, Project.withStatus; simpl.
      by destruct b.
    + by rewrite decide_False.
Qed.

Lemma toggleProjectCollapse_twice_witness :
  toggleProjectCollapse "p" (toggleProjectCollapse "p" layoutStore) = layoutStore.
Proof.
  apply (proj2 (proj2 (proj2 (toggleProjectCollapse_twice "p" layoutStore)))).
  intros p Hp _. unfold layoutStore in Hp; simpl in Hp.
  repeat (apply elem_of_cons in Hp as [->|Hp]; [by eexists|]).
  by apply elem_of_nil in Hp.
Defined.
